(** * ERobot: link tree, path resolver and kinematics of
      [roboticstoolbox/robot/ERobot.py]

    A shallow embedding of the classes [BaseERobot] and [ERobot].  Link
    objects live in an arena and are addressed by reference, methods of the
    robot are state-passing functions that may raise, and the numeric
    libraries the module imports (NumPy, spatialmath, the [fknm] extension)
    are taken through an interface. *)

From stdpp Require Import gmap strings list fin_maps pretty.
From Stdlib Require Import ZArith.

Open Scope string_scope.
Open Scope list_scope.
Open Scope nat_scope.

(** ** Exceptions and outcomes *)

Inductive exn :=
  | ValueError (msg : string)
  | TypeError (msg : string)
  | KeyError (key : string)
  | IndexError (msg : string)
  | AttributeError (attr : string)
  | NameError (name : string).

(** A call returns, raises, or runs forever. *)
Inductive outcome (A : Type) :=
  | Ok (a : A)
  | Raise (e : exn)
  | Diverge.
Arguments Ok {A} a.
Arguments Raise {A} e.
Arguments Diverge {A}.

Definition obind {A B} (m : outcome A) (k : A → outcome B) : outcome B :=
  match m with
  | Ok a => k a
  | Raise e => Raise e
  | Diverge => Diverge
  end.

#[export] Instance outcome_ret : MRet outcome := @Ok.
#[export] Instance outcome_bind : MBind outcome := λ A B k m, obind m k.

(** Methods of an object with state [S]. An exception leaves the writes made
    before it in place. *)
Definition method (S A : Type) : Type := S → outcome A * S.

Definition mpure {S A} (a : A) : method S A := λ s, (Ok a, s).
Definition mthen {S A B} (m : method S A) (k : A → method S B) : method S B :=
  λ s, match m s with
       | (Ok a, s') => k a s'
       | (Raise e, s') => (Raise e, s')
       | (Diverge, s') => (Diverge, s')
       end.
Definition mraise {S A} (e : exn) : method S A := λ s, (Raise e, s).
Definition mlift {S A} (o : outcome A) : method S A := λ s, (o, s).
Definition mget {S} : method S S := λ s, (Ok s, s).
Definition mset {S} (f : S → S) : method S unit := λ s, (Ok tt, f s).

#[export] Instance method_ret {S} : MRet (method S) := @mpure S.
#[export] Instance method_bind {S} : MBind (method S) := λ A B k m, mthen m k.

(** ** Numeric interface

    Scalars, 4x4 homogeneous transforms and the argument checkers of
    spatialmath, as the module uses them. *)

(** Link objects are addressed by their position in the arena. *)
Abbreviation ref := nat (only parsing).

Class Numerics := {
  R : Type;
  rzero : R;
  radd : R → R → R;
  rsub : R → R → R;
  rmul : R → R → R;
  (** 4x4 arrays: [np.eye(4)], [@], [np.linalg.inv], indexing *)
  M : Type;
  eye4 : M;
  matmul : M → M → M;
  inv : M → M;
  entry : M → nat → nat → R;
}.

Section Model.
Context {N : Numerics}.

(** [SE3] holds one 4x4 array, [.A]. *)
Record SE3 := mkSE3 { SE3_A : M }.
Definition SE3_id : SE3 := mkSE3 eye4.
Definition SE3_mul (a b : SE3) : SE3 := mkSE3 (matmul (SE3_A a) (SE3_A b)).

(** The argument of [link.A]: [q[jindex]] is an element of the row, or the
    row with a new axis when [jindex] is [None]; [QDefault] when the call
    passes none. *)
Inductive qarg :=
  | QElem (x : R)
  | QNewaxis (row : list R)
  | QDefault.

(** ** Links *)

Inductive parent_ref :=
  | PNone
  | PName (s : string)
  | PLink (l : ref).

(** The joint variable of a link, [link.v]: its axis and its motion
    subspace vector [s]. *)
Record ET := mkET { axis : string; ET_s : list R }.

Record ELink := mkELink {
  name : option string;
  _parent : parent_ref;
  _children : list ref;
  jindex : option nat;
  isjoint : bool;
  v : option ET;
  (** [link.A(q, fast=True)]: a 4x4 array, or [None] for the identity *)
  A : qarg → option M;
  (** mass and centre of mass *)
  ELink_m : R;
  ELink_r : list R;
}.

Definition set_name (s : string) (l : ELink) : ELink :=
  mkELink (Some s) (_parent l) (_children l) (jindex l) (isjoint l) (v l) (A l)
    (ELink_m l) (ELink_r l).
Definition set_parent (p : parent_ref) (l : ELink) : ELink :=
  mkELink (name l) p (_children l) (jindex l) (isjoint l) (v l) (A l)
    (ELink_m l) (ELink_r l).
Definition append_child (c : ref) (l : ELink) : ELink :=
  mkELink (name l) (_parent l) (_children l ++ [c]) (jindex l) (isjoint l) (v l) (A l)
    (ELink_m l) (ELink_r l).
Definition set_jindex (j : nat) (l : ELink) : ELink :=
  mkELink (name l) (_parent l) (_children l) (Some j) (isjoint l) (v l) (A l)
    (ELink_m l) (ELink_r l).

(** The arena of link objects. *)
Abbreviation heap := (list ELink) (only parsing).

Definition str_of_name (o : option string) : string :=
  match o with Some s => s | None => "None" end.

(** Attribute access through a reference. *)
Definition deref (h : heap) (l : ref) : outcome ELink :=
  match h !! l with
  | Some x => Ok x
  | None => Raise (AttributeError "dangling reference")
  end.

(** ** Grippers and the robot object *)

Record Gripper := mkGripper {
  g_id : nat;
  g_name : option string;
  g_links : list ref;
  g_tool : SE3;
  g_n : nat;
}.

Definition path_entry : Type := list ref * nat * SE3.
Definition path_entry_fknm : Type := list ref * nat * M.

Record ERobot := mkERobot {
  links : list ref;
  _linkdict : gmap string ref;
  _n : nat;
  _ee_links : list (option ref);
  _base_link : option ref;
  grippers : list Gripper;
  _nbranches : nat;
  _base : option SE3;
  _tool : option SE3;
  _path_cache : gmap (option string) (gmap (option string) path_entry);
  _path_cache_fknm : gmap (option string) (gmap (option string) path_entry_fknm);
  _cache_end : option ref;
  _cache_start : option ref;
  _cache_end_tool : option SE3;
}.

Definition with_cache_end (e : option ref) (t : option SE3) (r : ERobot) : ERobot :=
  mkERobot (links r) (_linkdict r) (_n r) (_ee_links r) (_base_link r)
    (grippers r) (_nbranches r) (_base r) (_tool r) (_path_cache r) (_path_cache_fknm r)
    e (_cache_start r) t.
Definition with_cache_start (s : option ref) (r : ERobot) : ERobot :=
  mkERobot (links r) (_linkdict r) (_n r) (_ee_links r) (_base_link r)
    (grippers r) (_nbranches r) (_base r) (_tool r) (_path_cache r) (_path_cache_fknm r)
    (_cache_end r) s (_cache_end_tool r).
Definition with_path_cache
    (c : gmap (option string) (gmap (option string) path_entry))
    (cf : gmap (option string) (gmap (option string) path_entry_fknm))
    (r : ERobot) : ERobot :=
  mkERobot (links r) (_linkdict r) (_n r) (_ee_links r) (_base_link r)
    (grippers r) (_nbranches r) (_base r) (_tool r) c cf
    (_cache_end r) (_cache_start r) (_cache_end_tool r).

(** [_reset_cache] *)
Definition _reset_cache (r : ERobot) : ERobot :=
  mkERobot (links r) (_linkdict r) (_n r) (_ee_links r) (_base_link r)
    (grippers r) (_nbranches r) (_base r) (_tool r) ∅ ∅ None None None.

(** A link, a name, a gripper or nothing: what [end] and [start] accept. *)
Inductive linkarg :=
  | ArgNone
  | ArgStr (s : string)
  | ArgLink (l : ref)
  | ArgGripper (g : nat).

(** [_getlink] *)
Definition _getlink (self : ERobot) (link default : linkarg) : outcome ref :=
  let link := match link with ArgNone => default | _ => link end in
  match link with
  | ArgStr s =>
      match _linkdict self !! s with
      | Some l => Ok l
      | None => Raise (ValueError ("no link named " +:+ s))
      end
  | ArgLink l =>
      if bool_decide (l ∈ links self) then Ok l
      else if existsb (λ g, bool_decide (l ∈ g_links g)) (grippers self)
      then Ok l
      else Raise (ValueError "link not in robot links")
  | _ => Raise (TypeError "unknown argument")
  end.

(** One turn of the loop over the grippers in [_get_limit_links]. *)
Definition match_gripper (acc : outcome (linkarg * option SE3)) (g : Gripper)
  : outcome (linkarg * option SE3) :=
  '(end_, tool) ← acc;
  let hit := match end_ with
             | ArgGripper i => bool_decide (i = g_id g)
             | ArgStr s => bool_decide (g_name g = Some s)
             | _ => false
             end in
  if hit then
    match g_links g with
    | l :: _ => Ok (ArgLink l, Some (g_tool g))
    | [] => Raise (IndexError "list index out of range")
    end
  else Ok (end_, tool).

(** [_get_limit_links]: the end link, the start link and the gripper tool. *)
Definition _get_limit_links (end_ start : linkarg)
  : method ERobot (option ref * option ref * option SE3) :=
  self ← mget;
  '(e, tool) ←
    match end_ with
    | ArgNone =>
        '(e, tool) ←
          match grippers self with
          | [g] =>
              match g_links g with
              | l :: _ => mret (Some l, Some (g_tool g))
              | [] => mraise (IndexError "list index out of range")
              end
          | _ :: _ :: _ => mraise (ValueError "Must specify which gripper")
          | [] =>
              match _ee_links self with
              | [l] => mret (l, None)
              | _ => mraise (ValueError "Must specify which end-effector")
              end
          end;
        mset (with_cache_end e tool);;
        mret (e, tool)
    | _ =>
        '(a, tool) ← mlift (foldl match_gripper (Ok (end_, None)) (grippers self));
        e ← mlift (_getlink self a ArgNone);
        mret (Some e, tool)
    end;
  s ←
    match start with
    | ArgNone =>
        mset (with_cache_start (_base_link self));;
        mret (_base_link self)
    | _ =>
        s ← mlift (_getlink self start ArgNone);
        mret (Some s)
    end;
  mret (e, s, tool).

(** ** Path resolver *)

(** The loop [while link != start] of [get_path]. Every turn moves one
    parent up; [fuel] bounds the turns. *)
Fixpoint walk_up (h : heap) (fuel : nat) (start end_ : ELink) (s link : ref)
    (path : list ref) (n : nat) : outcome (list ref * nat) :=
  if bool_decide (link = s) then Ok (path, n)
  else
    match fuel with
    | 0 => Diverge
    | S fuel =>
        x ← deref h link;
        match _parent x with
        | PNone =>
            Raise (ValueError ("cannot find path from " +:+ str_of_name (name start)
                               +:+ " to " +:+ str_of_name (name end_)))
        | PName _ => Raise (AttributeError "isjoint")
        | PLink p =>
            y ← deref h p;
            walk_up h fuel start end_ s p (path ++ [p])
              (if isjoint y then n + 1 else n)
        end
    end.

Definition cache_lookup {V} (c : gmap (option string) (gmap (option string) V))
    (s e : option string) : option V :=
  c !! s ≫= λ m, m !! e.

(** [cache[s] = {}] when [s] has no row yet *)
Definition cache_row {V} (s : option string) (present : bool)
    (c : gmap (option string) (gmap (option string) V))
  : gmap (option string) (gmap (option string) V) :=
  if present then c else <[s := ∅]> c.

(** [cache[s][e] = x] *)
Definition cache_store {V} (c : gmap (option string) (gmap (option string) V))
    (s e : option string) (x : V)
  : gmap (option string) (gmap (option string) V) :=
  <[s := <[e := x]> (default ∅ (c !! s))]> c.

(** What [get_path] returns: link objects, or their [_fknm] handles. *)
Inductive path_result :=
  | Path (p : list ref) (n : nat) (tool : SE3)
  | PathFknm (p : list ref) (n : nat) (tool : M).

(** [get_path]. A parent walk of more turns than there are link objects has
    come back to a link it left, and never ends. *)
Definition get_path (h : heap) (end_ start : linkarg) (_fknm : bool)
  : method ERobot path_result :=
  '(e, s, tool) ← _get_limit_links end_ start;
  self ← mget;
  match s, e with
  | None, _ | _, None => mraise (AttributeError "name")
  | Some s, Some e =>
      sl ← mlift (deref h s);
      el ← mlift (deref h e);
      let cached :=
        if _fknm then
          (λ '(p, n, t), PathFknm p n t) <$>
            cache_lookup (_path_cache_fknm self) (name sl) (name el)
        else
          (λ '(p, n, t), Path p n t) <$>
            cache_lookup (_path_cache self) (name sl) (name el) in
      match cached with
      | Some res => mret res
      | None =>
          mset (λ r,
            let present := bool_decide (is_Some (_path_cache r !! name sl)) in
            with_path_cache
              (cache_row (name sl) present (_path_cache r))
              (cache_row (name sl) present (_path_cache_fknm r)) r);;
          '(path, n) ← mlift (walk_up h (length h) sl el s e [e]
                               (if isjoint el then 1 else 0));
          let path := reverse path in
          let tool := default SE3_id tool in
          mset (λ r, with_path_cache
                 (cache_store (_path_cache r) (name sl) (name el) (path, n, tool))
                 (cache_store (_path_cache_fknm r) (name sl) (name el)
                    (path, n, SE3_A tool)) r);;
          mret (if _fknm then PathFknm path n (SE3_A tool) else Path path n tool)
      end
  end.

(** ** Vocabulary for the link tree *)

Definition parent_of (h : heap) (l : ref) : option parent_ref :=
  _parent <$> h !! l.

Definition link_isjoint (h : heap) (l : ref) : bool :=
  default false (isjoint <$> h !! l).

Definition link_name (h : heap) (l : ref) : option (option string) :=
  name <$> h !! l.

(** Number of joint links on a list of links. *)
Fixpoint count_joints (h : heap) (p : list ref) : nat :=
  match p with
  | [] => 0
  | l :: p => (if link_isjoint h l then 1 else 0) + count_joints h p
  end.

(** ** Depth-first traversal *)

(** [vis_children] of [dfs_links]. [func] may write to the links. The
    recursion cannot go deeper than there are link objects, which is what
    [fuel] counts. *)
Fixpoint vis_children {S} (fuel : nat)
    (func : ref → heap * S → outcome (heap * S))
    (link : ref) (st : list ref * (heap * S))
  : outcome (list ref * (heap * S)) :=
  match fuel with
  | 0 => Diverge
  | S fuel =>
      let visited := st.1 ++ [link] in
      hs ← func link st.2;
      x ← deref hs.1 link;
      foldl (λ acc li,
               st ← acc;
               if bool_decide (li ∈ st.1) then Ok st
               else vis_children fuel func li st)
            (Ok (visited, hs)) (_children x)
  end.

(** [dfs_links]: the visited links, the links as [func] left them, and the
    state [func] keeps. *)
Definition dfs_links {S} (h : heap) (start : option ref)
    (func : ref → heap * S → outcome (heap * S)) (s : S)
  : outcome (list ref * (heap * S)) :=
  match start with
  | None => Raise (AttributeError "children")
  | Some l => vis_children (length h) func l ([], (h, s))
  end.

Definition no_func : ref → heap * unit → outcome (heap * unit) := λ _ hs, Ok hs.

(** ** Construction *)

Definition derefs (h : heap) (ls : list ref) : outcome (list ELink) :=
  foldr (λ l acc, x ← deref h l; xs ← acc; Ok (x :: xs)) (Ok []) ls.

(** [list.remove] *)
Fixpoint list_remove (x : ref) (l : list ref) : outcome (list ref) :=
  match l with
  | [] => Raise (ValueError "list.remove(x): x not in list")
  | y :: l => if bool_decide (x = y) then Ok l
              else l' ← list_remove x l; Ok (y :: l')
  end.

(** Modelled from the spec: the constructor of [Gripper] (Gripper.py). A
    gripper owns its links and has a joint count of its own, the number of
    joint links among them; its tool is the identity until set. *)
Definition Gripper_init (h : heap) (id : nat) (g_links : list ref) : Gripper :=
  mkGripper id (Some "") g_links SE3_id (count_joints h g_links).

(** Names the link, enters it in the dictionary and counts joints. *)
Definition register_link (acc : outcome (heap * gmap string ref * nat * nat))
    (link : ref) : outcome (heap * gmap string ref * nat * nat) :=
  '(h, d, n, link_number) ← acc;
  x ← deref h link;
  let '(h, nm, link_number) :=
    match name x with
    | None =>
        let nm := "link-" +:+ pretty link_number in
        (<[link := set_name nm x]> h, nm, link_number + 1)
    | Some nm => (h, nm, link_number)
    end in
  if bool_decide (is_Some (d !! nm))
  then Raise (ValueError ("link name " +:+ nm +:+ " is not unique"))
  else Ok (h, <[nm := link]> d, if isjoint x then n + 1 else n, link_number).

(** Replaces a parent given by name by the link of that name. *)
Definition resolve_parent (d : gmap string ref) (acc : outcome heap)
    (link : ref) : outcome heap :=
  h ← acc;
  x ← deref h link;
  match _parent x with
  | PName s =>
      match d !! s with
      | Some p => Ok (<[link := set_parent (PLink p) x]> h)
      | None => Raise (KeyError s)
      end
  | _ => Ok h
  end.

(** [links[i + 1]._parent = links[i]] *)
Definition chain_parent (links : list ref) (acc : outcome heap) (i : nat)
  : outcome heap :=
  h ← acc;
  match links !! (i + 1), links !! i with
  | Some a, Some b =>
      x ← deref h a; Ok (<[a := set_parent (PLink b) x]> h)
  | _, _ => Raise (IndexError "list index out of range")
  end.

(** The scan for the base link, which also fills the child lists. *)
Definition scan_base (acc : outcome (heap * option ref)) (link : ref)
  : outcome (heap * option ref) :=
  '(h, base) ← acc;
  x ← deref h link;
  match _parent x with
  | PNone =>
      match base with
      | Some _ => Raise (ValueError "Multiple base links")
      | None => Ok (h, Some link)
      end
  | PLink p =>
      y ← deref h p; Ok (<[p := append_child link y]> h, base)
  | PName _ => Raise (AttributeError "_children")
  end.

(** One gripper: its links leave the list of the robot. *)
Definition extract_gripper (h : heap)
    (acc : outcome (list ref * list Gripper)) (link : ref)
  : outcome (list ref * list Gripper) :=
  '(links, gs) ← acc;
  '(g_links, _) ← dfs_links h (Some link) no_func tt;
  links ← foldl (λ acc g_link, ls ← acc; list_remove g_link ls) (Ok links) g_links;
  Ok (links, gs ++ [Gripper_init h (length gs) g_links]).

(** [visit_link]: the state is the next joint index and [orlinks]. *)
Definition visit_link (links : list ref) (link : ref)
    (st : heap * (nat * list ref)) : outcome (heap * (nat * list ref)) :=
  let '(h, (j, orlinks)) := st in
  x ← deref h link;
  let '(h, j) :=
    if isjoint x && bool_decide (link ∈ links)
    then (<[link := set_jindex j x]> h, j + 1) else (h, j) in
  let orlinks :=
    if bool_decide (link ∈ links) then orlinks ++ [link] else orlinks in
  Ok (h, (j, orlinks)).

Definition render_jindex (j : option nat) : string :=
  match j with Some j => pretty j | None => "None" end.

(** One turn of the index check: the index of a joint must still be in
    [jset], and the index of any link leaves it. *)
Definition check_jindex (acc : outcome (gset nat)) (x : ELink)
  : outcome (gset nat) :=
  jset ← acc;
  let present := match jindex x with
                 | Some j => bool_decide (j ∈ jset)
                 | None => false
                 end in
  if isjoint x && negb present
  then Raise (ValueError ("joint index " +:+ render_jindex (jindex x)
                          +:+ " was repeated or out of range"))
  else Ok (match jindex x with Some j => jset ∖ {[j]} | None => jset end).

(** The joint indices: assigned in depth-first order when no link has
    one, checked when every joint has one. Returns the links as left and
    [orlinks]. *)
Definition assign_jindex (h : heap) (links : list ref) (base : option ref)
    (n : nat) (checkjindex : bool) : outcome (heap * list ref) :=
  xs ← derefs h links;
  if forallb (λ x, bool_decide (jindex x = None)) xs then
    '(_, (h, (_, orlinks))) ← dfs_links h base (visit_link links) (0, []);
    Ok (h, orlinks)
  else if forallb (λ x, bool_decide (jindex x ≠ None)) (filter (λ x, isjoint x) xs)
  then
    (if checkjindex then
       jset ← foldl check_jindex (Ok (list_to_set (seq 0 n))) xs;
       if bool_decide (jset ≠ ∅)
       then Raise (ValueError "joints were not assigned")
       else Ok tt
     else Ok tt);;
    Ok (h, links)
  else
    Raise (ValueError "all links must have a jindex, or none have a jindex").

(** What [gripper_links] accepts. *)
Inductive gripper_arg :=
  | GNone
  | GLink (l : ref)
  | GList (ls : list ref).

(** The first part of [BaseERobot.__init__]: names, parents, the base,
    the child lists and the grippers. It returns the link objects, the
    dictionary, the joint count, the base link, the links that stay with
    the robot, the grippers and their root links. *)
Definition link_tree (h : heap) (links : list ref) (gripper_links : gripper_arg)
  : outcome (heap * gmap string ref * nat * option ref * list ref
             * list Gripper * list ref) :=
  '(h, linkdict, n, _) ← foldl register_link (Ok (h, ∅, 0, 0)) links;
  h ← foldl (resolve_parent linkdict) (Ok h) links;
  xs ← derefs h links;
  h ← (if forallb (λ x, match _parent x with PNone => true | _ => false end) xs
       then foldl (chain_parent links) (Ok h) (seq 0 (length links - 1))
       else Ok h);
  '(h, base_link) ← foldl scan_base (Ok (h, None)) links;
  let gripper_links :=
    match gripper_links with
    | GNone => []
    | GLink l => [l]
    | GList ls => ls
    end in
  '(links, grippers) ← foldl (extract_gripper h) (Ok (links, [])) gripper_links;
  let n := foldl (λ n g, n - g_n g) n grippers in
  Ok (h, linkdict, n, base_link, links, grippers, gripper_links).

(** [BaseERobot.__init__], with [Robot.__init__] keeping [orlinks], [base]
    and [tool]. It returns the link objects as it leaves them and the
    robot. *)
Definition BaseERobot_init (h : heap) (links : list ref)
    (gripper_links : gripper_arg) (checkjindex : bool)
    (base tool : option SE3) : outcome (heap * ERobot) :=
  '(h, linkdict, n, base_link, links, grippers, gripper_links) ←
    link_tree h links gripper_links;
  ee_links ←
    match gripper_links return outcome (list (option ref)) with
    | [] =>
        xs ← derefs h links;
        Ok (omap (λ '(l, x), if bool_decide (length (_children x) = 0)
                             then Some (Some l) else None)
                 (zip links xs))
    | _ =>
        xs ← derefs h gripper_links;
        foldr (λ x acc,
                 ee ← acc;
                 match _parent x with
                 | PNone => Ok (None :: ee)
                 | PLink p => Ok (Some p :: ee)
                 | PName _ => Raise (TypeError "expecting an ELink")
                 end) (Ok ([] : list (option ref))) xs
    end;
  '(h, orlinks) ← assign_jindex h links base_link n checkjindex;
  xs ← derefs h links;
  let nbranches :=
    length (filter (λ x, length (_children x) = 0) xs) in
  Ok (h, mkERobot orlinks linkdict n ee_links base_link grippers nbranches
           base tool ∅ ∅ None None None).

(** [ERobot.__init__] on a list of links. *)
Definition ERobot_init (h : heap) (links : list ref)
    (gripper_links : gripper_arg) (checkjindex : bool)
    (base tool : option SE3) : outcome (heap * ERobot) :=
  '(h, r) ← BaseERobot_init h links gripper_links checkjindex base tool;
  Ok (h, _reset_cache r).

(** [descends h s l p]: [p] lists the links from [s] down to [l], both
    included, each one the parent of the next. *)
Inductive descends (h : heap) (s : ref) : ref → list ref → Prop :=
  | descends_here :
      is_Some (h !! s) → descends h s s [s]
  | descends_child l p path :
      l ≠ s → parent_of h l = Some (PLink p) →
      descends h s p path → descends h s l (path ++ [l]).

(** [ancestry h l c]: [c] lists [l], its parent, its grandparent and so on
    up to a link without parent. *)
Inductive ancestry (h : heap) : ref → list ref → Prop :=
  | ancestry_root l :
      parent_of h l = Some PNone → ancestry h l [l]
  | ancestry_up l p c :
      parent_of h l = Some (PLink p) →
      ancestry h p c → ancestry h l (l :: c).

(** The links a robot can hand out as [end] or [start]. *)
Definition known_links (r : ERobot) : list ref :=
  links r ++ mjoin (g_links <$> grippers r)
    ++ (map_to_list (_linkdict r)).*2
    ++ omap id (_ee_links r) ++ option_list (_base_link r).

(** No two of them share a name. *)
Definition names_unique (h : heap) (r : ERobot) : Prop :=
  Forall (λ a, Forall (λ b, link_name h a = link_name h b → a = b)
                 (known_links r)) (known_links r).

#[global] Instance names_unique_dec h r : Decision (names_unique h r).
Proof. unfold names_unique. apply _. Defined.

(** Every cached path is the path between the two links of those names. *)
Definition cache_sound (h : heap) (r : ERobot) : Prop :=
  ∀ s e p n t,
    s ∈ known_links r → e ∈ known_links r →
    (link_name h s ≫= λ sn, link_name h e ≫= λ en,
       cache_lookup (_path_cache r) sn en) = Some (p, n, t) →
    descends h s e p ∧ n = count_joints h p.

Record robot_wf (h : heap) (r : ERobot) : Prop := {
  wf_names : names_unique h r;
  wf_cache : cache_sound h r;
}.

(** How [_get_limit_links] resolves [start]. *)
Definition start_resolves (r : ERobot) (start : linkarg) (s : option ref) : Prop :=
  match start with
  | ArgNone => s = _base_link r
  | _ => ∃ l, _getlink r start ArgNone = Ok l ∧ s = Some l
  end.

(** The joint indices the joint links of a list carry, in list order. *)
Definition joint_indices (h : heap) (ls : list ref) : list nat :=
  omap (λ l, h !! l ≫= λ x, if isjoint x then jindex x else None) ls.

Definition joints_of (h : heap) (ls : list ref) : list ref :=
  filter (λ l, link_isjoint h l = true) ls.

(** [h'] is [h] with other joint indices. *)
Definition same_but_jindex (h h' : heap) : Prop :=
  length h' = length h
  ∧ ∀ l x, h !! l = Some x →
      ∃ x', h' !! l = Some x' ∧ isjoint x' = isjoint x
            ∧ _children x' = _children x.

(** What holds of the traversal that assigns the indices, at every
    moment: [orlinks] are the visited links of the robot, the counter is
    the number of joints among them, and the [k]-th of those joints has
    index [k]. *)
Definition visit_inv (h : heap) (links : list ref) (visited : list ref)
    (st : heap * (nat * list ref)) : Prop :=
  let '(h', (j, orlinks)) := st in
  NoDup visited
  ∧ orlinks = filter (λ l, l ∈ links) visited
  ∧ same_but_jindex h h'
  ∧ j = length (joints_of h orlinks)
  ∧ joint_indices h' orlinks = seq 0 j.

(** The child list of a link. *)
Definition children_of (h : heap) (l : ref) : list ref :=
  default [] (_children <$> h !! l).

(** The links one reaches from [base] through child lists. *)
Inductive reachable (h : heap) (base : ref) : ref → Prop :=
  | reachable_base : reachable h base base
  | reachable_child p c :
      reachable h base p → c ∈ children_of h p → reachable h base c.

(** A visiting function that leaves the child lists alone. *)
Definition keeps_children {S} (func : ref → heap * S → outcome (heap * S))
  : Prop :=
  ∀ l hs hs', func l hs = Ok hs' →
    ∀ x, children_of hs'.1 x = children_of hs.1 x.

(** The indices of the joints among link objects, in list order. *)
Definition joint_idx (xs : list ELink) : list nat :=
  omap (λ x, if isjoint x then jindex x else None) xs.

(** Two robot states that differ in the cached end points only. *)
Definition same_tree (r r' : ERobot) : Prop :=
  known_links r' = known_links r ∧ _path_cache r' = _path_cache r
  ∧ grippers r' = grippers r ∧ _ee_links r' = _ee_links r
  ∧ _linkdict r' = _linkdict r ∧ _base_link r' = _base_link r
  ∧ links r' = links r.

(** ** Arrays *)

Abbreviation vec3 := (R * R * R)%type (only parsing).
Abbreviation ndarray2 := (list (list R)) (only parsing).
Abbreviation ndarray3 := (list (list (list R))) (only parsing).

Definition zeros2 (a b : nat) : ndarray2 := replicate a (replicate b rzero).
Definition zeros3 (a b c : nat) : ndarray3 :=
  replicate a (replicate b (replicate c rzero)).

Definition get2 (J : ndarray2) (a j : nat) : outcome R :=
  match J !! a ≫= (λ row : list R, row !! j) with
  | Some x => Ok x
  | None => Raise (IndexError "index is out of bounds")
  end.

(** [J[a, j] = x] *)
Definition set2 (J : ndarray2) (a j : nat) (x : R) : outcome ndarray2 :=
  _ ← get2 J a j;
  Ok (alter (<[j := x]>) a J).

(** [J[a:a+3, j]] *)
Definition col3 (J : ndarray2) (a j : nat) : outcome vec3 :=
  x ← get2 J a j; y ← get2 J (a + 1) j; z ← get2 J (a + 2) j;
  Ok (x, y, z).

(** [J[a:a+3, j] = v] *)
Definition set_col3 (J : ndarray2) (a j : nat) (v : vec3) : outcome ndarray2 :=
  let '(x, y, z) := v in
  J ← set2 J a j x; J ← set2 J (a + 1) j y; set2 J (a + 2) j z.

Definition get3 (H : ndarray3) (a i j : nat) : outcome R :=
  match H !! a ≫= (λ p : list (list R), p !! i ≫= (λ row : list R, row !! j)) with
  | Some x => Ok x
  | None => Raise (IndexError "index is out of bounds")
  end.

Definition set3 (H : ndarray3) (a i j : nat) (x : R) : outcome ndarray3 :=
  _ ← get3 H a i j;
  Ok (alter (alter (<[j := x]>) i) a H).

(** [H[a:a+3, i, j]] *)
Definition fibre3 (H : ndarray3) (a i j : nat) : outcome vec3 :=
  x ← get3 H a i j; y ← get3 H (a + 1) i j; z ← get3 H (a + 2) i j;
  Ok (x, y, z).

(** [H[a:a+3, i, j] = v] *)
Definition set_fibre3 (H : ndarray3) (a i j : nat) (v : vec3)
  : outcome ndarray3 :=
  let '(x, y, z) := v in
  H ← set3 H a i j x; H ← set3 H (a + 1) i j y; set3 H (a + 2) i j z.

(** The columns [U[:3, c]] of a transform. *)
Definition mcol3 (U : M) (c : nat) : vec3 := (entry U 0 c, entry U 1 c, entry U 2 c).

Definition vscale (u : vec3) (x : R) : vec3 :=
  let '(a, b, c) := u in (rmul a x, rmul b x, rmul c x).
Definition vsub (u w : vec3) : vec3 :=
  let '(a, b, c) := u in let '(d, e, f) := w in (rsub a d, rsub b e, rsub c f).
Definition vzero : vec3 := (rzero, rzero, rzero).

(** The local [cross] of [hessian0]. *)
Definition cross (a b : vec3) : vec3 :=
  let '(a0, a1, a2) := a in
  let '(b0, b1, b2) := b in
  (rsub (rmul a1 b2) (rmul a2 b1),
   rsub (rmul a2 b0) (rmul a0 b2),
   rsub (rmul a0 b1) (rmul a1 b0)).

(** ** What the module imports

    The argument checkers of spatialmath, the [fknm] extension and
    [Robot.toradians]. *)

Inductive qinput :=
  | QNone
  | QVec (q : list R)
  | QMat (rows : list (list R)).

Class Imports := {
  (** [getvector(q, n)] *)
  getvector : qinput → nat → outcome (list R);
  (** [getmatrix(q, (None, n))] *)
  getmatrix : qinput → nat → outcome (list (list R));
  (** [verifymatrix(J, (a, b))] *)
  verifymatrix : ndarray2 → nat → nat → outcome unit;
  toradians : ERobot → list R → list R;
  fknm_fkine : nat → list ref → qinput → M → M → M;
  fknm_jacob0 : nat → nat → list ref → qinput → M → M → ndarray2;
}.

Context {I : Imports}.

(** ** Forward kinematics *)

(** [link.A(qk[link.jindex], fast=True)] *)
Definition link_A_at (h : heap) (link : ref) (qk : list R) : outcome (option M) :=
  x ← deref h link;
  a ← match jindex x with
      | Some j =>
          match qk !! j with
          | Some q => Ok (QElem q)
          | None => Raise (IndexError "index is out of bounds")
          end
      | None => Ok (QNewaxis qk)
      end;
  Ok (A x a).

(** [a @ Tk], where [Tk] may still be [None] *)
Definition matmul_onto (a : M) (Tk : option M) : outcome (option M) :=
  match Tk with
  | Some t => Ok (Some (matmul a t))
  | None => Raise (ValueError "matmul: operand has no dimensions")
  end.

(** The loop of [fkine] that adds the remaining links, back toward the
    base. *)
Fixpoint fkine_up (h : heap) (fuel : nat) (start : option ref) (link : ref)
    (qk : list R) (Tk : option M) : outcome (option M) :=
  match fuel with
  | 0 => Diverge
  | S fuel =>
      x ← deref h link;
      match _parent x with
      | PNone => Ok Tk
      | PName _ => Raise (AttributeError "A")
      | PLink p =>
          a ← link_A_at h p qk;
          Tk ← match a with
               | Some a => matmul_onto a Tk
               | None => Ok Tk
               end;
          if bool_decide (Some p = start) then Ok Tk
          else fkine_up h fuel start p qk Tk
      end
  end.

Definition base_A (self : ERobot) : M := SE3_A (default SE3_id (_base self)).

(** The body of the loop over the rows of [q]. *)
Definition fkine_row (h : heap) (self : ERobot) (unit_ : string)
    (e s : option ref) (tool : option M) (qk : list R) : outcome M :=
  let qk := if bool_decide (unit_ = "deg") then toradians self qk else qk in
  match e with
  | None => Raise (AttributeError "A")
  | Some link =>
      a ← link_A_at h link qk;
      let Tk := match a with
                | None => tool
                | Some a =>
                    match tool with
                    | None => Some a
                    | Some t => Some (matmul a t)
                    end
                end in
      Tk ← fkine_up h (length h) s link qk Tk;
      Tk ← (if bool_decide (is_Some (_base self))
               && bool_decide (s = _base_link self)
            then matmul_onto (base_A self) Tk
            else Ok Tk);
      Ok (default eye4 Tk)
  end.

Fixpoint for_rows {X Y} (f : X → outcome Y) (l : list X) : outcome (list Y) :=
  match l with
  | [] => Ok []
  | x :: l => y ← f x; ys ← for_rows f l; Ok (y :: ys)
  end.

(** What [fkine] returns: a 4x4 array from the extension, or the poses of
    an [SE3] instance. *)
Inductive fkine_result :=
  | FkArray (T : M)
  | FkPoses (Ts : list M).

Definition is_path_fknm (res : path_result) : outcome (list ref * nat * M) :=
  match res with
  | PathFknm p n t => Ok (p, n, t)
  | Path _ _ _ => Raise (TypeError "not a path of handles")
  end.

Definition is_path (res : path_result) : outcome (list ref * nat * SE3) :=
  match res with
  | Path p n t => Ok (p, n, t)
  | PathFknm _ _ _ => Raise (TypeError "not a path of links")
  end.

(** The tool [fkine] applies: the gripper's, the caller's, or the robot's. *)
Definition fkine_tool (self : ERobot) (etool tool : option SE3) : option M :=
  let tool :=
    match etool, tool with
    | Some et, Some t => Some (SE3_A (SE3_mul et t))
    | Some et, None => Some (SE3_A et)
    | None, Some t => Some (SE3_A t)
    | None, None => None
    end in
  match tool, _tool self with
  | None, Some t => Some (SE3_A t)
  | _, _ => tool
  end.

(** [fkine] *)
Definition fkine (h : heap) (q : qinput) (unit_ : string)
    (end_ start : linkarg) (tool : option SE3) (include_base fast : bool)
  : method ERobot fkine_result :=
  if fast then
    res ← get_path h end_ start true;
    '(path, _, etool) ← mlift (is_path_fknm res);
    self ← mget;
    let tool := match tool with None => eye4 | Some t => SE3_A t end in
    let T := fknm_fkine (length path) path q etool tool in
    mret (FkArray (if include_base then matmul (base_A self) T else T))
  else
    self ← mget;
    q ← mlift (getmatrix q (_n self));
    '(e, s, etool) ← _get_limit_links end_ start;
    self ← mget;
    let tool := fkine_tool self etool tool in
    Ts ← mlift (for_rows (fkine_row h self unit_ e s tool) q);
    mret (FkPoses Ts).

(** ** Jacobian *)

(** The columns a joint writes, by the axis of its variable. *)
Definition jacob0_columns (ax : string) (U Tu : M) : option (vec3 * vec3) :=
  let n := mcol3 U 0 in
  let o := mcol3 U 1 in
  let a := mcol3 U 2 in
  let x := entry Tu 0 3 in
  let y := entry Tu 1 3 in
  let z := entry Tu 2 3 in
  if bool_decide (ax = "Rz") then Some (vsub (vscale o x) (vscale n y), a)
  else if bool_decide (ax = "Ry") then Some (vsub (vscale n z) (vscale a x), o)
  else if bool_decide (ax = "Rx") then Some (vsub (vscale a y) (vscale o z), n)
  else if bool_decide (ax = "tx") then Some (n, vzero)
  else if bool_decide (ax = "ty") then Some (o, vzero)
  else if bool_decide (ax = "tz") then Some (a, vzero)
  else None.

(** The column of [U] a sliding joint along [ax] copies: [n], [o] or [a]. *)
Definition translational_axis (ax : string) : option nat :=
  if bool_decide (ax = "tx") then Some 0
  else if bool_decide (ax = "ty") then Some 1
  else if bool_decide (ax = "tz") then Some 2
  else None.

(** The representations [analytical] may name. *)
Definition representations : list string := ["rpy-xyz"; "rpy-zyx"; "eul"; "exp"].

(** [link == end], for [end] as the caller gave it *)
Definition arg_is_link (a : linkarg) (link : ref) : bool :=
  match a with
  | ArgLink l => bool_decide (l = link)
  | _ => false
  end.

(** The body of the loop over the path in [jacob0]; the state is [U], [j]
    and [J]. *)
Definition jacob0_step (h : heap) (q : list R) (end_ : linkarg) (tool : SE3)
    (T : M) (acc : outcome (M * nat * ndarray2)) (link : ref)
  : outcome (M * nat * ndarray2) :=
  '(U, j, J) ← acc;
  x ← deref h link;
  if isjoint x then
    a ← link_A_at h link q;
    U ← match a with
        | Some a => Ok (matmul U a)
        | None => Raise (ValueError "matmul: operand has no dimensions")
        end;
    let U := if arg_is_link end_ link
             then matmul U (SE3_A tool) else U in
    let Tu := matmul (inv U) T in
    et ← match v x with
         | Some et => Ok et
         | None => Raise (AttributeError "axis")
         end;
    J ← match jacob0_columns (axis et) U Tu with
        | Some (t, w) => J ← set_col3 J 0 j t; set_col3 J 3 j w
        | None => Ok J
        end;
    Ok (U, j + 1, J)
  else
    Ok (match A x QDefault with
        | Some a => matmul U a
        | None => U
        end, j, J).

(** The part of [jacob0] after the loop. The conversions of spatialmath it
    names are not imported by the module. *)
Definition jacob0_finish (J : ndarray2) (half analytical : option string)
  : outcome ndarray2 :=
  J ← match analytical with
      | Some an =>
          if bool_decide (half ≠ Some "trans") then
            if bool_decide (an = "rpy-xyz") then Raise (NameError "tr2rpy")
            else if bool_decide (an = "rpy-zyx") then Raise (NameError "tr2rpy")
            else if bool_decide (an = "eul") then Raise (NameError "tr2eul")
            else if bool_decide (an = "exp") then Raise (NameError "trlog")
            else Raise (ValueError "bad order specified")
          else Ok J
      | None => Ok J
      end;
  match half with
  | Some hf =>
      if bool_decide (hf = "trans") then Ok (take 3 J)
      else if bool_decide (hf = "rot") then Ok (drop 3 J)
      else Raise (ValueError "bad half specified")
  | None => Ok J
  end.

(** [jacob0] without the extension, up to the end of its loop. *)
Definition jacob0_loop (h : heap) (q : qinput) (end_ start : linkarg)
    (tool T : option SE3) : method ERobot ndarray2 :=
  let tool := default SE3_id tool in
  res ← get_path h end_ start false;
  '(path, n, _) ← mlift (is_path res);
  self ← mget;
  q ← mlift (getvector q (_n self));
  T ← match T with
      | Some T => mret T
      | None =>
          res ← fkine h (QVec q) "rad" end_ start None false false;
          match res with
          | FkPoses [Tk] => mret (SE3_mul (mkSE3 Tk) tool)
          | _ => mraise (TypeError "expecting one pose")
          end
      end;
  let T := SE3_A T in
  '(_, _, J) ← mlift (foldl (jacob0_step h q end_ tool T)
                        (Ok (eye4, 0, zeros2 6 n)) path);
  mret J.

(** [jacob0] *)
Definition jacob0 (h : heap) (q : qinput) (end_ start : linkarg)
    (tool T : option SE3) (half analytical : option string) (fast : bool)
  : method ERobot ndarray2 :=
  if fast then
    res ← get_path h end_ start true;
    '(path, n, etool) ← mlift (is_path_fknm res);
    let tool := match tool with None => eye4 | Some t => SE3_A t end in
    mret (fknm_jacob0 (length path) n path q etool tool)
  else
    J ← jacob0_loop h q end_ start tool T;
    mlift (jacob0_finish J half analytical).

(** ** Hessian *)

Definition arg_of (l : option ref) : linkarg :=
  match l with Some l => ArgLink l | None => ArgNone end.

(** The body of the inner loop of [hessian0]. *)
Definition hessian0_cell (J0 : ndarray2) (j : nat) (acc : outcome ndarray3)
    (i : nat) : outcome ndarray3 :=
  H ← acc;
  wj ← col3 J0 3 j;
  ti ← col3 J0 0 i;
  H ← set_fibre3 H 0 i j (cross wj ti);
  wi ← col3 J0 3 i;
  H ← set_fibre3 H 3 i j (cross wj wi);
  if bool_decide (i ≠ j) then
    t ← fibre3 H 0 i j;
    set_fibre3 H 0 j i t
  else Ok H.

Definition hessian0_loops (J0 : ndarray2) (n : nat) : outcome ndarray3 :=
  foldl (λ acc j, foldl (hessian0_cell J0 j) acc (seq j (n - j)))
        (Ok (zeros3 6 n n)) (seq 0 n).

(** What the loops of [hessian0] leave in [H], in terms of the columns of
    [J0]: [colv] reads a column without the bounds check. *)
Definition peek2 (J : ndarray2) (a j : nat) : R :=
  default rzero (J !! a ≫= (λ row : list R, row !! j)).
Definition colv (J : ndarray2) (a j : nat) : vec3 :=
  (peek2 J a j, peek2 J (a + 1) j, peek2 J (a + 2) j).

Definition hess_trans (J0 : ndarray2) (i j : nat) : vec3 :=
  cross (colv J0 3 (i `min` j)) (colv J0 0 (i `max` j)).
Definition hess_rot (J0 : ndarray2) (i j : nat) : vec3 :=
  cross (colv J0 3 j) (colv J0 3 i).

(** The cells [(i, j)], [j <= i], the loops have been through when the
    outer loop is at [J] and the inner one at [I]. *)
Definition hess_done (J I i j : nat) : Prop :=
  j ≤ i ∧ (j < J ∨ (j = J ∧ i < I)).

Definition hess_inv (J0 : ndarray2) (n J I : nat) (H : ndarray3) : Prop :=
  ∀ i j, i < n → j < n →
    fibre3 H 0 i j
      = Ok (if decide (hess_done J I (i `max` j) (i `min` j))
            then hess_trans J0 i j else vzero)
    ∧ fibre3 H 3 i j
      = Ok (if decide (hess_done J I i j) then hess_rot J0 i j else vzero).

(** [hessian0] *)
Definition hessian0 (h : heap) (q : qinput) (J0 : option ndarray2)
    (end_ start : linkarg) : method ERobot ndarray3 :=
  '(e, s, _) ← _get_limit_links end_ start;
  let end_ := arg_of e in
  let start := arg_of s in
  res ← get_path h end_ start false;
  '(_, n, _) ← mlift (is_path res);
  J0 ← match J0 with
       | None =>
           q ← mlift (getvector q n);
           jacob0 h (QVec q) end_ start None None None None false
       | Some J0 =>
           mlift (verifymatrix J0 6 n);;
           mret J0
       end;
  mlift (hessian0_loops J0 n).

(** ** Inverse dynamics *)

(** The spatial vector classes of spatialmath. *)
Class Spatial := {
  SVel : Type;
  SAcc : Type;
  SForce : Type;
  SMom : Type;
  SInertia : Type;
  SpatialVelocity : list R → SVel;
  SpatialAcceleration : list R → SAcc;
  SpatialForce_zero : SForce;
  SpatialInertia : R → list R → SInertia;
  acc_neg : SAcc → SAcc;
  vel_add : SVel → SVel → SVel;
  acc_add : SAcc → SAcc → SAcc;
  force_add : SForce → SForce → SForce;
  (** [X * v], [X * a], [X * f] for a transform [X] *)
  xvel : SE3 → SVel → SVel;
  xacc : SE3 → SAcc → SAcc;
  xforce : SE3 → SForce → SForce;
  (** [v @ w] *)
  vel_cross_vel : SVel → SVel → SAcc;
  vel_cross_mom : SVel → SMom → SForce;
  (** [I * a], [I * v] *)
  inertia_acc : SInertia → SAcc → SForce;
  inertia_vel : SInertia → SVel → SMom;
  (** [f.A] *)
  force_A : SForce → list R;
  SE3_inv : SE3 → SE3;
}.

Context {Sp : Spatial}.

(** [a[i]] on a sequence *)
Definition item {X} (a : list X) (i : nat) : outcome X :=
  match a !! i with
  | Some x => Ok x
  | None => Raise (IndexError "index out of range")
  end.

(** [a[i] = x] *)
Definition setitem {X} (a : list X) (i : nat) (x : X) : outcome (list X) :=
  _ ← item a i; Ok (<[i := x]> a).

(** [s * x] for an array [s] and a scalar [x] *)
Definition scale (sv : list R) (x : R) : list R := (λ y, rmul y x) <$> sv.

(** [np.sum(a * b)] *)
Definition sum_prod (a b : list R) : R :=
  foldl radd rzero (zip_with rmul a b).

(** [robot[j].parent.jindex], when the link has a parent *)
Definition parent_jindex (h : heap) (x : ELink) : outcome (option nat) :=
  match _parent x with
  | PNone => Ok None
  | PName _ => Raise (AttributeError "jindex")
  | PLink p =>
      y ← deref h p;
      match jindex y with
      | Some jp => Ok (Some jp)
      | None => Raise (TypeError "list indices must be integers")
      end
  end.

(** The loop that fills [I] and [s]. *)
Definition rne_setup (h : heap) (acc : outcome (list SInertia * list (option (list R))))
    (jl : nat * ref) : outcome (list SInertia * list (option (list R))) :=
  '(I, s) ← acc;
  x ← deref h jl.2;
  I ← setitem I jl.1 (SpatialInertia (ELink_m x) (ELink_r x));
  et ← match v x with
       | Some et => Ok et
       | None => Raise (AttributeError "s")
       end;
  s ← setitem s jl.1 (Some (ET_s et));
  Ok (I, s).

Definition subspace (s : list (option (list R))) (j : nat) : outcome (list R) :=
  sj ← item s j;
  match sj with
  | Some sj => Ok sj
  | None => Raise (TypeError "unsupported operand type")
  end.

Record rne_state := mkRne {
  Xup : list SE3;
  rv : list SVel;
  ra : list SAcc;
  rf : list SForce;
}.

(** The body of the forward recursion. *)
Definition rne_forward (h : heap) (robot : list ref) (q qd qdd : list R)
    (I : list SInertia) (s : list (option (list R))) (a_grav : SAcc)
    (acc : outcome rne_state) (j : nat) : outcome rne_state :=
  st ← acc;
  sj ← subspace s j;
  qdj ← item qd j;
  let vJ := SpatialVelocity (scale sj qdj) in
  l ← item robot j;
  x ← deref h l;
  qj ← item q j;
  let Xj := SE3_inv (mkSE3 (default eye4 (A x (QElem qj)))) in
  Xup' ← setitem (Xup st) j Xj;
  jp ← parent_jindex h x;
  '(vj, aj) ←
    match jp with
    | None =>
        qddj ← item qdd j;
        Ok (vJ, acc_add (xacc Xj a_grav) (SpatialAcceleration (scale sj qddj)))
    | Some jp =>
        vp ← item (rv st) jp;
        let vj := vel_add (xvel Xj vp) vJ in
        ap ← item (ra st) jp;
        qddj ← item qdd j;
        Ok (vj, acc_add (acc_add (xacc Xj ap)
                           (SpatialAcceleration (scale sj qddj)))
                  (vel_cross_vel vj vJ))
    end;
  v' ← setitem (rv st) j vj;
  a' ← setitem (ra st) j aj;
  Ij ← item I j;
  f' ← setitem (rf st) j
         (force_add (inertia_acc Ij aj) (vel_cross_mom vj (inertia_vel Ij vj)));
  Ok (mkRne Xup' v' a' f').

(** The body of the backward recursion; the state is [Q] and [f]. *)
Definition rne_backward (h : heap) (robot : list ref)
    (s : list (option (list R))) (Xup : list SE3)
    (acc : outcome (list R * list SForce)) (j : nat)
  : outcome (list R * list SForce) :=
  '(Q, f) ← acc;
  fj ← item f j;
  sj ← subspace s j;
  Q ← setitem Q j (sum_prod (force_A fj) sj);
  l ← item robot j;
  x ← deref h l;
  jp ← parent_jindex h x;
  match jp with
  | None => Ok (Q, f)
  | Some jp =>
      fp ← item f jp;
      Xj ← item Xup j;
      fj ← item f j;
      f ← setitem f jp (force_add fp (xforce Xj fj));
      Ok (Q, f)
  end.

(** [rne]. [robot.gravity] is an attribute the class [Robot] keeps; the
    array [Xtree] is filled and never read and is left out. *)
Definition rne (h : heap) (robot : ERobot) (robot_gravity : list R)
    (q qd qdd : list R) (gravity : option (list R)) : outcome (list R) :=
  let n := _n robot in
  '(I, s) ← foldl (rne_setup h)
              (Ok (replicate n (SpatialInertia rzero []), replicate n None))
              (imap (λ j l, (j, l)) (links robot));
  let a_grav := acc_neg (SpatialAcceleration (default robot_gravity gravity)) in
  st ← foldl (rne_forward h (links robot) q qd qdd I s a_grav)
         (Ok (mkRne (replicate n SE3_id)
                    (replicate n (SpatialVelocity []))
                    (replicate n (SpatialAcceleration []))
                    (replicate n SpatialForce_zero)))
         (seq 0 n);
  '(Q, _) ← foldl (rne_backward h (links robot) s (Xup st))
              (Ok (replicate n rzero, rf st)) (reverse (seq 0 n));
  Ok Q.

(** The index [rne] uses for the parent of [robot[j]], if it has one. *)
Definition parent_index (h : heap) (robot : list ref) (j : nat) : option nat :=
  match robot !! j ≫= (λ l, h !! l) with
  | Some x => match parent_jindex h x with Ok jp => jp | _ => None end
  | None => None
  end.

(** [acc + Xup[k] * f[k]] *)
Definition pass_up (Xup : list SE3) (f : list SForce) (acc : SForce) (k : nat)
  : SForce :=
  match Xup !! k, f !! k with
  | Some X, Some fk => force_add acc (xforce X fk)
  | _, _ => acc
  end.

(** The links whose parent has index [j], highest index first. *)
Definition children_desc (h : heap) (robot : list ref) (n j : nat) : list nat :=
  filter (λ k, parent_index h robot k = Some j) (reverse (seq 0 n)).

(** The state of the backward loop once the links [m], ..., [n - 1] are
    done: their entries of [Q] and [f] are final, and every [f[j]] holds
    what the done children of [j] passed up, highest index first. *)
Definition backward_inv (h : heap) (robot : list ref)
    (s : list (option (list R))) (Xup : list SE3) (f0 : list SForce)
    (n m : nat) (Q : list R) (f : list SForce) : Prop :=
  (∀ j, m ≤ j → j < n →
     ∃ fj sj, f !! j = Some fj ∧ subspace s j = Ok sj
              ∧ Q !! j = Some (sum_prod (force_A fj) sj))
  ∧ (∀ j f0j, f0 !! j = Some f0j →
       f !! j = Some (foldl (pass_up Xup f) f0j
                        (filter (λ k, parent_index h robot k = Some j)
                           (reverse (seq m (n - m))))))
  ∧ length f = length f0.

(** ** Vocabulary for further properties *)

(** The [_fknm] view of what [get_path] returns: the handles of the same
    links, the same joint count, and the array of the tool. *)
Definition as_fknm (o : outcome path_result) : outcome path_result :=
  match o with
  | Ok (Path p n t) => Ok (PathFknm p n (SE3_A t))
  | o => o
  end.

(** The two path caches hold the same entries, one with the tool as an
    [SE3] and one with its array. *)
Definition caches_agree (r : ERobot) : Prop :=
  ∀ s e,
    cache_lookup (_path_cache_fknm r) s e
    = (λ '(p, n, t), (p, n, SE3_A t)) <$> cache_lookup (_path_cache r) s e.

(** [end == gripper or end == gripper.name] *)
Definition names_gripper (a : linkarg) (g : Gripper) : bool :=
  match a with
  | ArgGripper i => bool_decide (i = g_id g)
  | ArgStr s => bool_decide (g_name g = Some s)
  | _ => false
  end.

(** Every child a link lists is a link object. *)
Definition heap_closed (h : heap) : Prop :=
  ∀ l x c, h !! l = Some x → c ∈ _children x → c < length h.

(** A visiting function that returns on every link object and neither
    adds nor drops link objects. *)
Definition func_total {S} (func : ref → heap * S → outcome (heap * S)) : Prop :=
  ∀ l hs, l < length hs.1 →
    ∃ hs', func l hs = Ok hs' ∧ length hs'.1 = length hs.1.

(** [h'] is [h] with the attribute [f] of every link as it was. *)
Definition keeps {X} (f : ELink → X) (h h' : heap) : Prop :=
  length h' = length h ∧ ∀ l, f <$> h' !! l = f <$> h !! l.

(** A loop body that passes an exception on. *)
Definition strict {A X} (f : outcome A → X → outcome A) : Prop :=
  (∀ e x, f (Raise e) x = Raise e) ∧ (∀ x, f Diverge x = Diverge).

(** [x1] is [x], possibly with a name where [x] had none. *)
Definition named_from (x x1 : ELink) : Prop :=
  x1 = x ∨ ∃ nm, name x = None ∧ x1 = set_name nm x.

(** What holds of the loop that registers the links once it has been
    through [pre]: the dictionary holds the names of exactly these links,
    the counter is the number of joints among them, and the link objects
    are as they were but for names given to the nameless. *)
Definition registered (h : heap) (pre : list ref)
    (st : heap * gmap string ref * nat * nat) : Prop :=
  let '(h1, d, n, _) := st in
  length h1 = length h
  ∧ NoDup pre
  ∧ (∀ l, l ∉ pre → h1 !! l = h !! l)
  ∧ (∀ l x, h !! l = Some x → ∃ x1, h1 !! l = Some x1 ∧ named_from x x1)
  ∧ (∀ l, l ∈ pre → ∃ nm, link_name h1 l = Some (Some nm))
  ∧ (∀ nm l, d !! nm = Some l ↔ l ∈ pre ∧ link_name h1 l = Some (Some nm))
  ∧ n = count_joints h pre.

(** One turn of the loop of [fkine] that adds the remaining links: the
    transform of [l] goes on the left of [Tk]. *)
Definition fkine_step (h : heap) (qk : list R) (acc : outcome (option M))
    (l : ref) : outcome (option M) :=
  Tk ← acc;
  a ← link_A_at h l qk;
  match a with
  | Some a => matmul_onto a Tk
  | None => Ok Tk
  end.

(** An array of [a] rows and [b] columns. *)
Definition shape2 (J : ndarray2) (a b : nat) : Prop :=
  length J = a ∧ Forall (λ row, length row = b) J.

(** An array of [a] planes of [b] rows and [c] columns. *)
Definition shape3 (H : ndarray3) (a b c : nat) : Prop :=
  length H = a ∧ Forall (λ plane, shape2 plane b c) H.

(** [Jv[a:a+3, b:b+3] = R] for a 3x3 array [R] given by its entries *)
Definition set_block3 (Jv : ndarray2) (a b : nat) (Rm : nat → nat → R)
  : outcome ndarray2 :=
  foldl (λ acc ij, Jv ← acc; set2 Jv (a + ij.1) (b + ij.2) (Rm ij.1 ij.2))
        (Ok Jv)
        [(0, 0); (0, 1); (0, 2); (1, 0); (1, 1); (1, 2); (2, 0); (2, 1); (2, 2)].

(** The 6x6 array with [R] in its two diagonal blocks. *)
Definition velocity_blocks (Rm : nat → nat → R) : outcome ndarray2 :=
  Jv ← set_block3 (zeros2 6 6) 0 0 Rm;
  set_block3 Jv 3 3 Rm.

(** The pose [T] of [jacobev] and [jacob0v] when none is passed:
    [self.base.inv() * self.fkine(q, end=end, start=start)], with [tool]
    on its right if given. A [q] of several rows gives several poses,
    whose rotations do not fit the 3x3 block. *)
Definition velocity_pose (h : heap) (q : qinput) (e s : option ref)
    (tool T : option SE3) : method ERobot SE3 :=
  match T with
  | Some T => mret T
  | None =>
      self ← mget;
      res ← fkine h q "rad" (arg_of e) (arg_of s) None true false;
      match res with
      | FkPoses [Tk] =>
          let T := SE3_mul (mkSE3 (inv (base_A self))) (mkSE3 Tk) in
          mret (match tool with Some t => SE3_mul T t | None => T end)
      | _ => mraise (ValueError "could not broadcast input array")
      end
  end.

(** [jacobev]: the rotation of [T], transposed, in both blocks. *)
Definition jacobev (h : heap) (q : qinput) (end_ start : linkarg)
    (tool T : option SE3) : method ERobot ndarray2 :=
  '(e, s, _) ← _get_limit_links end_ start;
  T ← velocity_pose h q e s tool T;
  mlift (velocity_blocks (λ i j, entry (SE3_A T) j i)).

(** [jacob0v]: the rotation of [T] in both blocks. *)
Definition jacob0v (h : heap) (q : qinput) (end_ start : linkarg)
    (tool T : option SE3) : method ERobot ndarray2 :=
  '(e, s, _) ← _get_limit_links end_ start;
  T ← velocity_pose h q e s tool T;
  mlift (velocity_blocks (λ i j, entry (SE3_A T) i j)).

(** The links [C] all have a parent among [C]: going up from one of them
    stays among them. *)
Definition parent_closed (h : heap) (C : list ref) : Prop :=
  ∀ l, l ∈ C →
    ∃ x p, h !! l = Some x ∧ _parent x = PLink p ∧ p ∈ C ∧ is_Some (h !! p).

#[global] Instance parent_ref_eq_dec : EqDecision parent_ref.
Proof. solve_decision. Defined.

(** [l], then the links [c], each the only child of the one before, the
    last without children. *)
Fixpoint is_chain (h : heap) (l : ref) (c : list ref) : Prop :=
  match c with
  | [] => children_of h l = []
  | b :: c => children_of h l = [b] ∧ is_chain h b c
  end.

End Model.

Abbreviation heap := (list ELink) (only parsing).
Abbreviation vec3 := (R * R * R)%type (only parsing).
Abbreviation ndarray2 := (list (list R)) (only parsing).
Abbreviation ndarray3 := (list (list (list R))) (only parsing).

(** * An exact instance: integer scalars and integer transforms *)

Module ZModel.

Definition zmat : Type := list (list Z).

Definition zentry (a : zmat) (i j : nat) : Z :=
  default 0%Z (a !! i ≫= λ row : list Z, row !! j).

Definition zeye : zmat :=
  [[1; 0; 0; 0]; [0; 1; 0; 0]; [0; 0; 1; 0]; [0; 0; 0; 1]]%Z.

Definition zmatmul (a b : zmat) : zmat :=
  (λ i, (λ j, foldr Z.add 0%Z
               ((λ k, (zentry a i k * zentry b k j)%Z) <$> seq 0 4))
        <$> seq 0 4) <$> seq 0 4.

(** The inverse of a rigid transform [[Rm t; 0 1]] is [[Rm' -Rm't; 0 1]]. *)
Definition zinv (a : zmat) : zmat :=
  let rt (i j : nat) : Z := zentry a j i in
  let t (i : nat) : Z :=
    Z.opp (Z.add (Z.add (Z.mul (rt i 0) (zentry a 0 3))
                        (Z.mul (rt i 1) (zentry a 1 3)))
                 (Z.mul (rt i 2) (zentry a 2 3))) in
  [[rt 0 0; rt 0 1; rt 0 2; t 0];
   [rt 1 0; rt 1 1; rt 1 2; t 1];
   [rt 2 0; rt 2 1; rt 2 2; t 2];
   [0%Z; 0%Z; 0%Z; 1%Z]].

#[export] Instance ZNumerics : Numerics := {|
  R := Z;
  rzero := 0%Z;
  radd := Z.add;
  rsub := Z.sub;
  rmul := Z.mul;
  M := zmat;
  eye4 := zeye;
  matmul := zmatmul;
  inv := zinv;
  entry := zentry;
|}.

(** The argument checkers on exact arrays. *)
Definition zgetvector (q : qinput) (n : nat) : outcome (list Z) :=
  match q with
  | QVec v =>
      if bool_decide (length v = n) then Ok v
      else Raise (ValueError "incorrect vector length")
  | QMat [v] =>
      if bool_decide (length v = n) then Ok v
      else Raise (ValueError "incorrect vector length")
  | _ => Raise (ValueError "invalid input type")
  end.

Fixpoint chunks (fuel n : nat) (v : list Z) : list (list Z) :=
  match fuel, v with
  | S fuel, _ :: _ => take n v :: chunks fuel n (drop n v)
  | _, _ => []
  end.

Definition zgetmatrix (q : qinput) (n : nat) : outcome (list (list Z)) :=
  match q with
  | QMat rows =>
      if forallb (λ row, bool_decide (length row = n)) rows then Ok rows
      else Raise (ValueError "expecting another shape")
  | QVec v =>
      if bool_decide (n ≠ 0 ∧ length v `mod` n = 0)
      then Ok (chunks (length v) n v)
      else Raise (ValueError "cannot reshape array")
  | QNone => Raise (TypeError "argument must be scalar or ndarray")
  end.

Definition zverifymatrix (J : list (list Z)) (a b : nat) : outcome unit :=
  if bool_decide (length J = a)
     && forallb (λ row, bool_decide (length row = b)) J
  then Ok tt
  else Raise (ValueError "input must be a numPy ndarray of given shape").

(** Angles are not converted and the extension is absent in this
    instance. *)
#[export] Instance ZImports : Imports := {|
  getvector := zgetvector;
  getmatrix := zgetmatrix;
  verifymatrix := zverifymatrix;
  toradians := λ _ q, q;
  fknm_fkine := λ _ _ _ _ _, zeye;
  fknm_jacob0 := λ _ n _ _ _ _, zeros2 6 n;
|}.

(** Spatial vectors with all frames aligned: six integers, added and
    scaled componentwise, left as they are by a transform. *)
Definition zadd6 (a b : list Z) : list Z := zip_with Z.add a b.

#[export] Instance ZSpatial : Spatial := {|
  SVel := list Z;
  SAcc := list Z;
  SForce := list Z;
  SMom := list Z;
  SInertia := Z;
  SpatialVelocity := λ a, a;
  SpatialAcceleration := λ a, a;
  SpatialForce_zero := replicate 6 0%Z;
  SpatialInertia := λ m _, m;
  acc_neg := fmap Z.opp;
  vel_add := zadd6;
  acc_add := zadd6;
  force_add := zadd6;
  xvel := λ _ a, a;
  xacc := λ _ a, a;
  xforce := λ _ a, a;
  vel_cross_vel := λ _ _, replicate 6 0%Z;
  vel_cross_mom := λ _ _, replicate 6 0%Z;
  inertia_acc := λ m a, Z.mul m <$> a;
  inertia_vel := λ m a, Z.mul m <$> a;
  force_A := λ f, f;
  SE3_inv := λ X, mkSE3 (zinv (SE3_A X));
|}.

Definition trans (x y z : Z) : zmat :=
  [[1; 0; 0; x]; [0; 1; 0; y]; [0; 0; 1; z]; [0; 0; 0; 1]]%Z.

(** A prismatic joint along [ax]. *)
Definition prismatic (ax : string) (q : qarg) : option zmat :=
  match q with
  | QElem q =>
      Some (if bool_decide (ax = "tx") then trans q 0 0
            else if bool_decide (ax = "ty") then trans 0 q 0
            else trans 0 0 q)
  | _ => None
  end.

(** A quarter turn about z for every unit of the joint variable. *)
Definition quarter_turns (q : qarg) : option zmat :=
  match q with
  | QElem q =>
      Some (match (q `mod` 4)%Z with
            | 0 => zeye
            | 1 => [[0; -1; 0; 0]; [1; 0; 0; 0]; [0; 0; 1; 0]; [0; 0; 0; 1]]
            | 2 => [[-1; 0; 0; 0]; [0; -1; 0; 0]; [0; 0; 1; 0]; [0; 0; 0; 1]]
            | _ => [[0; 1; 0; 0]; [-1; 0; 0; 0]; [0; 0; 1; 0]; [0; 0; 0; 1]]
            end%Z)
  | _ => None
  end.

Definition unit_s (k : nat) : list Z := <[k := 1%Z]> (replicate 6 0%Z).

Definition joint (nm : option string) (p : parent_ref) (j : option nat)
    (ax : string) (k : nat) (mass : Z) : ELink :=
  mkELink nm p [] j true (Some (mkET ax (unit_s k)))
    (if bool_decide (ax = "Rz") then quarter_turns else prismatic ax)
    mass [0; 0; 0]%Z.

Definition fixed (nm : option string) (p : parent_ref) (j : option nat)
    (a : option zmat) : ELink :=
  mkELink nm p [] j false None (λ _, a) 0%Z [0; 0; 0]%Z.

(** The branched robot of the module's own example, with sliding joints:
    two arms on a common first link. *)
Definition branched_links : heap :=
  [ joint (Some "link1") PNone None "tx" 0 1;
    joint (Some "link2") (PName "link1") None "ty" 1 1;
    fixed (Some "ee_1") (PName "link2") None (Some (trans 1 0 0));
    joint (Some "link3") (PName "link1") None "tz" 2 1;
    fixed (Some "ee_2") (PName "link3") None (Some (trans 1 0 0)) ].

Definition branched : outcome (heap * ERobot) :=
  ERobot_init branched_links [0; 1; 2; 3; 4] GNone true None None.

(** A serial chain given without parents and without names. *)
Definition serial_links : heap :=
  [ joint None PNone None "tx" 0 2;
    joint None PNone None "Rz" 5 3;
    fixed None PNone None (Some (trans 1 0 0)) ].

Definition serial : outcome (heap * ERobot) :=
  ERobot_init serial_links [0; 1; 2] GNone true None None.

(** The same chain with a gripper on its last link. *)
Definition gripped_links : heap :=
  [ joint (Some "a") PNone None "tx" 0 2;
    joint (Some "b") (PName "a") None "ty" 1 3;
    fixed (Some "hand") (PName "b") None None;
    joint (Some "finger") (PName "hand") None "tz" 2 1 ].

Definition gripped : outcome (heap * ERobot) :=
  ERobot_init gripped_links [0; 1; 2; 3] (GLink 2) true None None.

(** Joint indices given by the caller. *)
Definition indexed_links (j0 j1 : option nat) : heap :=
  [ joint (Some "a") PNone j0 "tx" 0 2;
    joint (Some "b") (PName "a") j1 "ty" 1 3 ].

Definition indexed (j0 j1 : option nat) (checkjindex : bool)
  : outcome (heap * ERobot) :=
  ERobot_init (indexed_links j0 j1) [0; 1] GNone checkjindex None None.

(** Sample forces, subspace vectors and transforms for the backward pass. *)
Definition sample_Q0 : list R := [0; 0]%Z.
Definition sample_f0 : list SForce := [[1; 0; 0; 0; 0; 0]; [2; 3; 0; 0; 0; 0]]%Z.
Definition sample_s : list (option (list R)) := [Some (unit_s 0); Some (unit_s 1)].
Definition sample_Xup : list SE3 := [SE3_id; SE3_id].

(** Sample configurations. *)
Definition zvec (q : list Z) : qinput := QVec q.
Definition zstack (Q : list (list Z)) : qinput := QMat Q.

(** A Jacobian of two joints that turn about z and about y. *)
Definition two_turns : list (list Z) :=
  [[1; 0]; [0; 1]; [0; 0]; [0; 0]; [0; 1]; [1; 0]]%Z.

(** The links and the robot a successful construction leaves. *)
(** The link objects as the first half of the constructor leaves them,
    with parents resolved and child lists filled. *)
Definition linked (h : heap) (links : list ref) : heap :=
  match link_tree h links GNone with
  | Ok (h', _, _, _, _, _, _) => h'
  | _ => []
  end.

Definition built (o : outcome (heap * ERobot)) : heap * ERobot :=
  match o with
  | Ok x => x
  | _ => ([], mkERobot [] ∅ 0 [] None [] 0 None None ∅ ∅ None None None)
  end.

(** The link objects and the robot of the branched example once built,
    and the link objects of the two-joint chain without given indices. *)
Definition hb : heap := (built branched).1.
Definition rb : ERobot := (built branched).2.
Definition ht : heap := (built (indexed None None true)).1.

(** Two links under one name. *)
Definition twins_links : heap :=
  [ joint (Some "a") PNone None "tx" 0 1;
    joint (Some "a") PNone None "ty" 1 1 ].

(** The link objects and the robots of the other examples once built. *)
Definition hg : heap := (built gripped).1.
Definition rg : ERobot := (built gripped).2.
Definition hs : heap := (built serial).1.
Definition rs : ERobot := (built serial).2.

(** A quarter turn about z. *)
Definition quarter_turn : zmat :=
  [[0; -1; 0; 0]; [1; 0; 0; 0]; [0; 0; 1; 0]; [0; 0; 0; 1]]%Z.
Definition quarter_pose : SE3 := mkSE3 (quarter_turn : M).

(** Two joints that name each other as parent, beside a base link. *)
Definition looped_links : heap :=
  [ fixed (Some "root") PNone None None;
    joint (Some "a") (PName "b") None "tx" 0 1;
    joint (Some "b") (PName "a") None "ty" 1 1 ].

Definition looped : outcome (heap * ERobot) :=
  ERobot_init looped_links [0; 1; 2] GNone true None None.

Definition hl : heap := (built looped).1.
Definition rl : ERobot := (built looped).2.

End ZModel.

(** * Properties *)

Ltac munfold :=
  unfold mbind, method_bind, mthen, mret, method_ret, mpure, mget, mset,
    mlift, mraise, outcome_bind, outcome_ret, obind in *.

Section PathProperties.
Context {N : Numerics}.

Lemma obind_Ok {A B} (m : outcome A) (k : A → outcome B) b :
  obind m k = Ok b → ∃ a, m = Ok a ∧ k a = Ok b.
Proof. destruct m; simpl; intros; try discriminate; eauto. Qed.


Lemma count_joints_app h p q :
  count_joints h (p ++ q) = count_joints h p + count_joints h q.
Proof. induction p as [|x p IH]; simpl; [done | rewrite IH; lia]. Qed.

Lemma count_joints_reverse h p : count_joints h (reverse p) = count_joints h p.
Proof.
  induction p as [|x p IH]; [done|].
  rewrite reverse_cons, count_joints_app, IH. simpl. lia.
Qed.

(** *** Paths are determined by their end points *)

Lemma descends_last h s l p : descends h s l p → last p = Some l.
Proof. inversion 1; subst; [done | apply last_snoc]. Qed.

Lemma descends_head h s l p : descends h s l p → head p = Some s.
Proof.
  induction 1 as [|l p path _ _ _ IH]; [done|].
  destruct path; [discriminate | done].
Qed.

Lemma descends_valid h s l p : descends h s l p → is_Some (h !! l).
Proof.
  inversion 1 as [|l' p' path _ Hp _]; subst; [done|].
  unfold parent_of in Hp. destruct (h !! l); [eauto | discriminate].
Qed.

Lemma descends_det h s l p1 p2 :
  descends h s l p1 → descends h s l p2 → p1 = p2.
Proof.
  intros H1. revert p2.
  induction H1 as [|l p path Hne Hp _ IH]; intros p2 H2.
  - inversion H2; subst; [done | congruence].
  - inversion H2 as [|l' p' path' _ Hp' H2']; subst; [congruence|].
    assert (p' = p) as -> by congruence.
    by rewrite (IH _ H2').
Qed.

Lemma descends_elem h s l p x :
  descends h s l p → x ∈ p →
  ∃ q, descends h s x q ∧ length q ≤ length p ∧ (x ≠ l → length q < length p).
Proof.
  induction 1 as [Hs|l p path Hne Hp Hd IH]; intros Hx.
  - apply list_elem_of_singleton in Hx as ->.
    exists [s]. split; [by constructor | simpl; split; [lia | done]].
  - apply elem_of_app in Hx as [Hx|Hx].
    + destruct (IH Hx) as (q & Hq & Hle & _).
      exists q. rewrite length_app. simpl. split; [done | split; lia].
    + apply list_elem_of_singleton in Hx as ->.
      exists (path ++ [l]). split; [by econstructor | split; [lia | done]].
Qed.

Lemma descends_NoDup h s l p : descends h s l p → NoDup p.
Proof.
  induction 1 as [Hs|l p path Hne Hp Hd IH].
  - apply NoDup_singleton.
  - apply NoDup_app. split; [done|]. split; [|apply NoDup_singleton].
    intros x Hx Hxl. apply list_elem_of_singleton in Hxl as ->.
    destruct (descends_elem _ _ _ _ _ Hd Hx) as (q & Hq & Hle & _).
    assert (q = path ++ [l]) as -> by (eapply descends_det; [done | by econstructor]).
    rewrite length_app in Hle. simpl in Hle. lia.
Qed.

Lemma descends_bound h s l p x : descends h s l p → x ∈ p → x < length h.
Proof.
  intros Hd Hx. destruct (descends_elem _ _ _ _ _ Hd Hx) as (q & Hq & _).
  apply descends_valid in Hq. by apply lookup_lt_is_Some.
Qed.

Lemma NoDup_bounded_length (l : list nat) n :
  NoDup l → (∀ x, x ∈ l → x < n) → length l ≤ n.
Proof.
  intros Hnd Hb.
  assert (l ⊆+ seq 0 n) as Hsub.
  { apply NoDup_submseteq; [done|]. intros x Hx. apply elem_of_seq.
    specialize (Hb x Hx). lia. }
  apply submseteq_length in Hsub. by rewrite length_seq in Hsub.
Qed.

Lemma descends_length h s l p : descends h s l p → length p ≤ length h.
Proof.
  intros Hd. apply NoDup_bounded_length; [by eapply descends_NoDup|].
  intros x. by eapply descends_bound.
Qed.

Lemma ancestry_det h l c1 c2 : ancestry h l c1 → ancestry h l c2 → c1 = c2.
Proof.
  intros H1. revert c2.
  induction H1 as [l Hp|l p c Hp _ IH]; intros c2 H2.
  - inversion H2; subst; [done | congruence].
  - inversion H2 as [|l' p' c' Hp' H2']; subst; [congruence|].
    assert (p' = p) as -> by congruence.
    by rewrite (IH _ H2').
Qed.

Lemma ancestry_elem h l c x :
  ancestry h l c → x ∈ c → ∃ d, ancestry h x d ∧ length d ≤ length c ∧
                                 (x ≠ l → length d < length c).
Proof.
  induction 1 as [l Hp|l p c Hp Ha IH]; intros Hx.
  - apply list_elem_of_singleton in Hx as ->.
    exists [l]. split; [by constructor | split; [done | done]].
  - destruct (decide (x = l)) as [->|Hne].
    + exists (l :: c). split; [by econstructor | split; [done | done]].
    + apply elem_of_cons in Hx as [?|Hx]; [done|].
      destruct (IH Hx) as (d & Hd & Hle & _).
      exists d. simpl. split; [done | split; lia].
Qed.

Lemma ancestry_NoDup h l c : ancestry h l c → NoDup c.
Proof.
  induction 1 as [l Hp|l p c Hp Ha IH].
  - apply NoDup_singleton.
  - apply NoDup_cons. split; [|done]. intros Hx.
    destruct (ancestry_elem _ _ _ _ Ha Hx) as (d & Hd & Hle & _).
    assert (d = l :: c) as -> by (eapply ancestry_det; [done | by econstructor]).
    simpl in Hle. lia.
Qed.

Lemma ancestry_valid h l c : ancestry h l c → is_Some (h !! l).
Proof.
  inversion 1 as [l' Hp|l' p c' Hp _]; subst; unfold parent_of in Hp;
    destruct (h !! l); eauto; discriminate.
Qed.

Lemma ancestry_length h l c : ancestry h l c → length c ≤ length h.
Proof.
  intros Ha. apply NoDup_bounded_length; [by eapply ancestry_NoDup|].
  intros x Hx. destruct (ancestry_elem _ _ _ _ Ha Hx) as (d & Hd & _).
  apply ancestry_valid in Hd. by apply lookup_lt_is_Some.
Qed.

(** A path from [s] to [l] puts [s] among the ancestors of [l]. *)
Lemma descends_ancestry h s l p c :
  descends h s l p → ancestry h l c → s ∈ c.
Proof.
  intros Hd. revert c.
  induction Hd as [Hs|l p path Hne Hp Hd IH]; intros c Ha.
  - inversion Ha; subst; apply elem_of_cons; by left.
  - inversion Ha as [|l' p' c' Hp' Ha']; subst; [congruence|].
    assert (p' = p) as -> by congruence.
    apply elem_of_cons. right. by apply IH.
Qed.

(** *** The parent walk *)

Lemma walk_up_found h s l q :
  descends h s l q →
  ∀ fuel sl el path n,
    length q ≤ S fuel →
    walk_up h fuel sl el s l path n
    = Ok (path ++ tail (reverse q), n + count_joints h (tail (reverse q))).
Proof.
  induction 1 as [Hs|l p q Hne Hp Hd IH]; intros fuel sl el path n Hfuel.
  - destruct fuel; simpl; rewrite bool_decide_true by done;
      rewrite app_nil_r, Nat.add_0_r; done.
  - rewrite length_app in Hfuel. simpl in Hfuel.
    pose proof (descends_last _ _ _ _ Hd) as Hlast.
    destruct fuel as [|fuel].
    { destruct q; [discriminate | simpl in Hfuel; lia]. }
    simpl. rewrite bool_decide_false by done.
    unfold parent_of in Hp. unfold deref.
    destruct (h !! l) as [x|] eqn:Hl; [|discriminate].
    simpl in Hp. injection Hp as Hp. simpl. rewrite Hp.
    destruct (descends_valid _ _ _ _ Hd) as [y Hy]. rewrite Hy. simpl.
    rewrite IH by lia.
    rewrite reverse_snoc. simpl.
    assert (reverse q = p :: tail (reverse q)) as Hrev.
    { rewrite <- head_reverse in Hlast.
      destruct (reverse q); [discriminate|]. simpl in *. congruence. }
    rewrite Hrev at 3 4. simpl. rewrite <- app_assoc. simpl.
    unfold link_isjoint. rewrite Hy. simpl.
    destruct (isjoint y); f_equal; f_equal; lia.
Qed.

Lemma walk_up_lost h s l c :
  ancestry h l c → s ∉ c →
  ∀ fuel sl el path n,
    length c ≤ fuel →
    walk_up h fuel sl el s l path n
    = Raise (ValueError ("cannot find path from " +:+ str_of_name (name sl)
                         +:+ " to " +:+ str_of_name (name el))).
Proof.
  induction 1 as [l Hp|l p c Hp Ha IH]; intros Hs fuel sl el path n Hfuel;
    simpl in Hfuel; (destruct fuel as [|fuel]; [lia|]);
    simpl; (rewrite bool_decide_false by (intros ->; apply Hs, elem_of_cons; by left));
    unfold parent_of in Hp; unfold deref;
    (destruct (h !! l) as [x|] eqn:Hl; [|discriminate]);
    simpl in Hp; injection Hp as Hp; simpl; rewrite Hp.
  - done.
  - destruct (ancestry_valid _ _ _ Ha) as [y Hy]. rewrite Hy. simpl.
    apply IH; [|lia]. intros Hin. apply Hs, elem_of_cons. by right.
Qed.

(** *** What [_get_limit_links] can return *)

Lemma elem_of_known_links r l :
  l ∈ known_links r ↔
    l ∈ links r ∨ (∃ g, g ∈ grippers r ∧ l ∈ g_links g)
    ∨ (∃ k, _linkdict r !! k = Some l) ∨ Some l ∈ _ee_links r
    ∨ _base_link r = Some l.
Proof.
  unfold known_links. rewrite !elem_of_app, list_elem_of_join,
    list_elem_of_fmap, list_elem_of_omap.
  split.
  - intros [?|[(ls & Hl & Hls)|[((k & l') & -> & Hk)|[(o & Ho & Hid)|Hb]]]];
      eauto 10.
    + apply list_elem_of_fmap in Hls as (g & -> & Hg). eauto 10.
    + apply elem_of_map_to_list in Hk. eauto 10.
    + simpl in Hid. subst o. eauto 10.
    + destruct (_base_link r); simpl in Hb;
        [apply list_elem_of_singleton in Hb as ->; eauto 10 | by apply elem_of_nil in Hb].
  - intros [?|[(g & Hg & Hl)|[(k & Hk)|[?|Hb]]]]; eauto 10.
    + right. left. exists (g_links g). split; [done|].
      apply list_elem_of_fmap. eauto.
    + right. right. left. exists (k, l). split; [done|].
      by apply elem_of_map_to_list.
    + do 4 right. rewrite Hb. simpl. by apply list_elem_of_singleton.
Qed.

Lemma getlink_known r a d l : _getlink r a d = Ok l → l ∈ known_links r.
Proof.
  unfold _getlink. intros H. apply elem_of_known_links.
  destruct (match a with ArgNone => d | _ => a end) as [|k|l'|g];
    try discriminate.
  - destruct (_linkdict r !! k) eqn:Hk; [|discriminate].
    injection H as ->. eauto 10.
  - case_bool_decide as Hin; [injection H as ->; eauto|].
    destruct (existsb _ _) eqn:Hex; [|discriminate]. injection H as ->.
    apply existsb_exists in Hex as (g & Hg & Hl).
    apply bool_decide_eq_true in Hl. apply list_elem_of_In in Hg. eauto 10.
Qed.

Lemma same_tree_refl r : same_tree r r.
Proof. by repeat split. Qed.

Lemma same_tree_wf h r r' : same_tree r r' → robot_wf h r → robot_wf h r'.
Proof.
  intros (Hk & Hc & _) [Hn Hs]. split.
  - unfold names_unique. by rewrite Hk.
  - unfold cache_sound. rewrite Hk, Hc. done.
Qed.

Lemma get_limit_links_frame end_ start r o r' :
  _get_limit_links end_ start r = (o, r') → same_tree r r'.
Proof.
  unfold _get_limit_links. munfold. intros H.
  repeat (case_match; simplify_eq/=); try apply same_tree_refl; by repeat split.
Qed.

Lemma get_limit_links_known end_ start r e s t r' :
  _get_limit_links end_ start r = (Ok (Some e, s, t), r') →
  e ∈ known_links r ∧ start_resolves r start s
  ∧ (∀ l, s = Some l → l ∈ known_links r).
Proof.
  unfold _get_limit_links. munfold. intros H.
  assert (∀ l, start_resolves r start (Some l) → l ∈ known_links r) as Hst.
  { intros l. destruct start; simpl.
    - intros Hb. apply elem_of_known_links. eauto 10.
    - intros (l' & Hg & [= ->]). by eapply getlink_known.
    - intros (l' & Hg & [= ->]). by eapply getlink_known.
    - intros (l' & Hg & [= ->]). by eapply getlink_known. }
  assert (e ∈ known_links r ∧ start_resolves r start s) as [He Hs];
    [|split; [done | split; [done | by intros l ->; apply Hst]]].
  repeat (case_match; simplify_eq/=).
  all: split; [|unfold start_resolves; by eauto].
  all: try by eapply getlink_known.
  all: apply elem_of_known_links.
  all: first
    [ do 3 right; left;
      match goal with H : _ee_links _ = _ |- _ => rewrite H end;
      apply list_elem_of_here
    | right; left;
      match goal with H : grippers _ = _ |- _ => rewrite H end;
      eexists; split; [apply list_elem_of_here|];
      match goal with H : g_links _ = _ |- _ => rewrite H end;
      apply list_elem_of_here ].
Qed.

(** *** The cache *)

Lemma cache_lookup_row {V} (c : gmap (option string) (gmap (option string) V))
    s s' e' :
  cache_lookup (cache_row s (bool_decide (is_Some (c !! s))) c) s' e'
  = cache_lookup c s' e'.
Proof.
  unfold cache_row, cache_lookup. case_bool_decide as Hs; [done|].
  destruct (decide (s = s')) as [->|Hne].
  - rewrite lookup_insert_eq. simpl. rewrite lookup_empty.
    destruct (c !! s') eqn:Hc; [|done]. exfalso. apply Hs. eauto.
  - by rewrite lookup_insert_ne.
Qed.

Lemma cache_lookup_store {V} (c : gmap (option string) (gmap (option string) V))
    s e x s' e' :
  cache_lookup (cache_store c s e x) s' e'
  = if decide (s = s' ∧ e = e') then Some x else cache_lookup c s' e'.
Proof.
  unfold cache_store, cache_lookup.
  destruct (decide (s = s')) as [->|Hne].
  - rewrite lookup_insert_eq. simpl.
    destruct (decide (e = e')) as [->|Hne].
    + rewrite lookup_insert_eq. by rewrite decide_True.
    + rewrite lookup_insert_ne by done. rewrite decide_False by (intros [_ ?]; done).
      destruct (c !! s'); [done|]. simpl. by rewrite lookup_empty.
  - rewrite lookup_insert_ne by done. by rewrite decide_False by (intros [? _]; done).
Qed.

Lemma names_unique_inj h r a b :
  names_unique h r → a ∈ known_links r → b ∈ known_links r →
  link_name h a = link_name h b → a = b.
Proof.
  unfold names_unique. rewrite Forall_forall. intros H Ha Hb.
  specialize (H a Ha). rewrite Forall_forall in H. by apply H.
Qed.

(** The state after a cache miss that found [path]. *)
Lemma cache_sound_store h r r2 sl el s e path n t :
  robot_wf h r →
  h !! s = Some sl → h !! e = Some el →
  s ∈ known_links r → e ∈ known_links r →
  descends h s e path → n = count_joints h path →
  known_links r2 = known_links r →
  _path_cache r2 =
    cache_store
      (cache_row (name sl) (bool_decide (is_Some (_path_cache r !! name sl)))
         (_path_cache r))
      (name sl) (name el) (path, n, t) →
  robot_wf h r2.
Proof.
  intros [Hn Hc] Hs He Hks Hke Hd Hcount Hk2 Hc2. split.
  { unfold names_unique. by rewrite Hk2. }
  intros s' e' p' n' t'. rewrite Hk2, Hc2. intros Hks' Hke'.
  destruct (link_name h s') as [sn|] eqn:Hsn; [|done]. simpl.
  destruct (link_name h e') as [en|] eqn:Hen; [|done]. simpl.
  rewrite cache_lookup_store, cache_lookup_row.
  case_decide as Heq.
  - destruct Heq as [<- <-]. intros [= <- <- <-].
    assert (s' = s) as ->.
    { eapply names_unique_inj; eauto. unfold link_name in *. by rewrite Hs. }
    assert (e' = e) as ->.
    { eapply names_unique_inj; eauto. unfold link_name in *. by rewrite He. }
    done.
  - intros Hl. apply (Hc s' e' p' n' t' Hks' Hke').
    by rewrite Hsn, Hen.
Qed.

End PathProperties.
Section PathClaims.
Context {N : Numerics}.

(** C1 (as the code has it): when [end] descends from [start], [get_path]
    returns the links from [start] down to [end] with both ends included,
    so the first element is [start] itself and the last is [end], and the
    joint count is the number of joint links on that list. *)
Theorem get_path_inclusive h r end_ start e s tool r1 p :
  robot_wf h r →
  _get_limit_links end_ start r = (Ok (Some e, Some s, tool), r1) →
  descends h s e p →
  ∃ t r2,
    get_path h end_ start false r = (Ok (Path p (count_joints h p) t), r2)
    ∧ head p = Some s ∧ last p = Some e ∧ robot_wf h r2.
Proof.
  intros Hwf Hlim Hd.
  pose proof (get_limit_links_frame _ _ _ _ _ Hlim) as Hframe.
  pose proof (same_tree_wf _ _ _ Hframe Hwf) as Hwf1.
  destruct (get_limit_links_known _ _ _ _ _ _ _ Hlim) as (Hke & _ & Hks).
  specialize (Hks s eq_refl).
  destruct Hframe as (Hk & _).
  rewrite <- Hk in Hke, Hks.
  pose proof (descends_head _ _ _ _ Hd) as Hhead.
  pose proof (descends_last _ _ _ _ Hd) as Hlast.
  destruct (descends_valid _ _ _ _ Hd) as [el He].
  assert (is_Some (h !! s)) as [sl Hs].
  { apply lookup_lt_is_Some. eapply descends_bound; [done|].
    by eapply head_Some_elem_of. }
  unfold get_path. munfold. rewrite Hlim. unfold deref. rewrite Hs, He.
  destruct (cache_lookup (_path_cache r1) (name sl) (name el))
    as [[[p' n'] t']|] eqn:Hcache; simpl.
  - destruct Hwf1 as [Hn Hc].
    destruct (Hc s e p' n' t' Hks Hke) as [Hd' ->].
    { unfold link_name. by rewrite Hs, He. }
    rewrite (descends_det _ _ _ _ _ Hd' Hd).
    exists t', r1. split; [done|]. split; [done|]. split; [done|]. by split.
  - pose proof (descends_length _ _ _ _ Hd) as Hlen.
    rewrite (walk_up_found _ _ _ _ Hd) by lia. simpl.
    assert (reverse p = e :: tail (reverse p)) as Hrev.
    { rewrite <- head_reverse in Hlast.
      destruct (reverse p); [discriminate|]. simpl in *. congruence. }
    assert (reverse (e :: tail (reverse p)) = p) as Hpath.
    { by rewrite <- Hrev, reverse_involutive. }
    assert ((if isjoint el then 1 else 0) + count_joints h (tail (reverse p))
            = count_joints h p) as Hcount.
    { rewrite <- (count_joints_reverse h p). rewrite Hrev at 2. simpl.
      unfold link_isjoint. by rewrite He. }
    rewrite Hpath, Hcount.
    eexists _, _. split; [reflexivity|]. split; [done|]. split; [done|].
    by eapply (cache_sound_store h r1 _ sl el s e p (count_joints h p)
                 (default SE3_id tool)).
Qed.

(** C3: when the ancestors of [end], up to the root of its tree, do not
    include [start], [get_path] raises the path-not-found [ValueError]. *)
Theorem get_path_not_found h r end_ start e s tool r1 sn en c :
  robot_wf h r →
  _get_limit_links end_ start r = (Ok (Some e, Some s, tool), r1) →
  link_name h s = Some sn → link_name h e = Some en →
  ancestry h e c → s ∉ c →
  ∃ r2,
    get_path h end_ start false r
    = (Raise (ValueError ("cannot find path from " +:+ str_of_name sn
                          +:+ " to " +:+ str_of_name en)), r2).
Proof.
  intros Hwf Hlim Hsn Hen Ha Hnot.
  unfold link_name in Hsn, Hen.
  destruct (h !! s) as [sl|] eqn:Hs; [|discriminate].
  destruct (h !! e) as [el|] eqn:He; [|discriminate].
  injection Hsn as <-. injection Hen as <-.
  pose proof (get_limit_links_frame _ _ _ _ _ Hlim) as Hframe.
  pose proof (same_tree_wf _ _ _ Hframe Hwf) as Hwf1.
  destruct (get_limit_links_known _ _ _ _ _ _ _ Hlim) as (Hke & _ & Hks).
  specialize (Hks s eq_refl).
  destruct Hframe as (Hk & _).
  rewrite <- Hk in Hke, Hks.
  unfold get_path. munfold. rewrite Hlim. unfold deref. rewrite Hs, He.
  destruct (cache_lookup (_path_cache r1) (name sl) (name el))
    as [[[p' n'] t']|] eqn:Hcache; simpl.
  - destruct Hwf1 as [Hn Hc].
    destruct (Hc s e p' n' t' Hks Hke) as [Hd' _].
    { unfold link_name. by rewrite Hs, He. }
    exfalso. apply Hnot. by eapply descends_ancestry.
  - pose proof (ancestry_length _ _ _ Ha) as Hlen.
    rewrite (walk_up_lost _ _ _ _ Ha Hnot) by lia. simpl. eauto.
Qed.

(** C4: with no [end] given, a robot with one gripper resolves to the
    first link of that gripper and its tool; a robot without gripper and
    with one end-effector resolves to that end-effector; without gripper
    and with several end-effectors the call raises and asks for one; and a
    name the robot knows, such as an end-effector's, resolves to its link. *)
Theorem default_end_resolution r start s :
  start_resolves r start s →
  (∀ g l ls, grippers r = [g] → g_links g = l :: ls →
     (_get_limit_links ArgNone start r).1 = Ok (Some l, s, Some (g_tool g)))
  ∧ (∀ l, grippers r = [] → _ee_links r = [l] →
     (_get_limit_links ArgNone start r).1 = Ok (l, s, None))
  ∧ (grippers r = [] → 1 < length (_ee_links r) →
     _get_limit_links ArgNone start r
     = (Raise (ValueError "Must specify which end-effector"), r))
  ∧ (∀ nm l, grippers r = [] → _linkdict r !! nm = Some l →
     (_get_limit_links (ArgStr nm) start r).1 = Ok (Some l, s, None)).
Proof.
  intros Hs.
  assert (∀ (e : option ref) (t : option SE3) (r1 : ERobot),
            _linkdict r1 = _linkdict r → links r1 = links r →
            grippers r1 = grippers r → _base_link r1 = _base_link r →
            ((s0 ← match start with
                   | ArgNone =>
                       mset (with_cache_start (_base_link r));;
                       mret (_base_link r)
                   | _ =>
                       s0 ← mlift (_getlink r start ArgNone); mret (Some s0)
                   end; mret (e, s0, t)) r1).1 = Ok (e, s, t)) as Hstart.
  { intros e t r1 _ _ _ _. munfold. destruct start; simpl in Hs.
    - by subst s.
    - destruct Hs as (l0 & -> & ->). done.
    - destruct Hs as (l0 & -> & ->). done.
    - destruct Hs as (l0 & -> & ->). done. }
  split; [|split; [|split]].
  - intros g l ls Hg Hl. unfold _get_limit_links. munfold.
    rewrite Hg, Hl. apply Hstart; done.
  - intros l Hg He. unfold _get_limit_links. munfold.
    rewrite Hg, He. apply Hstart; done.
  - intros Hg He. unfold _get_limit_links. munfold.
    rewrite Hg. destruct (_ee_links r) as [|? [|? ?]]; simpl in He; [lia|lia|done].
  - intros nm l Hg Hd. unfold _get_limit_links. munfold.
    rewrite Hg. simpl. unfold _getlink at 1. rewrite Hd. apply Hstart; done.
Qed.

End PathClaims.

(** *** The claims on the example robots *)

Section PathExamples.
Import ZModel.

Lemma branched_built : branched = Ok (built branched).
Proof. reflexivity. Qed.

Lemma serial_built : serial = Ok (built serial).
Proof. reflexivity. Qed.

Lemma gripped_built : gripped = Ok (built gripped).
Proof. reflexivity. Qed.

Lemma reset_cache_wf h r :
  names_unique h r → _path_cache r = ∅ → robot_wf h r.
Proof.
  intros Hn Hc. split; [done|].
  intros s e p n t _ _. rewrite Hc.
  destruct (link_name h s); [|done]. simpl.
  destruct (link_name h e); [|done]. simpl.
  unfold cache_lookup. by rewrite lookup_empty.
Qed.

Lemma branched_wf : robot_wf (built branched).1 (built branched).2.
Proof.
  apply reset_cache_wf; [|reflexivity].
  apply (bool_decide_unpack _). vm_compute. exact I.
Qed.

(** Counterexample to C1 as stated: from [link1] to [ee_1] the path
    starts with [link1] itself, not with its child [link2], and the joint
    count 2 includes the joint of [link1]. *)
Lemma get_path_starts_at_start :
  (get_path (built branched).1 (ArgStr "ee_1") (ArgStr "link1") false
     (built branched).2).1 = Ok (Path [0; 1; 2] 2 SE3_id)
  ∧ _linkdict (built branched).2 !! "link1" = Some 0
  ∧ _linkdict (built branched).2 !! "link2" = Some 1
  ∧ parent_of (built branched).1 1 = Some (PLink 0)
  ∧ head [0; 1; 2] ≠ Some 1
  ∧ count_joints (built branched).1 [1; 2] ≠ 2.
Proof. repeat split; try reflexivity; discriminate. Qed.

Lemma get_path_inclusive_witness :
  ∃ t r2,
    get_path (built branched).1 (ArgStr "ee_1") (ArgStr "link1") false
      (built branched).2
    = (Ok (Path [0; 1; 2] (count_joints (built branched).1 [0; 1; 2]) t), r2)
    ∧ head [0; 1; 2] = Some 0 ∧ last [0; 1; 2] = Some 2
    ∧ robot_wf (built branched).1 r2.
Proof.
  apply (get_path_inclusive (built branched).1 (built branched).2
           (ArgStr "ee_1") (ArgStr "link1") 2 0 None (built branched).2).
  - exact branched_wf.
  - reflexivity.
  - apply (descends_child _ 0 2 1 [0; 1]); [lia | reflexivity |].
    apply (descends_child _ 0 1 0 [0]); [lia | reflexivity |].
    apply descends_here. eexists. reflexivity.
Defined.

Lemma get_path_not_found_witness :
  ∃ r2,
    get_path (built branched).1 (ArgStr "ee_2") (ArgStr "link2") false
      (built branched).2
    = (Raise (ValueError "cannot find path from link2 to ee_2"), r2).
Proof.
  eapply (get_path_not_found (built branched).1 (built branched).2
           (ArgStr "ee_2") (ArgStr "link2") 4 1 None (built branched).2
           (Some "link2") (Some "ee_2") [4; 3; 0]).
  - exact branched_wf.
  - reflexivity.
  - reflexivity.
  - reflexivity.
  - apply ancestry_up with (p := 3); [reflexivity|].
    apply ancestry_up with (p := 0); [reflexivity|].
    apply ancestry_root. reflexivity.
  - intros Hin. repeat (apply elem_of_cons in Hin as [Hin|Hin]; [discriminate|]).
    by apply elem_of_nil in Hin.
Defined.

Lemma default_end_resolution_witness :
  (_get_limit_links ArgNone ArgNone (built gripped).2).1
    = Ok (Some 2, Some 0, Some SE3_id)
  ∧ (_get_limit_links ArgNone ArgNone (built serial).2).1
    = Ok (Some 2, Some 0, None)
  ∧ _get_limit_links ArgNone ArgNone (built branched).2
    = (Raise (ValueError "Must specify which end-effector"), (built branched).2)
  ∧ (_get_limit_links (ArgStr "ee_2") ArgNone (built branched).2).1
    = Ok (Some 4, Some 0, None).
Proof.
  pose proof (default_end_resolution (built gripped).2 ArgNone (Some 0) eq_refl)
    as (Hg & _).
  pose proof (default_end_resolution (built serial).2 ArgNone (Some 0) eq_refl)
    as (_ & Hs & _).
  pose proof (default_end_resolution (built branched).2 ArgNone (Some 0) eq_refl)
    as (_ & _ & Hb & Hn).
  split; [|split; [|split]].
  - apply (Hg (mkGripper 0 (Some "") [2; 3] SE3_id 1) 2 [3]); reflexivity.
  - apply (Hs (Some 2)); reflexivity.
  - apply Hb; [reflexivity | change (1 < 2); lia].
  - apply Hn; reflexivity.
Defined.

End PathExamples.

(** ** Forward kinematics, Jacobian and Hessian *)

Section KinematicsClaims.
Context {N : Numerics} {I : Imports}.

Lemma for_rows_Ok {X Y} (f : X → outcome Y) (l : list X) (ys : list Y) :
  for_rows f l = Ok ys →
  length ys = length l
  ∧ ∀ k x, l !! k = Some x → ∃ y, ys !! k = Some y ∧ f x = Ok y.
Proof.
  revert ys. induction l as [|x l IH]; intros ys; simpl.
  - intros [= <-]. split; [done|]. intros k x Hk. by rewrite lookup_nil in Hk.
  - munfold. destruct (f x) as [y| |] eqn:Hy; try discriminate.
    destruct (for_rows f l) as [ys'| |]; try discriminate.
    intros [= <-]. destruct (IH ys' eq_refl) as [Hlen Hrows].
    split; [simpl; by rewrite Hlen|].
    intros [|k] x' Hk; simpl in *.
    + injection Hk as <-. eauto.
    + by apply Hrows.
Qed.

Lemma for_rows_singleton {X Y} (f : X → outcome Y) (x : X) :
  for_rows f [x] = obind (f x) (λ y, Ok [y]).
Proof. simpl. munfold. by destruct (f x). Qed.

(** C6: on a stack [Q] of [m] rows, [fkine] returns [m] poses, and the
    [k]-th of them is the pose [fkine] returns for the row [Q[k]] alone.
    The two premises on [getmatrix] say that the checker takes the stack
    as it is and a single row as a stack of one. *)
Theorem fkine_trajectory h Q unit_ end_ start tool include_base r Ts r' :
  getmatrix (QMat Q) (_n r) = Ok Q →
  (∀ row, row ∈ Q → getmatrix (QVec row) (_n r) = Ok [row]) →
  fkine h (QMat Q) unit_ end_ start tool include_base false r
    = (Ok (FkPoses Ts), r') →
  length Ts = length Q
  ∧ ∀ k row, Q !! k = Some row →
      ∃ Tk, Ts !! k = Some Tk
            ∧ fkine h (QVec row) unit_ end_ start tool include_base false r
              = (Ok (FkPoses [Tk]), r').
Proof.
  intros Hstack Hrow. unfold fkine. munfold. rewrite Hstack.
  destruct (_get_limit_links end_ start r) as [[[[e s] etool]| |] r1] eqn:Hlim;
    try discriminate.
  destruct (for_rows _ Q) as [ys| |] eqn:Hrows; try discriminate.
  intros [= <- <-].
  destruct (for_rows_Ok _ _ _ Hrows) as [Hlen Hk].
  split; [done|]. intros k row Hq.
  destruct (Hk k row Hq) as (Tk & HTk & Hf).
  exists Tk. split; [done|].
  rewrite (Hrow row) by (eapply list_elem_of_lookup_2; done).
  rewrite for_rows_singleton, Hf. reflexivity.
Qed.

(** C10: when a Jacobian is supplied, the value of [q] plays no part in
    [hessian0]. *)
Theorem hessian0_ignores_q h q1 q2 J0 end_ start r :
  hessian0 h q1 (Some J0) end_ start r = hessian0 h q2 (Some J0) end_ start r.
Proof. unfold hessian0. reflexivity. Qed.

(** *** Two-dimensional arrays *)

Lemma get2_set2 (J J' : ndarray2) a j x a' j' :
  set2 J a j x = Ok J' →
  get2 J' a' j' = if decide (a' = a ∧ j' = j) then Ok x else get2 J a' j'.
Proof.
  unfold set2, get2 in *. munfold.
  destruct (J !! a) as [row|] eqn:Ha; simpl; [|discriminate].
  destruct (row !! j) as [y|] eqn:Hj; simpl; [|discriminate].
  intros [= <-].
  destruct (decide (a' = a)) as [->|Hna].
  - rewrite list_lookup_alter_eq, Ha. simpl.
    destruct (decide (j' = j)) as [->|Hnj].
    + rewrite list_lookup_insert_eq by (by eapply lookup_lt_Some).
      by rewrite decide_True.
    + rewrite list_lookup_insert_ne by done.
      by rewrite decide_False by (intros [_ ?]; done).
  - rewrite list_lookup_alter_ne by done.
    by rewrite decide_False by (intros [? _]; done).
Qed.

Lemma set_col3_get2 (J J' : ndarray2) a j u a' j' :
  set_col3 J a j u = Ok J' →
  get2 J' a' j' =
    if decide (j' = j ∧ a' = a) then Ok u.1.1
    else if decide (j' = j ∧ a' = a + 1) then Ok u.1.2
    else if decide (j' = j ∧ a' = a + 2) then Ok u.2
    else get2 J a' j'.
Proof.
  destruct u as [[x y] z]. unfold set_col3. munfold.
  destruct (set2 J a j x) as [J1| |] eqn:H1; try discriminate.
  destruct (set2 J1 (a + 1) j y) as [J2| |] eqn:H2; try discriminate.
  intros H3.
  rewrite (get2_set2 _ _ _ _ _ _ _ H3), (get2_set2 _ _ _ _ _ _ _ H2),
    (get2_set2 _ _ _ _ _ _ _ H1). simpl.
  repeat case_decide; try done; lia.
Qed.

Lemma set_col3_col3 (J J' : ndarray2) a j u :
  set_col3 J a j u = Ok J' → col3 J' a j = Ok u.
Proof.
  intros H. unfold col3. munfold.
  rewrite !(set_col3_get2 _ _ _ _ _ _ _ H).
  destruct u as [[x y] z]. simpl.
  repeat (case_decide; try lia); done.
Qed.

Lemma set_col3_other (J J' : ndarray2) a j u b j' :
  set_col3 J a j u = Ok J' → j' ≠ j ∨ b + 2 < a ∨ a + 2 < b →
  col3 J' b j' = col3 J b j'.
Proof.
  intros H Hne. unfold col3. munfold.
  rewrite !(set_col3_get2 _ _ _ _ _ _ _ H).
  repeat (case_decide; try lia); done.
Qed.

(** *** The loop of [jacob0] *)

#[local] Arguments jacob0_step : simpl never.
#[local] Arguments set_col3 : simpl never.
#[local] Arguments col3 : simpl never.

Lemma jacob0_fold_Raise h q end_ tool T e path :
  foldl (jacob0_step h q end_ tool T) (Raise e) path = Raise e.
Proof. induction path; simpl; [done|]. apply IHpath. Qed.

Lemma jacob0_fold_Diverge h q end_ tool T path :
  foldl (jacob0_step h q end_ tool T) Diverge path = Diverge.
Proof. induction path; simpl; [done|]. apply IHpath. Qed.

(** A turn of the loop leaves the columns before [j] as they are, and
    moves [j] by one exactly at a joint. *)
Lemma jacob0_step_frame h q end_ tool T U j J link U' j' J' :
  jacob0_step h q end_ tool T (Ok (U, j, J)) link = Ok (U', j', J') →
  j' = j + (if link_isjoint h link then 1 else 0)
  ∧ ∀ b c, c < j → col3 J' b c = col3 J b c.
Proof.
  unfold jacob0_step, link_isjoint, deref. munfold.
  destruct (h !! link) as [x|]; simpl; [|discriminate].
  destruct (isjoint x).
  - destruct (link_A_at h link q) as [[a|]| |]; simpl; try discriminate.
    destruct (v x) as [et|]; simpl; [|discriminate].
    destruct (jacob0_columns _ _ _) as [[t w]|].
    + destruct (set_col3 J 0 j t) as [J1| |] eqn:H1; simpl; try discriminate.
      destruct (set_col3 J1 3 j w) as [J2| |] eqn:H2; simpl; try discriminate.
      intros [= <- <- <-]. split; [done|]. intros b c Hc.
      rewrite (set_col3_other _ _ _ _ _ _ _ H2) by lia.
      by rewrite (set_col3_other _ _ _ _ _ _ _ H1) by lia.
    + intros [= <- <- <-]. done.
  - intros [= <- <- <-]. split; [lia | done].
Qed.

Lemma jacob0_fold_frame h q end_ tool T path :
  ∀ U j J U' j' J',
    foldl (jacob0_step h q end_ tool T) (Ok (U, j, J)) path = Ok (U', j', J') →
    j' = j + count_joints h path
    ∧ ∀ b c, c < j → col3 J' b c = col3 J b c.
Proof.
  induction path as [|link path IH]; intros U j J U' j' J'; simpl.
  - intros [= <- <- <-]. split; [lia | done].
  - destruct (jacob0_step h q end_ tool T (Ok (U, j, J)) link)
      as [[[U1 j1] J1]| |] eqn:Hstep.
    + intros Hrest. destruct (jacob0_step_frame _ _ _ _ _ _ _ _ _ _ _ _ Hstep)
        as [-> Hcols].
      destruct (IH _ _ _ _ _ _ Hrest) as [-> Hcols'].
      split; [lia|]. intros b c Hc. rewrite Hcols' by lia. by apply Hcols.
    + by rewrite jacob0_fold_Raise.
    + by rewrite jacob0_fold_Diverge.
Qed.

Lemma jacob0_columns_translational ax U Tu c :
  translational_axis ax = Some c →
  jacob0_columns ax U Tu = Some (mcol3 U c, vzero).
Proof.
  unfold translational_axis, jacob0_columns.
  repeat case_bool_decide; subst; try discriminate; by intros [= <-].
Qed.

(** C7: a joint of the path that slides along x, y or z writes, in the
    column of its position among the joints, the column [n], [o] or [a] of
    the accumulated [U] as its translational part and zero as its
    rotational part, and no later turn of the loop changes that column; a
    link that is not a joint leaves [j] and [J] as they are and multiplies
    its transform onto [U]. *)
Theorem jacob0_translational_column h q end_ tool T n pre link post
    x et c U1 j1 J1 Uf jf Jf :
  h !! link = Some x → isjoint x = true → v x = Some et →
  translational_axis (axis et) = Some c →
  foldl (jacob0_step h q end_ tool T) (Ok (eye4, 0, zeros2 6 n)) pre
    = Ok (U1, j1, J1) →
  foldl (jacob0_step h q end_ tool T) (Ok (eye4, 0, zeros2 6 n))
    (pre ++ link :: post) = Ok (Uf, jf, Jf) →
  (∃ a, link_A_at h link q = Ok (Some a)
        ∧ let U2 := if arg_is_link end_ link
                    then matmul (matmul U1 a) (SE3_A tool) else matmul U1 a in
          j1 = count_joints h pre
          ∧ col3 Jf 0 j1 = Ok (mcol3 U2 c)
          ∧ col3 Jf 3 j1 = Ok vzero)
  ∧ (∀ U j J l y,
       h !! l = Some y → isjoint y = false →
       jacob0_step h q end_ tool T (Ok (U, j, J)) l
       = Ok (match A y QDefault with Some a => matmul U a | None => U end,
             j, J)).
Proof.
  intros Hx Hj Hv Hax Hpre Hall. split.
  - rewrite foldl_app, Hpre in Hall. simpl in Hall.
    destruct (jacob0_step h q end_ tool T (Ok (U1, j1, J1)) link)
      as [[[U2 j2] J2]| |] eqn:Hstep;
      [|by rewrite jacob0_fold_Raise in Hall
       |by rewrite jacob0_fold_Diverge in Hall].
    destruct (jacob0_fold_frame _ _ _ _ _ _ _ _ _ _ _ _ Hpre) as [Hj1 _].
    destruct (jacob0_step_frame _ _ _ _ _ _ _ _ _ _ _ _ Hstep) as [Hj2 _].
    destruct (jacob0_fold_frame _ _ _ _ _ _ _ _ _ _ _ _ Hall) as [_ Hkeep].
    unfold link_isjoint in Hj2. rewrite Hx in Hj2. simpl in Hj2.
    rewrite Hj in Hj2. subst j2.
    revert Hstep. unfold jacob0_step, deref. munfold. rewrite Hx. simpl.
    rewrite Hj.
    destruct (link_A_at h link q) as [[a|]| |]; simpl; try discriminate.
    rewrite Hv. simpl.
    rewrite (jacob0_columns_translational _ _ _ _ Hax).
    destruct (set_col3 J1 0 j1 _) as [J3| |] eqn:H1; simpl; try discriminate.
    destruct (set_col3 J3 3 j1 vzero) as [J4| |] eqn:H2; simpl; try discriminate.
    intros [= <- <-]. exists a. split; [done|]. simpl.
    split; [simpl in Hj1; lia|].
    rewrite !Hkeep by lia.
    split.
    + rewrite (set_col3_other _ _ _ _ _ _ _ H2) by lia.
      by apply (set_col3_col3 _ _ _ _ _ H1).
    + by apply (set_col3_col3 _ _ _ _ _ H2).
  - intros U j J l y Hy Hjy. unfold jacob0_step, deref. munfold.
    rewrite Hy. simpl. by rewrite Hjy.
Qed.

(** C8 (as the code has it): once the loop of [jacob0] has produced the
    Jacobian, a representation that is none of the four known ones raises
    "bad order specified" unless the translational half is asked for, and
    a half that is neither 'trans' nor 'rot' raises "bad half specified"
    when no representation is given, the error of the representation
    coming first when one is given and is unknown. *)
Theorem jacob0_bad_argument h q end_ start tool T half analytical r J r' :
  jacob0_loop h q end_ start tool T r = (Ok J, r') →
  (∀ an, analytical = Some an → an ∉ representations →
         half ≠ Some "trans" →
         jacob0 h q end_ start tool T half analytical false r
         = (Raise (ValueError "bad order specified"), r'))
  ∧ (∀ hf, half = Some hf → hf ≠ "trans" → hf ≠ "rot" →
           (analytical = None →
            jacob0 h q end_ start tool T half analytical false r
            = (Raise (ValueError "bad half specified"), r'))
           ∧ (∀ an, analytical = Some an → an ∉ representations →
              jacob0 h q end_ start tool T half analytical false r
              = (Raise (ValueError "bad order specified"), r'))).
Proof.
  intros Hloop.
  assert (∀ an hf, an ∉ representations → hf ≠ Some "trans" →
            jacob0_finish J hf (Some an)
            = Raise (ValueError "bad order specified")) as Horder.
  { intros an hf Han Hhf. unfold jacob0_finish, representations in *.
    munfold. rewrite bool_decide_true by done.
    repeat (apply not_elem_of_cons in Han as [? Han]).
    by rewrite !bool_decide_false by done. }
  split.
  - intros an -> Han Hhalf. unfold jacob0. munfold. rewrite Hloop.
    by rewrite Horder.
  - intros hf -> Ht Hr. split.
    + intros ->. unfold jacob0. munfold. rewrite Hloop.
      unfold jacob0_finish. munfold.
      by rewrite !bool_decide_false by done.
    + intros an -> Han. unfold jacob0. munfold. rewrite Hloop.
      rewrite Horder; [done | done | congruence].
Qed.

End KinematicsClaims.

Section KinematicsExamples.
Import ZModel.


Lemma fkine_trajectory_witness :
  ∃ T0 T1,
    (fkine hb (zstack [[3; 4; 5]; [1; 1; 1]]%Z) "rad" (ArgStr "ee_1") ArgNone
       None true false rb).1 = Ok (FkPoses [T0; T1])
    ∧ (fkine hb (zvec [3; 4; 5]%Z) "rad" (ArgStr "ee_1") ArgNone
         None true false rb).1 = Ok (FkPoses [T0])
    ∧ (fkine hb (zvec [1; 1; 1]%Z) "rad" (ArgStr "ee_1") ArgNone
         None true false rb).1 = Ok (FkPoses [T1]).
Proof.
  destruct (fkine hb (zstack [[3; 4; 5]; [1; 1; 1]]%Z) "rad" (ArgStr "ee_1")
              ArgNone None true false rb) as [o r'] eqn:Hfk.
  assert (o = Ok (FkPoses [trans 4 4 0; trans 2 1 0])) as ->.
  { change o with (o, r').1. rewrite <- Hfk. reflexivity. }
  destruct (fkine_trajectory hb ([[3; 4; 5]; [1; 1; 1]]%Z : list (list Z)) "rad" (ArgStr "ee_1")
              ArgNone None true rb [trans 4 4 0; trans 2 1 0] r') as [_ Hrows].
  - reflexivity.
  - intros row Hrow.
    repeat (apply elem_of_cons in Hrow as [->|Hrow]; [reflexivity|]).
    by apply elem_of_nil in Hrow.
  - exact Hfk.
  - exists (trans 4 4 0), (trans 2 1 0). split; [reflexivity|].
    destruct (Hrows 0 _ eq_refl) as (T0 & [= <-] & H0).
    destruct (Hrows 1 _ eq_refl) as (T1 & [= <-] & H1).
    split; [exact (f_equal fst H0) | exact (f_equal fst H1)].
Defined.

Lemma jacob0_translational_column_witness :
  ∃ Uf jf Jf,
    foldl (jacob0_step hb ([3; 4; 5]%Z : list Z) (ArgStr "ee_1") SE3_id (trans 4 4 0))
      (Ok (eye4, 0, zeros2 6 2)) [0; 1; 2] = Ok (Uf, jf, Jf)
    ∧ col3 Jf 0 1 = Ok (mcol3 (trans 3 4 0) 1)
    ∧ col3 Jf 3 1 = Ok vzero.
Proof.
  destruct (foldl (jacob0_step hb ([3; 4; 5]%Z : list Z) (ArgStr "ee_1") SE3_id (trans 4 4 0))
              (Ok (eye4, 0, zeros2 6 2)) [0; 1; 2]) as [[[Uf jf] Jf]| |] eqn:Hall;
    [|vm_compute in Hall; discriminate..].
  exists Uf, jf, Jf. split; [reflexivity|].
  edestruct (jacob0_translational_column hb ([3; 4; 5]%Z : list Z) (ArgStr "ee_1") SE3_id
               (trans 4 4 0) 2 [0] 1 [2]) as [(a & Ha & HU) _];
    [reflexivity | reflexivity | reflexivity | reflexivity | reflexivity
    | exact Hall |].
  vm_compute in Ha. injection Ha as <-.
  destruct HU as (_ & Ht & Hw). split; [exact Ht | exact Hw].
Defined.

(** Counterexample to C8 as stated: with the translational half asked
    for, an unknown representation is not looked at and the call returns
    the three translational rows. *)
Lemma jacob0_trans_skips_analytical :
  (jacob0 hb (zvec [3; 4; 5]%Z) (ArgStr "ee_1") ArgNone None None
     (Some "trans") (Some "quaternion") false rb).1
  = Ok ([[1; 0]; [0; 1]; [0; 0]]%Z : list (list Z))
  ∧ "quaternion" ∉ representations.
Proof.
  split; [reflexivity|].
  intros Hin. repeat (apply elem_of_cons in Hin as [Hin|Hin]; [discriminate|]).
  by apply elem_of_nil in Hin.
Qed.

Lemma jacob0_bad_argument_witness :
  (jacob0 hb (zvec [3; 4; 5]%Z) (ArgStr "ee_1") ArgNone None None
     None (Some "quaternion") false rb).1
  = Raise (ValueError "bad order specified")
  ∧ (jacob0 hb (zvec [3; 4; 5]%Z) (ArgStr "ee_1") ArgNone None None
       (Some "top") None false rb).1
    = Raise (ValueError "bad half specified").
Proof.
  destruct (jacob0_loop hb (zvec [3; 4; 5]%Z) (ArgStr "ee_1") ArgNone None None rb)
    as [[J| |] r'] eqn:Hloop;
    [|exfalso; assert (Hl := f_equal fst Hloop); vm_compute in Hl; discriminate..].
  split.
  - destruct (jacob0_bad_argument hb (zvec [3; 4; 5]%Z) (ArgStr "ee_1") ArgNone
                None None None (Some "quaternion") rb J r' Hloop) as [H _].
    rewrite (H "quaternion" eq_refl); [reflexivity | | discriminate].
    intros Hin. repeat (apply elem_of_cons in Hin as [Hin|Hin]; [discriminate|]).
    by apply elem_of_nil in Hin.
  - destruct (jacob0_bad_argument hb (zvec [3; 4; 5]%Z) (ArgStr "ee_1") ArgNone
                None None (Some "top") None rb J r' Hloop) as [_ H].
    destruct (H "top" eq_refl) as [H1 _]; [discriminate | discriminate |].
    by rewrite H1.
Defined.

End KinematicsExamples.
(** ** The Hessian *)

Section HessianClaims.
Context {N : Numerics} {I : Imports}.

#[local] Arguments set_fibre3 : simpl never.
#[local] Arguments fibre3 : simpl never.
#[local] Arguments col3 : simpl never.
#[local] Arguments hessian0_cell : simpl never.

Lemma get3_set3 (H H' : ndarray3) a i j x a' i' j' :
  set3 H a i j x = Ok H' →
  get3 H' a' i' j'
  = if decide (a' = a ∧ i' = i ∧ j' = j) then Ok x else get3 H a' i' j'.
Proof.
  unfold set3, get3 in *. munfold.
  destruct (H !! a) as [plane|] eqn:Ha; simpl; [|discriminate].
  destruct (plane !! i) as [row|] eqn:Hi; simpl; [|discriminate].
  destruct (row !! j) as [y|] eqn:Hj; simpl; [|discriminate].
  intros [= <-].
  destruct (decide (a' = a)) as [->|Hna].
  - rewrite list_lookup_alter_eq, Ha. simpl.
    destruct (decide (i' = i)) as [->|Hni].
    + rewrite list_lookup_alter_eq, Hi. simpl.
      destruct (decide (j' = j)) as [->|Hnj].
      * rewrite list_lookup_insert_eq by (by eapply lookup_lt_Some).
        by rewrite decide_True.
      * rewrite list_lookup_insert_ne by done.
        by rewrite decide_False by (intros (_ & _ & ?); done).
    + rewrite list_lookup_alter_ne by done.
      by rewrite decide_False by (intros (_ & ? & _); done).
  - rewrite list_lookup_alter_ne by done.
    by rewrite decide_False by (intros (? & _ & _); done).
Qed.

Lemma set_fibre3_get3 (H H' : ndarray3) a i j u a' i' j' :
  set_fibre3 H a i j u = Ok H' →
  get3 H' a' i' j' =
    if decide (i' = i ∧ j' = j ∧ a' = a) then Ok u.1.1
    else if decide (i' = i ∧ j' = j ∧ a' = a + 1) then Ok u.1.2
    else if decide (i' = i ∧ j' = j ∧ a' = a + 2) then Ok u.2
    else get3 H a' i' j'.
Proof.
  destruct u as [[x y] z]. unfold set_fibre3. munfold.
  destruct (set3 H a i j x) as [H1| |] eqn:E1; try discriminate.
  destruct (set3 H1 (a + 1) i j y) as [H2| |] eqn:E2; try discriminate.
  intros E3.
  rewrite (get3_set3 _ _ _ _ _ _ _ _ _ E3), (get3_set3 _ _ _ _ _ _ _ _ _ E2),
    (get3_set3 _ _ _ _ _ _ _ _ _ E1). simpl.
  repeat case_decide; try done; lia.
Qed.

Lemma set_fibre3_same (H H' : ndarray3) a i j u :
  set_fibre3 H a i j u = Ok H' → fibre3 H' a i j = Ok u.
Proof.
  intros E. unfold fibre3. munfold.
  rewrite !(set_fibre3_get3 _ _ _ _ _ _ _ _ _ E).
  destruct u as [[x y] z]. simpl.
  rewrite decide_True by done.
  rewrite (decide_False (P := i = i ∧ j = j ∧ a + 1 = a)) by lia.
  rewrite decide_True by done.
  rewrite (decide_False (P := i = i ∧ j = j ∧ a + 2 = a)) by lia.
  rewrite (decide_False (P := i = i ∧ j = j ∧ a + 2 = a + 1)) by lia.
  by rewrite decide_True by done.
Qed.

Lemma set_fibre3_get3_other (H H' : ndarray3) a i j u a' i' j' :
  set_fibre3 H a i j u = Ok H' →
  i' ≠ i ∨ j' ≠ j ∨ a' < a ∨ a + 2 < a' →
  get3 H' a' i' j' = get3 H a' i' j'.
Proof.
  intros E Hne. rewrite (set_fibre3_get3 _ _ _ _ _ _ _ _ _ E).
  by rewrite !decide_False by lia.
Qed.

Lemma set_fibre3_other (H H' : ndarray3) a i j u b i' j' :
  set_fibre3 H a i j u = Ok H' →
  i' ≠ i ∨ j' ≠ j ∨ b + 2 < a ∨ a + 2 < b →
  fibre3 H' b i' j' = fibre3 H b i' j'.
Proof.
  intros E Hne. unfold fibre3. munfold.
  by rewrite !(set_fibre3_get3_other _ _ _ _ _ _ _ _ _ E) by lia.
Qed.

Lemma get3_zeros a b c i j k :
  i < a → j < b → k < c → get3 (zeros3 a b c) i j k = Ok rzero.
Proof.
  intros Hi Hj Hk. unfold get3, zeros3.
  rewrite lookup_replicate_2 by done. simpl.
  rewrite lookup_replicate_2 by done. simpl.
  by rewrite lookup_replicate_2 by done.
Qed.

Lemma fibre3_zeros n a i j :
  a + 2 < 6 → i < n → j < n → fibre3 (zeros3 6 n n) a i j = Ok vzero.
Proof.
  intros Ha Hi Hj. unfold fibre3. munfold.
  by rewrite !get3_zeros by lia.
Qed.

Lemma get2_peek2 (J : ndarray2) a j x : get2 J a j = Ok x → x = peek2 J a j.
Proof.
  unfold get2, peek2.
  destruct (J !! a ≫= _) as [y|]; simpl; [|discriminate]. by intros [= <-].
Qed.

Lemma col3_colv (J : ndarray2) a j u : col3 J a j = Ok u → u = colv J a j.
Proof.
  unfold col3, colv. munfold.
  destruct (get2 J a j) as [x| |] eqn:Hx; try discriminate.
  destruct (get2 J (a + 1) j) as [y| |] eqn:Hy; try discriminate.
  destruct (get2 J (a + 2) j) as [z| |] eqn:Hz; try discriminate.
  intros [= <-].
  by rewrite (get2_peek2 _ _ _ _ Hx), (get2_peek2 _ _ _ _ Hy),
    (get2_peek2 _ _ _ _ Hz).
Qed.

(** *** The loops *)

Lemma hessian0_cell_Raise J0 j e l :
  foldl (hessian0_cell J0 j) (Raise e) l = Raise e.
Proof. induction l; simpl; [done|]. apply IHl. Qed.

Lemma hessian0_cell_Diverge J0 j l :
  foldl (hessian0_cell J0 j) Diverge l = Diverge.
Proof. induction l; simpl; [done|]. apply IHl. Qed.

(** One cell: the invariant moves from [(J, I)] to [(J, I + 1)]. *)
Lemma hessian0_cell_inv J0 n J I0 H H' :
  J ≤ I0 → I0 < n →
  hess_inv J0 n J I0 H →
  hessian0_cell J0 J (Ok H) I0 = Ok H' →
  hess_inv J0 n J (S I0) H'.
Proof.
  intros HJI HIn Hinv. unfold hessian0_cell. munfold.
  destruct (col3 J0 3 J) as [wj| |] eqn:Ewj; try discriminate.
  destruct (col3 J0 0 I0) as [ti| |] eqn:Eti; try discriminate.
  destruct (set_fibre3 H 0 I0 J (cross wj ti)) as [H1| |] eqn:E1;
    try discriminate.
  destruct (col3 J0 3 I0) as [wi| |] eqn:Ewi; try discriminate.
  destruct (set_fibre3 H1 3 I0 J (cross wj wi)) as [H2| |] eqn:E2;
    try discriminate.
  apply col3_colv in Ewj, Eti, Ewi. subst wj ti wi.
  assert (fibre3 H2 0 I0 J = Ok (hess_trans J0 I0 J)) as Ht.
  { rewrite (set_fibre3_other _ _ _ _ _ _ _ _ _ E2) by lia.
    rewrite (set_fibre3_same _ _ _ _ _ _ E1). unfold hess_trans.
    by rewrite Nat.min_r, Nat.max_l by lia. }
  assert (fibre3 H2 3 I0 J = Ok (hess_rot J0 I0 J)) as Hr.
  { by rewrite (set_fibre3_same _ _ _ _ _ _ E2). }
  assert (∀ b i j, b = 0 ∨ b = 3 → (i ≠ I0 ∨ j ≠ J) →
            fibre3 H2 b i j = fibre3 H b i j) as Hkeep.
  { intros b i j Hb Hij.
    rewrite (set_fibre3_other _ _ _ _ _ _ _ _ _ E2) by lia.
    by rewrite (set_fibre3_other _ _ _ _ _ _ _ _ _ E1) by lia. }
  case_bool_decide as Hne.
  - rewrite Ht. simpl. intros E3 i j Hi Hj.
    destruct (Hinv i j Hi Hj) as [Hti Hri].
    destruct (decide (i = I0 ∧ j = J)) as [[-> ->]|Hn1].
    { rewrite (set_fibre3_other _ _ _ _ _ _ _ _ _ E3) by lia.
      rewrite (set_fibre3_other _ _ _ _ _ _ _ _ _ E3) by lia.
      rewrite Ht, Hr. unfold hess_done.
      split; by rewrite decide_True by lia. }
    destruct (decide (i = J ∧ j = I0)) as [[-> ->]|Hn2].
    { rewrite (set_fibre3_same _ _ _ _ _ _ E3).
      rewrite (set_fibre3_other _ _ _ _ _ _ _ _ _ E3) by lia.
      rewrite (Hkeep 3) by lia. rewrite Hri. unfold hess_done, hess_trans.
      split.
      - rewrite decide_True by lia.
        by rewrite (Nat.min_comm J I0), (Nat.max_comm J I0).
      - by rewrite !decide_False by lia. }
    rewrite !(set_fibre3_other _ _ _ _ _ _ _ _ _ E3) by lia.
    rewrite !Hkeep by lia. rewrite Hti, Hri. unfold hess_done.
    split; repeat case_decide; try done; lia.
  - assert (I0 = J) as -> by (destruct (decide (I0 = J)); [done|by destruct Hne]).
    intros [= <-] i j Hi Hj.
    destruct (Hinv i j Hi Hj) as [Hti Hri].
    destruct (decide (i = J ∧ j = J)) as [[-> ->]|Hn1].
    { rewrite Ht, Hr. unfold hess_done.
      split; by rewrite decide_True by lia. }
    rewrite !Hkeep by lia. rewrite Hti, Hri. unfold hess_done.
    split; repeat case_decide; try done; lia.
Qed.

Lemma hessian0_inner_inv J0 n J k :
  ∀ I0 H H',
    J ≤ I0 → I0 + k ≤ n →
    hess_inv J0 n J I0 H →
    foldl (hessian0_cell J0 J) (Ok H) (seq I0 k) = Ok H' →
    hess_inv J0 n J (I0 + k) H'.
Proof.
  induction k as [|k IH]; intros I0 H H' HJ Hn Hinv; simpl.
  - intros [= <-]. by rewrite Nat.add_0_r.
  - destruct (hessian0_cell J0 J (Ok H) I0) as [H1| |] eqn:Hcell.
    + intros Hrest. replace (I0 + S k) with (S I0 + k) by lia.
      apply (IH (S I0) H1); [lia | lia | | done].
      eapply hessian0_cell_inv; [| |done|done]; lia.
    + by rewrite hessian0_cell_Raise.
    + by rewrite hessian0_cell_Diverge.
Qed.

Lemma hess_inv_next J0 n J H :
  hess_inv J0 n J n H → hess_inv J0 n (S J) (S J) H.
Proof.
  intros Hinv i j Hi Hj. destruct (Hinv i j Hi Hj) as [Ht Hr].
  rewrite Ht, Hr. unfold hess_done.
  split; repeat case_decide; try done; lia.
Qed.

Lemma hessian0_outer_Raise J0 n e l :
  foldl (λ acc j, foldl (hessian0_cell J0 j) acc (seq j (n - j))) (Raise e) l
  = Raise e.
Proof.
  induction l; simpl; [done|]. by rewrite hessian0_cell_Raise.
Qed.

Lemma hessian0_outer_Diverge J0 n l :
  foldl (λ acc j, foldl (hessian0_cell J0 j) acc (seq j (n - j))) Diverge l
  = Diverge.
Proof.
  induction l; simpl; [done|]. by rewrite hessian0_cell_Diverge.
Qed.

Lemma hessian0_outer_inv J0 n k :
  ∀ J H H',
    J + k ≤ n →
    hess_inv J0 n J J H →
    foldl (λ acc j, foldl (hessian0_cell J0 j) acc (seq j (n - j)))
      (Ok H) (seq J k) = Ok H' →
    hess_inv J0 n (J + k) (J + k) H'.
Proof.
  induction k as [|k IH]; intros J H H' Hn Hinv; simpl.
  - intros [= <-]. by rewrite Nat.add_0_r.
  - destruct (foldl (hessian0_cell J0 J) (Ok H) (seq J (n - J)))
      as [H1| |] eqn:Hinner.
    + intros Hrest. replace (J + S k) with (S J + k) by lia.
      apply (IH (S J) H1); [lia | | done].
      apply hess_inv_next.
      replace n with (J + (n - J)) at 2 by lia.
      eapply hessian0_inner_inv; [| |done|done]; lia.
    + by rewrite hessian0_outer_Raise.
    + by rewrite hessian0_outer_Diverge.
Qed.

(** What the loops return: both triangles of the translational block
    hold the cross product of the cell below the diagonal, the rotational
    block holds its cross product on and below the diagonal only. *)
Lemma hessian0_loops_spec J0 n H :
  hessian0_loops J0 n = Ok H →
  ∀ i j, i < n → j < n →
    fibre3 H 0 i j = Ok (hess_trans J0 i j)
    ∧ fibre3 H 3 i j = Ok (if decide (j ≤ i) then hess_rot J0 i j else vzero).
Proof.
  unfold hessian0_loops. intros Hloops i j Hi Hj.
  assert (hess_inv J0 n 0 0 (zeros3 6 n n)) as H0.
  { intros i' j' Hi' Hj'. rewrite !fibre3_zeros by lia. unfold hess_done.
    split; by rewrite decide_False by lia. }
  pose proof (hessian0_outer_inv J0 n n 0 _ _ (le_n _) H0 Hloops) as Hinv.
  destruct (Hinv i j Hi Hj) as [Ht Hr]. rewrite Ht, Hr. unfold hess_done.
  split; repeat case_decide; try done; lia.
Qed.

(** C2 (as the code has it): the translational block of the tensor
    [hessian0] returns is symmetric in its two joint indices; the
    rotational block is not mirrored: it holds the cross product of the
    rotational columns [j] and [i] of the Jacobian on and below the
    diagonal and zero above it. *)
Theorem hessian0_blocks h q J0 end_ start r H r' e s t r1 p n t' r2 :
  _get_limit_links end_ start r = (Ok (e, s, t), r1) →
  get_path h (arg_of e) (arg_of s) false r1 = (Ok (Path p n t'), r2) →
  hessian0 h q J0 end_ start r = (Ok H, r') →
  ∃ J,
    hessian0_loops J n = Ok H
    ∧ (∀ J', J0 = Some J' → J = J')
    ∧ ∀ i j, i < n → j < n →
        fibre3 H 0 i j = fibre3 H 0 j i
        ∧ fibre3 H 0 i j = Ok (hess_trans J i j)
        ∧ (j ≤ i → fibre3 H 3 i j = Ok (cross (colv J 3 j) (colv J 3 i)))
        ∧ (i < j → fibre3 H 3 i j = Ok vzero).
Proof.
  intros Hlim Hpath. unfold hessian0. munfold. rewrite Hlim, Hpath. simpl.
  intros Hres.
  assert (∃ J r3, (∀ J', J0 = Some J' → J = J')
                  ∧ (hessian0_loops J n, r3) = (Ok H, r')) as (J & r3 & HJ & Hl).
  { destruct J0 as [J'|].
    - destruct (verifymatrix J' 6 n); try discriminate.
      exists J', r2. split; [by intros ? [= ->] | done].
    - destruct (getvector q n); try discriminate.
      match type of Hres with
      | (let (_, _) := ?m in _) = _ => destruct m as [[J| |] r3]
      end; try discriminate.
      exists J, r3. split; [by intros ? [=] | done]. }
  injection Hl as Hl _.
  exists J. split; [done|]. split; [done|].
  intros i j Hi Hj.
  destruct (hessian0_loops_spec _ _ _ Hl i j Hi Hj) as [Ht Hr].
  destruct (hessian0_loops_spec _ _ _ Hl j i Hj Hi) as [Ht' _].
  split; [|split; [done|split]].
  - rewrite Ht, Ht'. unfold hess_trans.
    by rewrite (Nat.min_comm i j), (Nat.max_comm i j).
  - intros Hle. by rewrite Hr, decide_True by done.
  - intros Hlt. by rewrite Hr, decide_False by lia.
Qed.

End HessianClaims.

Section HessianExamples.
Import ZModel.


(** Counterexample to C2 as stated: the rotational block of the tensor is
    not symmetric. *)
Lemma hessian0_rotational_not_symmetric :
  ∃ H,
    (hessian0 hb QNone (Some two_turns) (ArgStr "ee_1") ArgNone rb).1 = Ok H
    ∧ fibre3 H 3 1 0 = Ok ((-1)%Z, 0%Z, 0%Z)
    ∧ fibre3 H 3 0 1 = Ok (0%Z, 0%Z, 0%Z).
Proof. eexists. split; [reflexivity|]. split; reflexivity. Qed.

Lemma hessian0_blocks_witness :
  ∃ H,
    (hessian0 hb QNone (Some two_turns) (ArgStr "ee_1") ArgNone rb).1 = Ok H
    ∧ fibre3 H 0 0 1 = fibre3 H 0 1 0
    ∧ fibre3 H 3 0 1 = Ok vzero.
Proof.
  destruct (hessian0 hb QNone (Some two_turns) (ArgStr "ee_1") ArgNone rb)
    as [[H| |] r'] eqn:Hh;
    [|exfalso; assert (Hl := f_equal fst Hh); vm_compute in Hl; discriminate..].
  exists H. split; [reflexivity|].
  destruct (hessian0_blocks hb QNone (Some two_turns) (ArgStr "ee_1") ArgNone
              rb H r' (Some 2) (Some 0) None
              (_get_limit_links (ArgStr "ee_1") ArgNone rb).2
              [0; 1; 2] 2 SE3_id
              (get_path hb (ArgLink 2) (ArgLink 0) false
                 (_get_limit_links (ArgStr "ee_1") ArgNone rb).2).2)
    as (J & _ & _ & Hcells).
  - apply injective_projections; reflexivity.
  - apply injective_projections; reflexivity.
  - exact Hh.
  - destruct (Hcells 0 1) as (Hsym & _ & _ & Hz); [lia | lia |].
    split; [exact Hsym | apply Hz; lia].
Defined.

End HessianExamples.
(** ** The backward pass of [rne] *)

Section RneClaims.
Context {N : Numerics} {I : Imports} {Sp : Spatial}.

#[local] Arguments rne_backward : simpl never.

Lemma rne_backward_Raise h robot s Xup e l :
  foldl (rne_backward h robot s Xup) (Raise e) l = Raise e.
Proof. induction l; simpl; [done|]. apply IHl. Qed.

Lemma rne_backward_Diverge h robot s Xup l :
  foldl (rne_backward h robot s Xup) Diverge l = Diverge.
Proof. induction l; simpl; [done|]. apply IHl. Qed.

Lemma item_Ok {X} (a : list X) i x : item a i = Ok x → a !! i = Some x.
Proof. unfold item. destruct (a !! i); [by intros [= ->] | discriminate]. Qed.

Lemma setitem_Ok {X} (a a' : list X) i x :
  setitem a i x = Ok a' → a' = <[i := x]> a ∧ i < length a.
Proof.
  unfold setitem, item. munfold.
  destruct (a !! i) eqn:Hi; simpl; [|discriminate].
  intros [= <-]. split; [done | by eapply lookup_lt_Some].
Qed.

(** One turn of the backward loop. *)
Lemma rne_backward_step h robot s Xup Q f j Q' f' :
  rne_backward h robot s Xup (Ok (Q, f)) j = Ok (Q', f') →
  ∃ fj sj,
    f !! j = Some fj ∧ subspace s j = Ok sj
    ∧ Q' = <[j := sum_prod (force_A fj) sj]> Q ∧ j < length Q
    ∧ match parent_index h robot j with
      | None => f' = f
      | Some jp =>
          ∃ fp Xj, f !! jp = Some fp ∧ Xup !! j = Some Xj
                   ∧ f' = <[jp := force_add fp (xforce Xj fj)]> f
      end.
Proof.
  unfold rne_backward, parent_index, deref. munfold.
  destruct (item f j) as [fj| |] eqn:Hfj; try discriminate.
  destruct (subspace s j) as [sj| |] eqn:Hsj; try discriminate.
  destruct (setitem Q j _) as [Q1| |] eqn:HQ; try discriminate.
  destruct (item robot j) as [l| |] eqn:Hl; try discriminate.
  apply item_Ok in Hl. rewrite Hl. simpl.
  destruct (h !! l) as [x|]; simpl; [|discriminate].
  destruct (parent_jindex h x) as [[jp|]| |]; try discriminate.
  - destruct (item f jp) as [fp| |] eqn:Hfp; try discriminate.
    destruct (item Xup j) as [Xj| |] eqn:HXj; try discriminate.
    simpl. destruct (setitem f jp _) as [f1| |] eqn:Hf; try discriminate.
    intros [= <- <-].
    apply setitem_Ok in HQ as [-> HjQ]. apply setitem_Ok in Hf as [-> _].
    apply item_Ok in Hfj, Hfp, HXj.
    exists fj, sj. repeat split; try done. eauto 10.
  - intros [= <- <-]. apply setitem_Ok in HQ as [-> HjQ].
    apply item_Ok in Hfj. exists fj, sj. by repeat split.
Qed.

Lemma pass_up_ext Xup f f' acc l :
  (∀ k, k ∈ l → f' !! k = f !! k) →
  foldl (pass_up Xup f') acc l = foldl (pass_up Xup f) acc l.
Proof.
  revert acc. induction l as [|k l IH]; intros acc Hl; simpl; [done|].
  unfold pass_up at 2 4. rewrite (Hl k) by (apply elem_of_cons; by left).
  apply IH. intros k' Hk'. apply Hl. apply elem_of_cons. by right.
Qed.

Lemma reverse_seq_snoc m k :
  reverse (seq m (S k)) = reverse (seq (S m) k) ++ [m].
Proof. simpl. by rewrite reverse_cons. Qed.

Lemma backward_inv_step h robot s Xup f0 n m Q f Q' f' :
  m < n →
  (∀ j jp, j < n → parent_index h robot j = Some jp → jp < j) →
  backward_inv h robot s Xup f0 n (S m) Q f →
  rne_backward h robot s Xup (Ok (Q, f)) m = Ok (Q', f') →
  backward_inv h robot s Xup f0 n m Q' f'.
Proof.
  intros Hm Hord (HQ & Hf & Hlen) Hstep.
  destruct (rne_backward_step _ _ _ _ _ _ _ _ _ Hstep)
    as (fm & sm & Hfm & Hsm & -> & HmQ & Hpar).
  unfold backward_inv.
  replace (n - m) with (S (n - S m)) by lia.
  rewrite reverse_seq_snoc.
  assert (∀ k, k ∈ reverse (seq (S m) (n - S m)) → m < k) as Hgt.
  { intros k Hk. apply elem_of_reverse, elem_of_seq in Hk. lia. }
  destruct (parent_index h robot m) as [jp|] eqn:Hjp.
  - destruct Hpar as (fp & Xm & Hfp & HXm & ->).
    pose proof (Hord m jp Hm Hjp) as Hlt.
    assert (∀ k, m ≤ k → <[jp := force_add fp (xforce Xm fm)]> f !! k = f !! k)
      as Hsame.
    { intros k Hk. apply list_lookup_insert_ne. lia. }
    split; [|split; [|by rewrite length_insert]].
    + intros j Hj Hjn. rewrite Hsame by done.
      destruct (decide (j = m)) as [->|Hne].
      * exists fm, sm. split; [done|]. split; [done|].
        by apply list_lookup_insert_eq.
      * rewrite list_lookup_insert_ne by done. apply HQ; lia.
    + intros j f0j Hj. rewrite filter_app, foldl_app.
      rewrite (pass_up_ext Xup f _ f0j
                 (filter (λ k, parent_index h robot k = Some j)
                    (reverse (seq (S m) (n - S m))))) by
        (intros k Hk; apply list_elem_of_filter in Hk as [_ Hk];
         apply Hsame; specialize (Hgt k Hk); lia).
      specialize (Hf j f0j Hj).
      destruct (decide (j = jp)) as [->|Hne].
      * rewrite filter_cons_True by done. simpl.
        rewrite list_lookup_insert_eq by (by eapply lookup_lt_Some).
        unfold pass_up at 1. rewrite HXm, Hsame, Hfm by done.
        rewrite Hfp in Hf. by injection Hf as <-.
      * rewrite filter_cons_False by congruence. simpl.
        by rewrite list_lookup_insert_ne by done.
  - subst f'. split; [|split; [|done]].
    + intros j Hj Hjn. destruct (decide (j = m)) as [->|Hne].
      * exists fm, sm. split; [done|]. split; [done|].
        by apply list_lookup_insert_eq.
      * rewrite list_lookup_insert_ne by done. apply HQ; lia.
    + intros j f0j Hj. rewrite filter_app.
      rewrite filter_cons_False by congruence. simpl. rewrite app_nil_r.
      by apply Hf.
Qed.

Lemma backward_inv_run h robot s Xup f0 n m :
  ∀ Q f Q' f',
    m ≤ n →
    (∀ j jp, j < n → parent_index h robot j = Some jp → jp < j) →
    backward_inv h robot s Xup f0 n m Q f →
    foldl (rne_backward h robot s Xup) (Ok (Q, f)) (reverse (seq 0 m))
      = Ok (Q', f') →
    backward_inv h robot s Xup f0 n 0 Q' f'.
Proof.
  induction m as [|m IH]; intros Q f Q' f' Hm Hord Hinv.
  - simpl. by intros [= <- <-].
  - rewrite seq_S, reverse_snoc. simpl.
    destruct (rne_backward h robot s Xup (Ok (Q, f)) m)
      as [[Q1 f1]| |] eqn:Hstep.
    + intros Hrest. apply (IH Q1 f1); [lia | done | | done].
      eapply backward_inv_step; [| |done|done]; [lia | done].
    + by rewrite rne_backward_Raise.
    + by rewrite rne_backward_Diverge.
Qed.

Lemma reverse_seq_split j n :
  j < n →
  reverse (seq 0 n) = reverse (seq (S j) (n - S j)) ++ j :: reverse (seq 0 j).
Proof.
  intros Hj. replace n with (j + (1 + (n - S j))) at 1 by lia.
  rewrite !seq_app, !reverse_app. simpl.
  by rewrite Nat.add_1_r, <- app_assoc.
Qed.

Lemma rne_backward_final h robot s Xup Q0 f0 n Q f :
  (∀ j jp, j < n → parent_index h robot j = Some jp → jp < j) →
  foldl (rne_backward h robot s Xup) (Ok (Q0, f0)) (reverse (seq 0 n))
    = Ok (Q, f) →
  ∀ j, j < n →
    ∃ fj sj f0j,
      f !! j = Some fj ∧ subspace s j = Ok sj ∧ f0 !! j = Some f0j
      ∧ Q !! j = Some (sum_prod (force_A fj) sj)
      ∧ fj = foldl (pass_up Xup f) f0j (children_desc h robot n j).
Proof.
  intros Hord Hrun j Hj.
  assert (backward_inv h robot s Xup f0 n n Q0 f0) as Hinv.
  { split; [intros; lia|]. split; [|done]. intros i f0i Hi.
    by rewrite Nat.sub_diag. }
  destruct (backward_inv_run _ _ _ _ _ _ _ _ _ _ _ (le_n _) Hord Hinv Hrun)
    as (HQ & Hf & Hlen).
  destruct (HQ j (Nat.le_0_l _) Hj) as (fj & sj & Hfj & Hsj & HQj).
  assert (is_Some (f0 !! j)) as [f0j Hf0].
  { apply lookup_lt_is_Some. rewrite <- Hlen. by eapply lookup_lt_Some. }
  exists fj, sj, f0j. repeat split; try done.
  specialize (Hf j f0j Hf0). rewrite Nat.sub_0_r in Hf.
  unfold children_desc. congruence.
Qed.

(** C9: the backward pass goes through the indices [n - 1], ..., [0]: the
    turn of [j] starts from what the turns of [n - 1], ..., [j + 1] left.
    That turn sets [Q[j]] to the sum of the products of the components of
    the force [f[j]] and of the subspace vector [s[j]], and, when the link
    has a parent of index [p], adds [Xup[j] * f[j]] to [f[p]].
    When parents come before their children in the index order, the pass
    ends with every [Q[j]] computed from the final [f[j]], which is the
    force the forward pass left there with [Xup[k] * f[k]] added for every
    link [k] whose parent has index [j], highest [k] first. *)
Theorem rne_backward_pass h robot s Xup Q0 f0 n Q f :
  foldl (rne_backward h robot s Xup) (Ok (Q0, f0)) (reverse (seq 0 n))
    = Ok (Q, f) →
  (∀ j, j < n →
     ∃ Qa fa Qb fb fj sj,
       foldl (rne_backward h robot s Xup) (Ok (Q0, f0))
         (reverse (seq (S j) (n - S j))) = Ok (Qa, fa)
       ∧ rne_backward h robot s Xup (Ok (Qa, fa)) j = Ok (Qb, fb)
       ∧ foldl (rne_backward h robot s Xup) (Ok (Qb, fb))
           (reverse (seq 0 j)) = Ok (Q, f)
       ∧ fa !! j = Some fj ∧ subspace s j = Ok sj
       ∧ Qb = <[j := sum_prod (force_A fj) sj]> Qa
       ∧ match parent_index h robot j with
         | None => fb = fa
         | Some p =>
             ∃ fp Xj, fa !! p = Some fp ∧ Xup !! j = Some Xj
                      ∧ fb = <[p := force_add fp (xforce Xj fj)]> fa
         end)
  ∧ ((∀ j p, j < n → parent_index h robot j = Some p → p < j) →
     ∀ j, j < n →
       ∃ fj sj f0j,
         f !! j = Some fj ∧ subspace s j = Ok sj ∧ f0 !! j = Some f0j
         ∧ Q !! j = Some (sum_prod (force_A fj) sj)
         ∧ fj = foldl (pass_up Xup f) f0j (children_desc h robot n j)).
Proof.
  intros Hrun. split; [|intros Hord; by eapply rne_backward_final].
  intros j Hj. rewrite (reverse_seq_split j n Hj), foldl_app in Hrun.
  simpl in Hrun.
  destruct (foldl (rne_backward h robot s Xup) (Ok (Q0, f0))
              (reverse (seq (S j) (n - S j)))) as [[Qa fa]| |] eqn:Ha.
  - destruct (rne_backward h robot s Xup (Ok (Qa, fa)) j)
      as [[Qb fb]| |] eqn:Hb.
    + destruct (rne_backward_step _ _ _ _ _ _ _ _ _ Hb)
        as (fj & sj & Hfj & Hsj & HQ & _ & Hp).
      exists Qa, fa, Qb, fb, fj, sj. by repeat split.
    + by rewrite rne_backward_Raise in Hrun.
    + by rewrite rne_backward_Diverge in Hrun.
  - assert (rne_backward h robot s Xup (Raise e) j = Raise e) as Hr by done.
    by rewrite Hr, rne_backward_Raise in Hrun.
  - assert (rne_backward h robot s Xup Diverge j = Diverge) as Hr by done.
    by rewrite Hr, rne_backward_Diverge in Hrun.
Qed.

End RneClaims.

Section RneExamples.
Import ZModel.

Lemma rne_backward_pass_witness :
  ∃ Q f,
    foldl (rne_backward ht [0; 1] sample_s sample_Xup)
      (Ok (sample_Q0, sample_f0)) (reverse (seq 0 2)) = Ok (Q, f)
    ∧ f !! 0 = Some ([3; 3; 0; 0; 0; 0]%Z : list Z)
    ∧ Q !! 0 = Some 3%Z.
Proof.
  destruct (foldl (rne_backward ht [0; 1] sample_s sample_Xup)
              (Ok (sample_Q0, sample_f0)) (reverse (seq 0 2)))
    as [[Q f]| |] eqn:Hrun; [|vm_compute in Hrun; discriminate..].
  exists Q, f. split; [reflexivity|].
  destruct (rne_backward_pass ht [0; 1] sample_s sample_Xup sample_Q0
              sample_f0 2 Q f Hrun) as [Hturn Hend].
  destruct (Hend) with (j := 0)
    as (fj & sj & f0j & Hfj & Hsj & Hf0 & HQ & Hacc).
  - intros [|[|j]] jp Hj Hp; [discriminate Hp | | lia].
    vm_compute in Hp. injection Hp as <-. lia.
  - lia.
  - vm_compute in Hrun. injection Hrun as <- <-. split; reflexivity.
Defined.

End RneExamples.
(** ** Construction: the joint indices *)

Section InitClaims.
Context {N : Numerics}.

(** *** The traversal keeps what every visit keeps *)

Lemma vis_children_inv {S} (func : ref → heap * S → outcome (heap * S))
    (P : list ref → heap * S → Prop) :
  (∀ visited hs l hs',
     l ∉ visited → P visited hs → func l hs = Ok hs' → P (visited ++ [l]) hs') →
  ∀ fuel l st st',
    l ∉ st.1 → P st.1 st.2 →
    vis_children fuel func l st = Ok st' → P st'.1 st'.2.
Proof.
  intros Hvisit. induction fuel as [|fuel IH]; intros l st st' Hl HP; simpl;
    [discriminate|].
  munfold. destruct (func l st.2) as [hs| |] eqn:Hf; try discriminate.
  destruct (deref hs.1 l) as [x| |]; try discriminate.
  pose proof (Hvisit _ _ _ _ Hl HP Hf) as HP1.
  assert (∀ cs st1 st2,
            P st1.1 st1.2 →
            foldl (λ acc li,
                     match acc with
                     | Ok a =>
                         if bool_decide (li ∈ a.1) then Ok a
                         else vis_children fuel func li a
                     | Raise e => Raise e
                     | Diverge => Diverge
                     end) (Ok st1) cs = Ok st2 →
            P st2.1 st2.2) as Hloop.
  { induction cs as [|c cs IHcs]; intros st1 st2 H1; simpl.
    - by intros [= <-].
    - case_bool_decide as Hc.
      + by apply IHcs.
      + destruct (vis_children fuel func c st1) as [st1'| |] eqn:Hrec.
        * apply IHcs. by eapply IH.
        * intros Hbad. exfalso. clear -Hbad.
          induction cs; simpl in Hbad; [discriminate | auto].
        * intros Hbad. exfalso. clear -Hbad.
          induction cs; simpl in Hbad; [discriminate | auto]. }
  apply (Hloop _ (st.1 ++ [l], hs)). exact HP1.
Qed.

(** *** Every visit keeps [visit_inv] *)

Lemma joint_indices_app h p q :
  joint_indices h (p ++ q) = joint_indices h p ++ joint_indices h q.
Proof. unfold joint_indices. apply omap_app. Qed.

Lemma joint_indices_cons h l ls :
  joint_indices h (l :: ls)
  = option_list (h !! l ≫= λ x, if isjoint x then jindex x else None)
    ++ joint_indices h ls.
Proof.
  unfold joint_indices. simpl.
  by destruct (h !! l ≫= _).
Qed.

Lemma joint_indices_insert h l y ls :
  l ∉ ls → joint_indices (<[l := y]> h) ls = joint_indices h ls.
Proof.
  intros Hl. induction ls as [|a ls IH]; [done|].
  apply not_elem_of_cons in Hl as [Hne Hl].
  rewrite !joint_indices_cons, IH by done.
  by rewrite list_lookup_insert_ne by done.
Qed.

Lemma same_but_jindex_refl h : same_but_jindex h h.
Proof. split; [done|]. intros l x Hx. eauto. Qed.

Lemma same_but_jindex_set h h' l x j :
  same_but_jindex h h' → h' !! l = Some x →
  same_but_jindex h (<[l := set_jindex j x]> h').
Proof.
  intros [Hlen Hsame] Hx. split; [by rewrite length_insert|].
  intros l' y Hy. destruct (Hsame l' y Hy) as (y' & Hy' & Hj & Hc).
  destruct (decide (l' = l)) as [->|Hne].
  - rewrite list_lookup_insert_eq by (by eapply lookup_lt_Some).
    assert (y' = x) as -> by congruence. eauto.
  - rewrite list_lookup_insert_ne by done. eauto.
Qed.

Lemma visit_link_inv h links visited st l st' :
  l ∉ visited → visit_inv h links visited st →
  visit_link links l st = Ok st' → visit_inv h links (visited ++ [l]) st'.
Proof.
  destruct st as [h' [j orlinks]]. intros Hl (Hnd & Hor & Hsame & Hj & Hidx).
  unfold visit_link, deref. munfold.
  destruct (h' !! l) as [x|] eqn:Hx; simpl; [|discriminate].
  assert (l ∉ orlinks) as Hlor.
  { rewrite Hor. intros Hin. apply list_elem_of_filter in Hin as [_ Hin]. done. }
  assert (NoDup (visited ++ [l])) as Hnd'.
  { apply NoDup_app. split; [done|]. split; [|apply NoDup_singleton].
    intros y Hy Hyl. apply list_elem_of_singleton in Hyl as ->. done. }
  assert (link_isjoint h l = isjoint x) as Hjx.
  { destruct Hsame as [Hlen Hs]. unfold link_isjoint.
    destruct (h !! l) as [x0|] eqn:Hx0.
    - destruct (Hs l x0 Hx0) as (x' & Hx' & Hij & _). simpl. congruence.
    - apply lookup_ge_None in Hx0. apply lookup_lt_Some in Hx. lia. }
  case_bool_decide as Hin; destruct (isjoint x) eqn:Hjoint; simpl;
    intros [= <-]; (split; [done|]); rewrite filter_app, <- Hor;
    [rewrite filter_cons_True by done
    |rewrite filter_cons_True by done
    |rewrite filter_cons_False by done
    |rewrite filter_cons_False by done]; simpl; rewrite ?app_nil_r.
  - split; [done|]. split; [by apply same_but_jindex_set|].
    unfold joints_of. rewrite filter_app, length_app.
    rewrite filter_cons_True by congruence. simpl.
    split; [unfold joints_of in Hj; lia|].
    rewrite joint_indices_app, joint_indices_insert by done.
    rewrite Hidx, seq_app. f_equal. unfold joint_indices. simpl.
    rewrite list_lookup_insert_eq by (by eapply lookup_lt_Some). simpl.
    by rewrite Hjoint.
  - split; [done|]. split; [done|].
    unfold joints_of. rewrite filter_app, length_app.
    rewrite filter_cons_False by congruence. simpl.
    split; [unfold joints_of in Hj; lia|].
    rewrite joint_indices_app, Hidx. unfold joint_indices at 1. simpl.
    rewrite Hx. simpl. rewrite Hjoint. by rewrite app_nil_r.
  - done.
  - done.
Qed.

(** *** The traversal reaches every link below its start *)

Lemma vis_loop_strict {S} (body : (list ref * (heap * S)) → ref →
                                  outcome (list ref * (heap * S))) cs o :
  (∀ a, o ≠ Ok a) →
  foldl (λ acc li, match acc with
                   | Ok a => body a li
                   | Raise e => Raise e
                   | Diverge => Diverge
                   end) o cs = o.
Proof.
  intros Ho. induction cs as [|c cs IH]; simpl; [done|].
  destruct o as [a| |]; [by destruct (Ho a) | apply IH | apply IH].
Qed.

Lemma vis_children_closed {S} (func : ref → heap * S → outcome (heap * S)) :
  keeps_children func →
  ∀ fuel l st st',
    vis_children fuel func l st = Ok st' →
    (∃ ext, st'.1 = st.1 ++ l :: ext
            ∧ ∀ y c, y ∈ l :: ext → c ∈ children_of st.2.1 y → c ∈ st'.1)
    ∧ ∀ x, children_of st'.2.1 x = children_of st.2.1 x.
Proof.
  intros Hkeep. induction fuel as [|fuel IH]; intros l st st'; simpl;
    [discriminate|].
  munfold. destruct (func l st.2) as [hs| |] eqn:Hf; try discriminate.
  pose proof (Hkeep _ _ _ Hf) as Hch.
  unfold deref. destruct (hs.1 !! l) as [x|] eqn:Hx; [|discriminate].
  assert (∀ cs st1 st2,
            (∀ y, children_of st1.2.1 y = children_of st.2.1 y) →
            foldl (λ acc li,
                     match acc with
                     | Ok a =>
                         if bool_decide (li ∈ a.1) then Ok a
                         else vis_children fuel func li a
                     | Raise e => Raise e
                     | Diverge => Diverge
                     end) (Ok st1) cs = Ok st2 →
            (∃ ext, st2.1 = st1.1 ++ ext
                    ∧ (∀ c, c ∈ cs → c ∈ st2.1)
                    ∧ ∀ y c, y ∈ ext → c ∈ children_of st.2.1 y → c ∈ st2.1)
            ∧ ∀ y, children_of st2.2.1 y = children_of st.2.1 y) as Hloop.
  { induction cs as [|c cs IHcs]; intros st1 st2 H1; simpl.
    - intros [= <-]. split; [|done]. exists []. rewrite app_nil_r.
      split; [done|]. split.
      + intros c Hin. by apply elem_of_nil in Hin.
      + intros y c Hin _. by apply elem_of_nil in Hin.
    - case_bool_decide as Hc.
      + intros Hrest. destruct (IHcs _ _ H1 Hrest) as [(ext & He & Hcs & Hcl) Hk].
        split; [|done]. exists ext. split; [done|]. split; [|done].
        intros c' Hc'. apply elem_of_cons in Hc' as [->|Hc']; [|by apply Hcs].
        rewrite He. apply elem_of_app. by left.
      + destruct (vis_children fuel func c st1) as [st1'| |] eqn:Hrec;
          [|intros Hbad; rewrite vis_loop_strict in Hbad by done; discriminate..].
        intros Hrest.
        destruct (IH _ _ _ Hrec) as [(ext1 & He1 & Hcl1) Hk1].
        assert (∀ y, children_of st1'.2.1 y = children_of st.2.1 y) as H1'.
        { intros y. by rewrite Hk1. }
        destruct (IHcs _ _ H1' Hrest) as [(ext2 & He2 & Hcs & Hcl2) Hk2].
        split; [|done]. exists ((c :: ext1) ++ ext2).
        split; [by rewrite He2, He1, <- app_assoc|].
        assert (∀ z, z ∈ st1'.1 → z ∈ st2.1) as Hmono.
        { intros z Hz. rewrite He2. apply elem_of_app. by left. }
        split.
        * intros c' Hc'. apply elem_of_cons in Hc' as [->|Hc']; [|by apply Hcs].
          apply Hmono. rewrite He1. apply elem_of_app. right.
          apply elem_of_cons. by left.
        * intros y c' Hy Hc'. apply elem_of_app in Hy as [Hy|Hy].
          -- apply Hmono. apply (Hcl1 y c' Hy). by rewrite H1.
          -- by apply (Hcl2 y c'). }
  intros Hrun.
  destruct (Hloop (_children x) (st.1 ++ [l], hs) st' Hch Hrun)
    as [(ext & He & Hcs & Hcl) Hk].
  split; [|done]. exists ext. simpl in He.
  split; [by rewrite He, <- app_assoc|].
  intros y c Hy Hc. apply elem_of_cons in Hy as [->|Hy]; [|by apply (Hcl y c)].
  apply Hcs. rewrite <- Hch in Hc. unfold children_of in Hc.
  by rewrite Hx in Hc.
Qed.

Lemma dfs_links_reaches {S} (func : ref → heap * S → outcome (heap * S))
    h base s visited hs l :
  keeps_children func →
  dfs_links h (Some base) func s = Ok (visited, hs) →
  reachable h base l → l ∈ visited.
Proof.
  intros Hkeep Hdfs. unfold dfs_links in Hdfs.
  destruct (vis_children_closed _ Hkeep _ _ _ _ Hdfs) as [(ext & He & Hcl) _].
  simpl in He, Hcl. subst visited.
  induction 1 as [|p c _ IH Hc].
  - apply elem_of_cons. by left.
  - by apply (Hcl p c).
Qed.

Lemma children_of_insert_jindex h l x j y :
  h !! l = Some x →
  children_of (<[l := set_jindex j x]> h) y = children_of h y.
Proof.
  intros Hx. unfold children_of. destruct (decide (y = l)) as [->|Hne].
  - rewrite list_lookup_insert_eq by (by eapply lookup_lt_Some).
    by rewrite Hx.
  - by rewrite list_lookup_insert_ne by done.
Qed.

Lemma visit_link_keeps_children links : keeps_children (visit_link links).
Proof.
  intros l [h [j orl]] hs'. unfold visit_link, deref. munfold.
  destruct (h !! l) as [x|] eqn:Hx; simpl; [|discriminate].
  destruct (isjoint x && bool_decide (l ∈ links)); intros [= <-] y; simpl;
    [by apply children_of_insert_jindex | done].
Qed.

(** *** The check of given indices *)

Lemma check_jindex_Raise e xs : foldl check_jindex (Raise e) xs = Raise e.
Proof. induction xs; simpl; [done|]. apply IHxs. Qed.

Lemma filter_isjoint_cons (x : ELink) xs :
  filter (λ x, isjoint x) (x :: xs)
  = if isjoint x then x :: filter (λ x, isjoint x) xs
    else filter (λ x, isjoint x) xs.
Proof.
  destruct (isjoint x) eqn:E.
  - apply filter_cons_True. by rewrite E.
  - apply filter_cons_False. rewrite E. by intros [].
Qed.

Lemma check_jindex_run xs :
  ∀ jset jset',
    foldl check_jindex (Ok jset) xs = Ok jset' →
    NoDup (joint_idx xs) ∧ (∀ j, j ∈ joint_idx xs → j ∈ jset)
    ∧ length (joint_idx xs) = length (filter (λ x, isjoint x) xs).
Proof.
  induction xs as [|x xs IH]; intros jset jset'; simpl.
  - intros _. split; [constructor|]. split; [|done].
    intros j Hj. by apply elem_of_nil in Hj.
  - unfold check_jindex at 1. munfold. unfold joint_idx. simpl.
    rewrite filter_isjoint_cons.
    destruct (isjoint x) eqn:Hjoint; simpl.
    + destruct (jindex x) as [j|] eqn:Hidx; simpl;
        [|by rewrite check_jindex_Raise].
      case_bool_decide as Hin; simpl; [|by rewrite check_jindex_Raise].
      intros Hrest. destruct (IH _ _ Hrest) as (Hnd & Hsub & Hlen).
      split; [|split; [|by f_equal]].
      * apply NoDup_cons. split; [|done]. intros Hj.
        specialize (Hsub j Hj). apply elem_of_difference in Hsub as [_ Hsub].
        apply Hsub. by apply elem_of_singleton.
      * intros j' Hj'. apply elem_of_cons in Hj' as [->|Hj']; [done|].
        specialize (Hsub j' Hj'). by apply elem_of_difference in Hsub as [? _].
    + intros Hrest. destruct (IH _ _ Hrest) as (Hnd & Hsub & Hlen).
      split; [done|]. split; [|done].
      intros j' Hj'. specialize (Hsub j' Hj').
      destruct (jindex x); [|done].
      by apply elem_of_difference in Hsub as [? _].
Qed.

Lemma derefs_Ok h ls xs :
  derefs h ls = Ok xs → Forall2 (λ l x, h !! l = Some x) ls xs.
Proof.
  revert xs. induction ls as [|l ls IH]; intros xs; simpl.
  - intros [= <-]. constructor.
  - unfold deref. munfold. destruct (h !! l) as [x|] eqn:Hx; [|discriminate].
    destruct (derefs h ls) as [xs'| |]; try discriminate.
    intros [= <-]. constructor; [done | by apply IH].
Qed.

Lemma joint_indices_derefs h ls xs :
  derefs h ls = Ok xs → joint_indices h ls = joint_idx xs.
Proof.
  intros Hd. apply derefs_Ok in Hd. unfold joint_indices, joint_idx.
  apply list_omap_ext.
  induction Hd as [|l x ls xs Hx _ IH]; constructor; [|done].
  by rewrite Hx.
Qed.

Lemma count_joints_derefs h ls xs :
  derefs h ls = Ok xs →
  count_joints h ls = length (filter (λ x, isjoint x) xs).
Proof.
  intros Hd. apply derefs_Ok in Hd.
  induction Hd as [|l x ls xs Hx _ IH]; [done|]. simpl.
  unfold link_isjoint. rewrite Hx. simpl. rewrite IH, filter_isjoint_cons.
  by destruct (isjoint x).
Qed.

Lemma count_joints_joints_of h ls :
  count_joints h ls = length (joints_of h ls).
Proof.
  unfold joints_of. induction ls as [|l ls IH]; [done|]. simpl.
  destruct (link_isjoint h l) eqn:Hj.
  - rewrite filter_cons_True by done. simpl. by rewrite IH.
  - rewrite filter_cons_False by congruence. by rewrite IH.
Qed.

(** Distinct indices below [n], [n] of them, are the indices
    [0], ..., [n - 1]. *)
Lemma indices_exact (l : list nat) n :
  NoDup l → (∀ j, j ∈ l → j < n) → length l = n → l ≡ₚ seq 0 n.
Proof.
  intros Hnd Hb Hlen. apply submseteq_length_Permutation.
  - apply NoDup_submseteq; [done|]. intros j Hj. apply elem_of_seq.
    specialize (Hb j Hj). lia.
  - rewrite length_seq. lia.
Qed.

Lemma count_joints_Permutation h l1 l2 :
  l1 ≡ₚ l2 → count_joints h l1 = count_joints h l2.
Proof.
  intros Hp. rewrite !count_joints_joints_of. unfold joints_of.
  by rewrite Hp.
Qed.

Lemma forallb_false_elem {X} (f : X → bool) (l : list X) x :
  x ∈ l → f x = false → forallb f l = false.
Proof.
  intros Hx Hf. destruct (forallb f l) eqn:Hall; [|done].
  rewrite forallb_forall in Hall. apply list_elem_of_In in Hx.
  specialize (Hall x Hx). congruence.
Qed.

Lemma forallb_true_Forall {X} (f : X → bool) (l : list X) :
  Forall (λ x, f x = true) l → forallb f l = true.
Proof.
  intros Hall. apply forallb_forall. intros x Hx.
  rewrite Forall_forall in Hall. apply Hall. by apply list_elem_of_In.
Qed.

(** C5 (as the code has it), for the links [xs] the robot keeps:
    - when no link has an index, [orlinks] lists them in the order the
      depth-first traversal from the base visits them, and the joints
      among them carry 0, 1, 2, ... in that order; when the child lists
      lead from the base to every link, the indices of the joints are
      exactly 0, ..., n - 1;
    - when some link has an index and [checkjindex] is on, a
      construction that goes through has left the links as given, and
      the indices of the joints are distinct and below [n], hence
      exactly 0, ..., n - 1;
    - when one joint has an index and another has none, the
      construction raises. *)
Theorem joint_indices_assigned h links base n checkjindex xs :
  derefs h links = Ok xs →
  (Forall (λ x, jindex x = None) xs →
   ∀ b h' orlinks,
     base = Some b →
     assign_jindex h links base n checkjindex = Ok (h', orlinks) →
     ∃ visited j,
       dfs_links h base (visit_link links) (0, [])
         = Ok (visited, (h', (j, orlinks)))
       ∧ orlinks = filter (λ l, l ∈ links) visited
       ∧ joint_indices h' orlinks = seq 0 (count_joints h orlinks)
       ∧ (NoDup links → (∀ l, l ∈ links → reachable h b l) →
          count_joints h links = n →
          joint_indices h' links ≡ₚ seq 0 n))
  ∧ (¬ Forall (λ x, jindex x = None) xs → checkjindex = true →
     ∀ h' orlinks,
       assign_jindex h links base n checkjindex = Ok (h', orlinks) →
       h' = h ∧ orlinks = links
       ∧ NoDup (joint_indices h links)
       ∧ (∀ j, j ∈ joint_indices h links → j < n)
       ∧ length (joint_indices h links) = count_joints h links
       ∧ (count_joints h links = n → joint_indices h links ≡ₚ seq 0 n))
  ∧ (∀ a b,
       a ∈ xs → b ∈ xs → isjoint a = true → isjoint b = true →
       jindex a ≠ None → jindex b = None →
       assign_jindex h links base n checkjindex
       = Raise (ValueError
                  "all links must have a jindex, or none have a jindex")).
Proof.
  intros Hd. split; [|split].
  - intros Hnone b h' orlinks -> Hassign.
    unfold assign_jindex in Hassign. munfold. rewrite Hd in Hassign.
    rewrite forallb_true_Forall in Hassign
      by (eapply Forall_impl; [exact Hnone|];
          intros x Hx; by apply bool_decide_eq_true).
    destruct (dfs_links h (Some b) (visit_link links) (0, []))
      as [[visited [h1 [j orl]]]| |] eqn:Hdfs; try discriminate.
    injection Hassign as -> ->.
    assert (visit_inv h links visited (h', (j, orlinks))) as Hinv.
    { pose proof (vis_children_inv (visit_link links) (visit_inv h links)
               (λ _ _ _ _, visit_link_inv h links _ _ _ _)
               (length h) b ([], (h, (0, [])))
               (visited, (h', (j, orlinks)))) as Hrun.
      apply Hrun; [| |exact Hdfs].
      - apply not_elem_of_nil.
      - simpl. split; [constructor|]. split; [done|].
        split; [apply same_but_jindex_refl|]. done. }
    destruct Hinv as (Hnd & Hor & Hsame & Hj & Hidx).
    exists visited, j. split; [done|]. split; [done|].
    rewrite count_joints_joints_of, <- Hj. split; [done|].
    intros Hndl Hreach Hn.
    assert (orlinks ≡ₚ links) as Hperm.
    { apply NoDup_Permutation; [rewrite Hor; by apply NoDup_filter | done |].
      intros l. rewrite Hor, list_elem_of_filter. split; [by intros [? _]|].
      intros Hl. split; [done|].
      eapply dfs_links_reaches; [apply visit_link_keeps_children | exact Hdfs |].
      by apply Hreach. }
    rewrite <- Hn, <- (count_joints_Permutation h _ _ Hperm).
    rewrite count_joints_joints_of, <- Hj, <- Hidx.
    unfold joint_indices. by rewrite Hperm.
  - intros Hsome -> h' orlinks Hassign.
    unfold assign_jindex in Hassign. munfold. rewrite Hd in Hassign.
    destruct (forallb (λ x, bool_decide (jindex x = None)) xs) eqn:Hall.
    { exfalso. apply Hsome. apply Forall_forall. intros x Hx.
      rewrite forallb_forall in Hall. apply list_elem_of_In in Hx.
      specialize (Hall x Hx). by apply bool_decide_eq_true in Hall. }
    destruct (forallb _ (filter _ xs)); [|discriminate].
    destruct (foldl check_jindex (Ok (list_to_set (seq 0 n))) xs)
      as [jset| |] eqn:Hcheck; try discriminate.
    case_bool_decide; [discriminate|]. injection Hassign as <- <-.
    destruct (check_jindex_run _ _ _ Hcheck) as (Hnd & Hsub & Hlen).
    rewrite (joint_indices_derefs _ _ _ Hd), (count_joints_derefs _ _ _ Hd).
    assert (∀ j, j ∈ joint_idx xs → j < n) as Hlt.
    { intros j Hj. specialize (Hsub j Hj).
      apply elem_of_list_to_set, elem_of_seq in Hsub. lia. }
    repeat split; try done.
    intros Hn. apply indices_exact; [done | done | congruence].
  - intros a b Ha Hb Hja Hjb Hia Hib.
    unfold assign_jindex. munfold. rewrite Hd.
    rewrite (forallb_false_elem _ _ a Ha)
      by (by apply bool_decide_eq_false).
    rewrite (forallb_false_elem _ (filter _ xs) b); [done| |].
    + apply list_elem_of_filter. by rewrite Hjb.
    + apply bool_decide_eq_false. by intros [].
Qed.

End InitClaims.

Section InitExamples.
Import ZModel.

(** Counterexample to C5 as stated: with [checkjindex] off, joints given
    the indices 5 and 7 are accepted as they are. *)
Lemma unchecked_indices_accepted :
  ∃ h r,
    indexed (Some 5) (Some 7) false = Ok (h, r)
    ∧ _n r = 2
    ∧ joint_indices h (links r) = [5; 7].
Proof. eexists _, _. split; [reflexivity|]. split; reflexivity. Qed.

Lemma joint_indices_assigned_witness :
  (let h := linked branched_links [0; 1; 2; 3; 4] in
   ∃ h' orlinks,
     assign_jindex h [0; 1; 2; 3; 4] (Some 0) 3 true = Ok (h', orlinks)
     ∧ orlinks = [0; 1; 2; 3; 4]
     ∧ joint_indices h' orlinks = [0; 1; 2]
     ∧ joint_indices h' [0; 1; 2; 3; 4] ≡ₚ seq 0 3)
  ∧ (let h := linked (indexed_links (Some 1) (Some 0)) [0; 1] in
     assign_jindex h [0; 1] (Some 0) 2 true = Ok (h, [0; 1])
     ∧ joint_indices h [0; 1] ≡ₚ seq 0 2)
  ∧ (let h := linked (indexed_links (Some 0) None) [0; 1] in
     assign_jindex h [0; 1] (Some 0) 2 true
     = Raise (ValueError
                "all links must have a jindex, or none have a jindex")).
Proof.
  split; [|split].
  - intros h.
    destruct (joint_indices_assigned h [0; 1; 2; 3; 4] (Some 0) 3 true h
                eq_refl) as (HA & _ & _).
    eexists _, _. split; [reflexivity|].
    destruct (HA ltac:(repeat constructor) 0 _ _ eq_refl eq_refl)
      as (visited & j & Hdfs & Hor & Hidx & Hperm).
    split; [reflexivity|]. split; [reflexivity|].
    apply Hperm; [| |reflexivity].
    + apply (bool_decide_unpack _). vm_compute. exact I.
    + assert (reachable h 0 0) as H0 by constructor.
      assert (reachable h 0 1) as H1.
      { apply (reachable_child h 0 0 1 H0).
        apply (bool_decide_unpack _). vm_compute. exact I. }
      assert (reachable h 0 3) as H3.
      { apply (reachable_child h 0 0 3 H0).
        apply (bool_decide_unpack _). vm_compute. exact I. }
      assert (reachable h 0 2) as H2.
      { apply (reachable_child h 0 1 2 H1).
        apply (bool_decide_unpack _). vm_compute. exact I. }
      assert (reachable h 0 4) as H4.
      { apply (reachable_child h 0 3 4 H3).
        apply (bool_decide_unpack _). vm_compute. exact I. }
      intros l Hl. rewrite !elem_of_cons in Hl.
      destruct Hl as [->|[->|[->|[->|[->|Hl]]]]]; try done.
      by apply elem_of_nil in Hl.
  - intros h.
    destruct (joint_indices_assigned h [0; 1] (Some 0) 2 true h eq_refl)
      as (_ & HB & _).
    split; [reflexivity|].
    assert (¬ Forall (λ x : ELink, jindex x = None) h) as Hsome.
    { intros H. pose proof (Forall_lookup_1 _ _ 0 _ H eq_refl) as H0.
      vm_compute in H0. discriminate H0. }
    apply (HB Hsome eq_refl h [0; 1] eq_refl). reflexivity.
  - intros h.
    destruct (joint_indices_assigned h [0; 1] (Some 0) 2 true h eq_refl)
      as (_ & _ & HC).
    eapply (HC _ _ (list_elem_of_lookup_2 h 0 _ eq_refl)
              (list_elem_of_lookup_2 h 1 _ eq_refl)).
    + reflexivity.
    + reflexivity.
    + intros H. vm_compute in H. discriminate H.
    + reflexivity.
Defined.

End InitExamples.
(** * Further properties

    ** The path cache and the resolution of [end] *)

Section PathExtras.
Context {N : Numerics}.

Lemma getlink_with_cache_end e t r a d :
  _getlink (with_cache_end e t r) a d = _getlink r a d.
Proof. reflexivity. Qed.

Lemma getlink_with_cache_start s r a d :
  _getlink (with_cache_start s r) a d = _getlink r a d.
Proof. reflexivity. Qed.

Lemma getlink_with_path_cache c cf r a d :
  _getlink (with_path_cache c cf r) a d = _getlink r a d.
Proof. reflexivity. Qed.

Ltac getlink_norm :=
  rewrite ?getlink_with_cache_end, ?getlink_with_cache_start,
    ?getlink_with_path_cache in *.

Lemma get_limit_links_again end_ start r o r1 :
  _get_limit_links end_ start r = (o, r1) →
  _get_limit_links end_ start r1 = (o, r1).
Proof.
  unfold _get_limit_links. munfold. intros H.
  destruct end_, start; simpl in *; getlink_norm;
    repeat (case_match; simplify_eq/=; getlink_norm); try reflexivity.
Qed.

Lemma get_limit_links_with_path_cache end_ start c cf r o r1 :
  _get_limit_links end_ start r = (o, r1) →
  _get_limit_links end_ start (with_path_cache c cf r)
  = (o, with_path_cache c cf r1).
Proof.
  unfold _get_limit_links. munfold. intros H.
  destruct end_, start; simpl in *; getlink_norm;
    repeat (case_match; simplify_eq/=; getlink_norm); try reflexivity.
Qed.

Lemma with_path_cache_eta r :
  with_path_cache (_path_cache r) (_path_cache_fknm r) r = r.
Proof. by destruct r. Qed.

(** What a call of [get_path] that returns has done: resolved the two
    links, and left their entry in both caches. *)
Lemma get_path_stores h end_ start fknm r res r2 :
  get_path h end_ start fknm r = (Ok res, r2) →
  ∃ e s tool r1 sl el,
    _get_limit_links end_ start r = (Ok (Some e, Some s, tool), r1)
    ∧ h !! s = Some sl ∧ h !! e = Some el
    ∧ r2 = with_path_cache (_path_cache r2) (_path_cache_fknm r2) r1
    ∧ if fknm
      then ∃ p n t, res = PathFknm p n t
           ∧ cache_lookup (_path_cache_fknm r2) (name sl) (name el)
             = Some (p, n, t)
      else ∃ p n t, res = Path p n t
           ∧ cache_lookup (_path_cache r2) (name sl) (name el)
             = Some (p, n, t).
Proof.
  unfold get_path. munfold. intros H.
  destruct (_get_limit_links end_ start r) as [[[[e s] tool]| |] r1] eqn:Hlim;
    try discriminate.
  destruct s as [s|]; [|destruct e; discriminate].
  destruct e as [e|]; [|discriminate].
  unfold deref in H.
  destruct (h !! s) as [sl|] eqn:Hs; [|discriminate].
  destruct (h !! e) as [el|] eqn:He; [|discriminate].
  exists e, s, tool, r1, sl, el. do 3 (split; [done|]).
  destruct fknm.
  - destruct (cache_lookup (_path_cache_fknm r1) (name sl) (name el))
      as [[[p n] t]|] eqn:Hc; simpl in H.
    + injection H as <- <-. split; [by rewrite with_path_cache_eta|]. eauto.
    + destruct (walk_up _ _ _ _ _ _ _ _) as [[path n]| |]; simpl in H;
        try discriminate.
      injection H as <- <-. split; [reflexivity|]. simpl.
      eexists _, _, _. split; [reflexivity|].
      rewrite cache_lookup_store. by rewrite decide_True.
  - destruct (cache_lookup (_path_cache r1) (name sl) (name el))
      as [[[p n] t]|] eqn:Hc; simpl in H.
    + injection H as <- <-. split; [by rewrite with_path_cache_eta|]. eauto.
    + destruct (walk_up _ _ _ _ _ _ _ _) as [[path n]| |]; simpl in H;
        try discriminate.
      injection H as <- <-. split; [reflexivity|]. simpl.
      eexists _, _, _. split; [reflexivity|].
      rewrite cache_lookup_store. by rewrite decide_True.
Qed.

(** A call whose two links have an entry in the cache returns it. *)
Lemma get_path_hit h end_ start fknm r e s tool r1 sl el :
  _get_limit_links end_ start r = (Ok (Some e, Some s, tool), r1) →
  h !! s = Some sl → h !! e = Some el →
  (∀ p n t,
     cache_lookup (_path_cache_fknm r1) (name sl) (name el) = Some (p, n, t) →
     fknm = true →
     get_path h end_ start fknm r = (Ok (PathFknm p n t), r1))
  ∧ (∀ p n t,
     cache_lookup (_path_cache r1) (name sl) (name el) = Some (p, n, t) →
     fknm = false →
     get_path h end_ start fknm r = (Ok (Path p n t), r1)).
Proof.
  intros Hlim Hs He.
  split; intros p n t Hc ->; unfold get_path; munfold; rewrite Hlim;
    unfold deref; rewrite Hs, He, Hc; reflexivity.
Qed.

(** X1: a call of [get_path] that returned, made again, returns the same
    path, joint count and tool, and leaves the robot as it is. *)
Theorem get_path_again h end_ start fknm r res r2 :
  get_path h end_ start fknm r = (Ok res, r2) →
  get_path h end_ start fknm r2 = (Ok res, r2).
Proof.
  intros H.
  destruct (get_path_stores _ _ _ _ _ _ _ H)
    as (e & s & tool & r1 & sl & el & Hlim & Hs & He & Hr2 & Hc).
  apply get_limit_links_again in Hlim.
  apply (get_limit_links_with_path_cache _ _ (_path_cache r2)
           (_path_cache_fknm r2)) in Hlim.
  rewrite <- Hr2 in Hlim.
  destruct (get_path_hit h _ _ fknm _ _ _ _ _ _ _ Hlim Hs He) as [Ht Hf].
  destruct fknm; destruct Hc as (p & n & t & -> & Hc); eauto.
Qed.

(** X2: the cache is keyed by the names of the two links alone. Once
    [get_path] has returned for a pair of links, every later call that
    resolves to the same pair returns the path, count and tool of the
    first call, whatever gripper tool the later call resolves. *)
Theorem get_path_cache_keeps_tool h end_ start r p n t r2 e s tool r1
    end' start' tool' r3 :
  get_path h end_ start false r = (Ok (Path p n t), r2) →
  _get_limit_links end_ start r = (Ok (Some e, Some s, tool), r1) →
  _get_limit_links end' start' r2 = (Ok (Some e, Some s, tool'), r3) →
  get_path h end' start' false r2 = (Ok (Path p n t), r3).
Proof.
  intros H Hlim Hlim'.
  destruct (get_path_stores _ _ _ _ _ _ _ H)
    as (e0 & s0 & tool0 & r0 & sl & el & Hlim0 & Hs & He & Hr2 & Hc).
  rewrite Hlim in Hlim0. injection Hlim0 as <- <- <- <-.
  destruct Hc as (p' & n' & t' & [= <- <- <-] & Hc).
  destruct (get_path_hit h _ _ false _ _ _ _ _ _ _ Hlim' Hs He) as [_ Hf].
  apply Hf; [|done].
  destruct (get_limit_links_frame _ _ _ _ _ Hlim') as (_ & -> & _). done.
Qed.


Lemma caches_agree_row r s s' e' :
  caches_agree r →
  cache_lookup
    (cache_row s (bool_decide (is_Some (_path_cache r !! s)))
       (_path_cache_fknm r)) s' e'
  = (λ '(p, n, t), (p, n, SE3_A t)) <$> cache_lookup (_path_cache r) s' e'.
Proof.
  intros Hagree. unfold cache_row. case_bool_decide as Hrow; [apply Hagree|].
  rewrite <- Hagree. unfold cache_lookup.
  destruct (decide (s = s')) as [->|Hne].
  - rewrite lookup_insert_eq. simpl. rewrite lookup_empty.
    specialize (Hagree s' e'). unfold cache_lookup in Hagree.
    rewrite Hagree. apply eq_None_not_Some in Hrow. by rewrite Hrow.
  - by rewrite lookup_insert_ne.
Qed.

(** X3: on a robot whose two path caches hold the same entries, as after
    construction, [get_path] with [_fknm] set does what it does without:
    it returns the same links and joint count with the array of the same
    tool, raises the same error, and leaves the same robot, whose caches
    agree again. *)
Theorem get_path_fknm_agrees h end_ start r o r2 :
  caches_agree r →
  get_path h end_ start false r = (o, r2) →
  get_path h end_ start true r = (as_fknm o, r2) ∧ caches_agree r2.
Proof.
  intros Hagree. unfold get_path. munfold.
  destruct (_get_limit_links end_ start r) as [[[[e s] tool]| |] r1] eqn:Hlim;
    pose proof (get_limit_links_frame _ _ _ _ _ Hlim) as Hframe;
    assert (caches_agree r1) as Hagree1
      by (clear -Hagree Hlim; intros s' e';
          unfold _get_limit_links in Hlim; munfold;
          repeat (case_match; simplify_eq/=); apply Hagree).
  2, 3: by intros [= <- <-].
  destruct s as [s|]; [|destruct e; by intros [= <- <-]].
  destruct e as [e|]; [|by intros [= <- <-]].
  unfold deref.
  destruct (h !! s) as [sl|]; [|by intros [= <- <-]].
  destruct (h !! e) as [el|]; [|by intros [= <- <-]].
  rewrite (Hagree1 (name sl) (name el)).
  destruct (cache_lookup (_path_cache r1) (name sl) (name el))
    as [[[p n] t]|] eqn:Hc; simpl.
  { by intros [= <- <-]. }
  destruct (walk_up _ _ _ _ _ _ _ _) as [[path n]| |]; simpl.
  2, 3: intros [= <- <-]; split; [done|]; intros s' e'; simpl;
        by rewrite caches_agree_row, cache_lookup_row.
  intros [= <- <-]. split; [done|]. intros s' e'. simpl.
  rewrite !cache_lookup_store. case_decide; [done|].
  by rewrite caches_agree_row, cache_lookup_row.
Qed.

#[local] Arguments _getlink : simpl never.

Lemma match_gripper_Raise e gs :
  foldl match_gripper (Raise e) gs = Raise e.
Proof. by induction gs. Qed.

Lemma match_gripper_skip a t g :
  names_gripper a g = false → match_gripper (Ok (a, t)) g = Ok (a, t).
Proof.
  unfold names_gripper, match_gripper. munfold. simpl. by intros ->.
Qed.

Lemma match_gripper_miss a t gs :
  Forall (λ g, names_gripper a g = false) gs →
  foldl match_gripper (Ok (a, t)) gs = Ok (a, t).
Proof.
  induction 1 as [|g gs Hg _ IH]; [done|].
  cbn [foldl]. by rewrite (match_gripper_skip _ _ _ Hg).
Qed.

(** X4: an [end] given as a gripper of the robot, or as the name of one,
    resolves to the first link of the first gripper it names, with that
    gripper's tool. *)
Theorem end_gripper_resolution r a start s pre g post l ls :
  start_resolves r start s →
  grippers r = pre ++ g :: post →
  Forall (λ g', names_gripper a g' = false) pre →
  names_gripper a g = true →
  g_links g = l :: ls →
  (_get_limit_links a start r).1 = Ok (Some l, s, Some (g_tool g)).
Proof.
  intros Hstart Hgs Hpre Hg Hl.
  assert (foldl match_gripper (Ok (a, None)) (grippers r)
          = Ok (ArgLink l, Some (g_tool g))) as Hfold.
  { rewrite Hgs, foldl_app, (match_gripper_miss _ _ _ Hpre). cbn [foldl].
    assert (match_gripper (Ok (a, None)) g = Ok (ArgLink l, Some (g_tool g)))
      as ->.
    { unfold names_gripper in Hg. unfold match_gripper. munfold. simpl.
      by rewrite Hg, Hl. }
    apply match_gripper_miss. by apply Forall_true. }
  assert (_getlink r (ArgLink l) ArgNone = Ok l) as Hget.
  { unfold _getlink. case_bool_decide; [done|].
    assert (existsb (λ g0, bool_decide (l ∈ g_links g0)) (grippers r) = true)
      as ->; [|done].
    apply existsb_exists. exists g. split.
    - rewrite Hgs. apply in_or_app. right. by left.
    - apply bool_decide_eq_true. rewrite Hl. apply list_elem_of_here. }
  unfold _get_limit_links. munfold.
  destruct a; try discriminate; simpl; rewrite Hfold; simpl; rewrite Hget;
    destruct start; simpl in *; subst; try done;
    destruct Hstart as (l' & Hs & ->);
    first [by rewrite Hs | by unfold _getlink in Hs].
Qed.

End PathExtras.

Section PathExtraExamples.
Import ZModel.

Lemma get_path_again_witness :
  let r2 := (get_path hb (ArgStr "ee_1") ArgNone false rb).2 in
  get_path hb (ArgStr "ee_1") ArgNone false r2
  = (Ok (Path [0; 1; 2] 2 SE3_id), r2).
Proof.
  intros r2. apply (get_path_again hb _ _ false rb).
  apply injective_projections; reflexivity.
Defined.

Lemma get_path_cache_keeps_tool_witness :
  let r2 := (get_path hg (ArgGripper 0) ArgNone false rg).2 in
  (get_path hg (ArgLink 2) ArgNone false r2).1
  = Ok (Path [0; 1; 2] 2 SE3_id).
Proof.
  intros r2.
  by rewrite (get_path_cache_keeps_tool hg (ArgGripper 0) ArgNone rg
                [0; 1; 2] 2 SE3_id r2 2 0 (Some SE3_id)
                (_get_limit_links (ArgGripper 0) ArgNone rg).2
                (ArgLink 2) ArgNone None
                (_get_limit_links (ArgLink 2) ArgNone r2).2
                ltac:(apply injective_projections; reflexivity)
                ltac:(apply injective_projections; reflexivity)
                ltac:(apply injective_projections; reflexivity)).
Defined.

Lemma get_path_fknm_agrees_witness :
  let m := get_path hb (ArgStr "ee_1") ArgNone false rb in
  get_path hb (ArgStr "ee_1") ArgNone true rb = (as_fknm m.1, m.2)
  ∧ caches_agree m.2.
Proof.
  intros m. apply (get_path_fknm_agrees hb _ _ rb m.1 m.2).
  - intros s e. unfold cache_lookup.
    assert (_path_cache rb = ∅) as -> by reflexivity.
    assert (_path_cache_fknm rb = ∅) as -> by reflexivity.
    by rewrite !lookup_empty.
  - apply surjective_pairing.
Defined.

Lemma end_gripper_resolution_witness :
  (_get_limit_links (ArgGripper 0) ArgNone rg).1
  = Ok (Some 2, Some 0, Some SE3_id).
Proof.
  apply (end_gripper_resolution rg (ArgGripper 0) ArgNone (Some 0) []
           (mkGripper 0 (Some "") [2; 3] SE3_id 1) [] 2 [3]);
    [reflexivity | reflexivity | constructor | reflexivity | reflexivity].
Defined.

End PathExtraExamples.

(** ** The depth-first traversal *)

Section TraversalExtras.
Context {N : Numerics}.

Lemma vis_children_inv2 {S} (func : ref → heap * S → outcome (heap * S))
    (P : list ref → heap * S → Prop) (Q : ref → Prop) :
  (∀ visited hs l hs',
     l ∉ visited → Q l → P visited hs → func l hs = Ok hs' →
     P (visited ++ [l]) hs' ∧ ∀ c, c ∈ children_of hs'.1 l → Q c) →
  ∀ fuel l st st',
    l ∉ st.1 → Q l → P st.1 st.2 →
    vis_children fuel func l st = Ok st' → P st'.1 st'.2.
Proof.
  intros Hvisit. induction fuel as [|fuel IH]; intros l st st' Hl HQ HP; simpl;
    [discriminate|].
  munfold. destruct (func l st.2) as [hs| |] eqn:Hf; try discriminate.
  unfold deref. destruct (hs.1 !! l) as [x|] eqn:Hx; [|discriminate].
  destruct (Hvisit _ _ _ _ Hl HQ HP Hf) as [HP1 HQ1].
  assert (∀ cs st1 st2,
            (∀ c, c ∈ cs → Q c) →
            P st1.1 st1.2 →
            foldl (λ acc li,
                     match acc with
                     | Ok a =>
                         if bool_decide (li ∈ a.1) then Ok a
                         else vis_children fuel func li a
                     | Raise e => Raise e
                     | Diverge => Diverge
                     end) (Ok st1) cs = Ok st2 →
            P st2.1 st2.2) as Hloop.
  { induction cs as [|c cs IHcs]; intros st1 st2 Hcs H1; simpl.
    - by intros [= <-].
    - assert (∀ c', c' ∈ cs → Q c') as Hcs'
        by (intros c' Hc'; apply Hcs, elem_of_cons; by right).
      case_bool_decide as Hc.
      + by apply IHcs.
      + destruct (vis_children fuel func c st1) as [st1'| |] eqn:Hrec;
          [|intros Hbad; rewrite vis_loop_strict in Hbad by done;
            discriminate..].
        apply IHcs; [done|]. eapply IH; [done| |done|done].
        apply Hcs, elem_of_cons. by left. }
  apply (Hloop _ (st.1 ++ [l], hs)); [|exact HP1].
  intros c Hc. apply HQ1. unfold children_of. by rewrite Hx.
Qed.

(** X5: the list [dfs_links] returns starts with [start], holds no link
    twice, and holds exactly the links that child lists lead to from
    [start], when [func] leaves the child lists alone. *)
Theorem dfs_links_visits {S} (func : ref → heap * S → outcome (heap * S))
    h b s visited hs :
  keeps_children func →
  dfs_links h (Some b) func s = Ok (visited, hs) →
  head visited = Some b ∧ NoDup visited
  ∧ ∀ l, l ∈ visited ↔ reachable h b l.
Proof.
  intros Hkeep Hdfs. split; [|split].
  - unfold dfs_links in Hdfs.
    destruct (vis_children_closed _ Hkeep _ _ _ _ Hdfs) as [(ext & He & _) _].
    simpl in He. by rewrite He.
  - unfold dfs_links in Hdfs.
    apply (vis_children_inv func (λ visited _, NoDup visited)) in Hdfs;
      [done| | |constructor].
    + intros vis _ l _ Hl Hnd _. apply NoDup_app. split; [done|].
      split; [|apply NoDup_singleton].
      intros x Hx Hx'. apply list_elem_of_singleton in Hx'. by subst.
    + apply not_elem_of_nil.
  - intros l. split; [|by eapply dfs_links_reaches].
    unfold dfs_links in Hdfs.
    apply (vis_children_inv2 func
             (λ visited hs, (∀ x, children_of hs.1 x = children_of h x)
                            ∧ ∀ x, x ∈ visited → reachable h b x)
             (reachable h b)) in Hdfs.
    + destruct Hdfs as [_ Hall]. apply Hall.
    + intros vis hs0 l0 hs' _ Hl0 [Hch Hvis] Hf.
      assert (∀ x, children_of hs'.1 x = children_of h x) as Hch'.
      { intros x. by rewrite (Hkeep _ _ _ Hf x). }
      split; [split; [done|]|].
      * intros x Hx. apply elem_of_app in Hx as [Hx|Hx]; [by apply Hvis|].
        apply list_elem_of_singleton in Hx. by subst.
      * intros c Hc. rewrite Hch' in Hc. by eapply reachable_child.
    + apply not_elem_of_nil.
    + constructor.
    + split; [done|]. intros x Hx. by apply elem_of_nil in Hx.
Qed.

Lemma NoDup_snoc_bound (l : list nat) x n :
  NoDup l → x ∉ l → (∀ y, y ∈ l → y < n) → x < n → length l < n.
Proof.
  intros Hnd Hx Hb Hxn.
  assert (length (l ++ [x]) ≤ n) as Hlen; [|rewrite length_app in Hlen; simpl in Hlen; lia].
  apply NoDup_bounded_length.
  - apply NoDup_app. split; [done|]. split; [|apply NoDup_singleton].
    intros y Hy Hy'. apply list_elem_of_singleton in Hy'. by subst.
  - intros y Hy. apply elem_of_app in Hy as [Hy|Hy]; [by apply Hb|].
    apply list_elem_of_singleton in Hy. by subst.
Qed.

(** The recursion of [vis_children] ends: every call visits a link not
    visited before, and there are [length h] link objects. *)
Lemma vis_children_returns {S} (func : ref → heap * S → outcome (heap * S)) h :
  keeps_children func → func_total func → heap_closed h →
  ∀ fuel l st,
    NoDup st.1 → (∀ x, x ∈ st.1 → x < length h) →
    l ∉ st.1 → l < length h →
    length h ≤ fuel + length st.1 →
    length st.2.1 = length h →
    (∀ x, children_of st.2.1 x = children_of h x) →
    ∃ st', vis_children fuel func l st = Ok st'
           ∧ NoDup st'.1 ∧ (∀ x, x ∈ st'.1 → x < length h)
           ∧ length st.1 < length st'.1
           ∧ length st'.2.1 = length h
           ∧ (∀ x, children_of st'.2.1 x = children_of h x).
Proof.
  intros Hkeep Htotal Hclosed.
  induction fuel as [|fuel IH]; intros l st Hnd Hb Hl Hln Hfuel Hlen Hch.
  { pose proof (NoDup_snoc_bound _ _ _ Hnd Hl Hb Hln). lia. }
  simpl. munfold.
  destruct (Htotal l st.2) as (hs & Hf & Hlen'); [by rewrite Hlen|].
  rewrite Hf. unfold deref.
  assert (is_Some (hs.1 !! l)) as [x Hx]
    by (apply lookup_lt_is_Some; lia).
  rewrite Hx.
  pose proof (Hkeep _ _ _ Hf) as Hch1.
  assert (NoDup (st.1 ++ [l])) as Hnd1.
  { apply NoDup_app. split; [done|]. split; [|apply NoDup_singleton].
    intros y Hy Hy'. apply list_elem_of_singleton in Hy'. by subst. }
  assert (∀ y, y ∈ st.1 ++ [l] → y < length h) as Hb1.
  { intros y Hy. apply elem_of_app in Hy as [Hy|Hy]; [by apply Hb|].
    apply list_elem_of_singleton in Hy. by subst. }
  assert (∀ c, c ∈ _children x → c < length h) as Hcs.
  { intros c Hc.
    assert (c ∈ children_of h l) as Hc'
      by (rewrite <- Hch, <- Hch1; unfold children_of; by rewrite Hx).
    unfold children_of in Hc'.
    destruct (h !! l) as [y|] eqn:Hy; simpl in Hc';
      [by eapply Hclosed | by apply elem_of_nil in Hc']. }
  assert (∀ cs st1,
            (∀ c, c ∈ cs → c < length h) →
            NoDup st1.1 → (∀ y, y ∈ st1.1 → y < length h) →
            length st.1 < length st1.1 →
            length st1.2.1 = length h →
            (∀ y, children_of st1.2.1 y = children_of h y) →
            ∃ st2,
              foldl (λ acc li,
                       match acc with
                       | Ok a =>
                           if bool_decide (li ∈ a.1) then Ok a
                           else vis_children fuel func li a
                       | Raise e => Raise e
                       | Diverge => Diverge
                       end) (Ok st1) cs = Ok st2
              ∧ NoDup st2.1 ∧ (∀ y, y ∈ st2.1 → y < length h)
              ∧ length st.1 < length st2.1
              ∧ length st2.2.1 = length h
              ∧ (∀ y, children_of st2.2.1 y = children_of h y)) as Hloop.
  { induction cs as [|c cs IHcs]; intros st1 Hcs1 Hnd2 Hb2 Hgrow Hlen2 Hch2;
      simpl.
    - by exists st1.
    - assert (∀ c', c' ∈ cs → c' < length h) as Hcs'
        by (intros c' Hc'; apply Hcs1, elem_of_cons; by right).
      case_bool_decide as Hc; [by apply IHcs|].
      destruct (IH c st1) as (st1' & -> & Hnd3 & Hb3 & Hgrow3 & Hlen3 & Hch3);
        try done.
      + apply Hcs1, elem_of_cons. by left.
      + lia.
      + apply IHcs; try done. lia. }
  apply (Hloop (_children x) (st.1 ++ [l], hs)); try done.
  - simpl. rewrite length_app. simpl. lia.
  - simpl. lia.
  - simpl. intros y. by rewrite Hch1.
Qed.

(** X6: on link objects whose child lists name link objects only,
    [dfs_links] returns, provided [func] does on every link and leaves
    the child lists alone. *)
Theorem dfs_links_returns {S} (func : ref → heap * S → outcome (heap * S))
    h b s :
  keeps_children func → func_total func → heap_closed h → b < length h →
  ∃ visited hs, dfs_links h (Some b) func s = Ok (visited, hs).
Proof.
  intros Hkeep Htotal Hclosed Hb. unfold dfs_links.
  destruct (vis_children_returns func h Hkeep Htotal Hclosed (length h) b
              ([], (h, s))) as ([visited hs] & Hrun & _); simpl; try done.
  - constructor.
  - intros x Hx. by apply elem_of_nil in Hx.
  - apply not_elem_of_nil.
  - lia.
  - eauto.
Qed.

End TraversalExtras.

Section TraversalExtraExamples.
Import ZModel.

Lemma no_func_keeps_children : keeps_children no_func.
Proof. intros l hs hs' [= <-] x. reflexivity. Qed.

Lemma no_func_total : func_total no_func.
Proof. intros l hs _. by exists hs. Qed.

Lemma heap_closed_Forall (h : list ELink) :
  Forall (λ x, Forall (λ c, c < length h) (_children x)) h → heap_closed h.
Proof.
  intros Hall l x c Hx Hc. rewrite Forall_forall in Hall.
  specialize (Hall x (list_elem_of_lookup_2 _ _ _ Hx)).
  rewrite Forall_forall in Hall. by apply Hall.
Qed.

Lemma dfs_links_visits_witness :
  head [0; 1; 2; 3; 4] = Some 0 ∧ NoDup [0; 1; 2; 3; 4]
  ∧ ∀ l, l ∈ [0; 1; 2; 3; 4] ↔ reachable hb 0 l.
Proof.
  apply (dfs_links_visits no_func hb 0 tt [0; 1; 2; 3; 4] (hb, tt)).
  - exact no_func_keeps_children.
  - reflexivity.
Defined.

Lemma dfs_links_returns_witness :
  ∃ visited hs, dfs_links hb (Some 0) no_func tt = Ok (visited, hs).
Proof.
  apply (dfs_links_returns no_func hb 0 tt).
  - exact no_func_keeps_children.
  - exact no_func_total.
  - apply heap_closed_Forall. apply (bool_decide_unpack _). vm_compute. exact I.
  - apply (bool_decide_unpack _). vm_compute. exact I.
Defined.

End TraversalExtraExamples.

(** ** What the constructor establishes *)

Section InitExtras.
Context {N : Numerics}.

(** *** Loops that stop at the first exception *)

Lemma foldl_strict {A X} (f : outcome A → X → outcome A) o l :
  strict f → (∀ a, o ≠ Ok a) → foldl f o l = o.
Proof.
  intros [Hr Hd] Ho. induction l as [|x l IH]; [done|]. simpl.
  destruct o as [a| |]; [by destruct (Ho a)| |].
  - by rewrite Hr.
  - by rewrite Hd.
Qed.

Lemma foldl_outcome_inv {A X} (f : outcome A → X → outcome A)
    (P : list X → A → Prop) :
  strict f →
  (∀ pre a x a', P pre a → f (Ok a) x = Ok a' → P (pre ++ [x]) a') →
  ∀ l pre a a', P pre a → foldl f (Ok a) l = Ok a' → P (pre ++ l) a'.
Proof.
  intros Hs Hstep. induction l as [|x l IH]; intros pre a a' HP; simpl.
  - intros [= <-]. by rewrite app_nil_r.
  - destruct (f (Ok a) x) as [a1| |] eqn:Hf.
    + intros Hrun. rewrite (cons_middle x pre l), app_assoc.
      eapply IH; [|done]. by eapply Hstep.
    + rewrite foldl_strict by done. discriminate.
    + rewrite foldl_strict by done. discriminate.
Qed.

Lemma register_link_strict : strict register_link.
Proof. by split. Qed.
Lemma resolve_parent_strict d : strict (resolve_parent d).
Proof. by split. Qed.
Lemma chain_parent_strict ls : strict (chain_parent ls).
Proof. by split. Qed.
Lemma scan_base_strict : strict scan_base.
Proof. by split. Qed.


(** *** The loop that registers the links *)

Lemma named_from_refl x : named_from x x.
Proof. by left. Qed.

Lemma link_isjoint_app_singleton h pre l :
  count_joints h (pre ++ [l])
  = count_joints h pre + (if link_isjoint h l then 1 else 0).
Proof. rewrite count_joints_app. simpl. lia. Qed.

Lemma register_link_step h pre st link st' :
  registered h pre st → register_link (Ok st) link = Ok st' →
  registered h (pre ++ [link]) st'.
Proof.
  destruct st as [[[h1 d] n] k]. destruct st' as [[[h1' d'] n'] k'].
  intros (Hlen & Hnd & Hout & Hfrom & Hnamed & Hdict & Hn).
  unfold register_link. munfold. unfold deref.
  destruct (h1 !! link) as [x1|] eqn:Hx1; [|discriminate].
  intros H.
  set (nm := match name x1 with
             | Some nm => nm
             | None => "link-" +:+ pretty k
             end).
  set (h2 := match name x1 with
             | Some _ => h1
             | None => <[link := set_name nm x1]> h1
             end).
  assert (d !! nm = None ∧ h1' = h2 ∧ d' = <[nm := link]> d
          ∧ n' = if isjoint x1 then n + 1 else n) as (Hfree & -> & -> & ->).
  { subst nm h2. destruct (name x1); simpl in *;
      (case_bool_decide as Hd; [discriminate|]);
      apply eq_None_not_Some in Hd; by simplify_eq. }
  clear H.
  assert (link ∉ pre) as Hnew.
  { intros Hin. destruct (Hnamed link Hin) as [nm0 Hnm0].
    unfold link_name in Hnm0. rewrite Hx1 in Hnm0. simpl in Hnm0.
    injection Hnm0 as Hnm0.
    assert (d !! nm0 = Some link) as Hd0.
    { apply Hdict. split; [done|]. unfold link_name. rewrite Hx1. simpl.
      by rewrite Hnm0. }
    subst nm. rewrite Hnm0 in Hfree. congruence. }
  assert (h !! link = Some x1) as Hx by (by rewrite <- Hout).
  assert (link_name h2 link = Some (Some nm)) as Hname.
  { subst h2 nm. unfold link_name. destruct (name x1) eqn:Hnm.
    - rewrite Hx1. simpl. by rewrite Hnm.
    - rewrite list_lookup_insert_eq by (by eapply lookup_lt_Some). done. }
  assert (∀ l, l ≠ link → h2 !! l = h1 !! l) as Hother.
  { intros l Hl. subst h2. destruct (name x1); [done|].
    by rewrite list_lookup_insert_ne. }
  assert (length h2 = length h1) as Hlen2.
  { subst h2. destruct (name x1); [done|]. by rewrite length_insert. }
  split; [congruence|]. split.
  { apply NoDup_app. split; [done|]. split; [|apply NoDup_singleton].
    intros y Hy Hy'. apply list_elem_of_singleton in Hy'. by subst. }
  split.
  { intros l Hl. rewrite Hother; [apply Hout|].
    - intros Hin. apply Hl, elem_of_app. by left.
    - intros ->. apply Hl, elem_of_app. right. by apply list_elem_of_singleton. }
  split.
  { intros l x Hlx. destruct (decide (l = link)) as [->|Hne].
    - rewrite Hx in Hlx. injection Hlx as <-. subst h2.
      destruct (name x1) eqn:Hnm.
      + exists x1. split; [done|]. by left.
      + exists (set_name nm x1). split.
        * rewrite list_lookup_insert_eq by (by eapply lookup_lt_Some). done.
        * right. by exists nm.
    - rewrite Hother by done. by apply Hfrom. }
  split.
  { intros l Hl. apply elem_of_app in Hl as [Hl|Hl].
    - destruct (Hnamed l Hl) as [nm0 Hnm0]. exists nm0.
      unfold link_name. rewrite Hother; [done|]. by intros ->.
    - apply list_elem_of_singleton in Hl as ->. by exists nm. }
  split.
  { intros nm0 l. destruct (decide (nm0 = nm)) as [->|Hne].
    - rewrite lookup_insert_eq. split.
      + intros [= <-]. split; [|done].
        apply elem_of_app. right. by apply list_elem_of_singleton.
      + intros [Hl Hnm0]. apply elem_of_app in Hl as [Hl|Hl].
        * assert (d !! nm = Some l) as Hd0; [|congruence].
          apply Hdict. split; [done|]. unfold link_name in *.
          rewrite <- Hother; [done|]. by intros ->.
        * apply list_elem_of_singleton in Hl. by subst.
    - rewrite lookup_insert_ne by done. rewrite Hdict. split.
      + intros [Hl Hnm0]. split; [apply elem_of_app; by left|].
        unfold link_name in *.
        rewrite Hother; [done|]. by intros ->.
      + intros [Hl Hnm0]. apply elem_of_app in Hl as [Hl|Hl].
        * split; [done|]. unfold link_name in *.
          rewrite <- Hother; [done|]. by intros ->.
        * apply list_elem_of_singleton in Hl as ->. congruence. }
  rewrite link_isjoint_app_singleton. unfold link_isjoint. rewrite Hx. simpl.
  destruct (isjoint x1); lia.
Qed.

Lemma register_links h links st :
  foldl register_link (Ok (h, ∅, 0, 0)) links = Ok st →
  registered h links st.
Proof.
  intros Hrun.
  apply (foldl_outcome_inv register_link (registered h) register_link_strict
           (register_link_step h) links [] (h, ∅, 0, 0) st); [|done].
  split; [done|]. split; [constructor|]. split; [done|].
  split; [intros l x Hx; exists x; split; [done|apply named_from_refl]|].
  split; [intros l Hl; by apply elem_of_nil in Hl|].
  split; [|done]. intros nm l. rewrite lookup_empty. split; [done|].
  intros [Hl _]. by apply elem_of_nil in Hl.
Qed.


(** *** The later loops leave names and joint flags alone *)

Lemma keeps_refl {X} (f : ELink → X) h : keeps f h h.
Proof. by split. Qed.

Lemma keeps_trans {X} (f : ELink → X) h1 h2 h3 :
  keeps f h1 h2 → keeps f h2 h3 → keeps f h1 h3.
Proof.
  intros [Hl1 H1] [Hl2 H2]. split; [congruence|].
  intros l. by rewrite H2, H1.
Qed.

Lemma keeps_insert {X} (f : ELink → X) h l x y :
  h !! l = Some x → f y = f x → keeps f h (<[l := y]> h).
Proof.
  intros Hx Hf. split; [by rewrite length_insert|].
  intros l'. destruct (decide (l' = l)) as [->|Hne].
  - rewrite list_lookup_insert_eq by (by eapply lookup_lt_Some).
    rewrite Hx. simpl. by rewrite Hf.
  - by rewrite list_lookup_insert_ne.
Qed.

Lemma resolve_parent_keeps {X} (f : ELink → X) d links h h' :
  (∀ p x, f (set_parent p x) = f x) →
  foldl (resolve_parent d) (Ok h) links = Ok h' → keeps f h h'.
Proof.
  intros Hf Hrun.
  apply (foldl_outcome_inv (resolve_parent d) (λ _ h', keeps f h h')
           (resolve_parent_strict d)) with (l := links) (pre := []) (a := h);
    [|apply keeps_refl|done].
  intros _ a link a' Hk. unfold resolve_parent. munfold. unfold deref.
  destruct (a !! link) as [x|] eqn:Hx; [|discriminate].
  destruct (_parent x) as [|s|p]; try (intros [= <-]; done).
  destruct (d !! s) as [p|]; [|discriminate].
  intros [= <-]. eapply keeps_trans; [done|]. by eapply keeps_insert.
Qed.

Lemma chain_parent_keeps {X} (f : ELink → X) links idx h h' :
  (∀ p x, f (set_parent p x) = f x) →
  foldl (chain_parent links) (Ok h) idx = Ok h' → keeps f h h'.
Proof.
  intros Hf Hrun.
  apply (foldl_outcome_inv (chain_parent links) (λ _ h', keeps f h h')
           (chain_parent_strict links)) with (l := idx) (pre := []) (a := h);
    [|apply keeps_refl|done].
  intros _ a i a' Hk. unfold chain_parent. munfold. unfold deref.
  destruct (links !! (i + 1)) as [b|]; [|discriminate].
  destruct (links !! i) as [c|]; [|discriminate].
  destruct (a !! b) as [x|] eqn:Hx; [|discriminate].
  intros [= <-]. eapply keeps_trans; [done|]. by eapply keeps_insert.
Qed.

Lemma scan_base_keeps {X} (f : ELink → X) links h b0 h' b :
  (∀ c x, f (append_child c x) = f x) →
  foldl scan_base (Ok (h, b0)) links = Ok (h', b) → keeps f h h'.
Proof.
  intros Hf Hrun.
  apply (foldl_outcome_inv scan_base (λ _ st, keeps f h st.1)
           scan_base_strict) with (l := links) (pre := []) (a := (h, b0))
                                 (a' := (h', b));
    [|apply keeps_refl|done].
  intros _ [a ba] link [a' ba'] Hk. unfold scan_base. munfold. unfold deref.
  destruct (a !! link) as [x|] eqn:Hx; [|discriminate].
  destruct (_parent x) as [|s|p]; [|discriminate|].
  - destruct ba; [discriminate|]. by intros [= <- <-].
  - destruct (a !! p) as [y|] eqn:Hy; [|discriminate].
    intros [= <- <-]. eapply keeps_trans; [done|]. by eapply keeps_insert.
Qed.

Lemma visit_link_keeps {X} (f : ELink → X) links h l st st' :
  (∀ j x, f (set_jindex j x) = f x) →
  keeps f h st.1 → visit_link links l st = Ok st' → keeps f h st'.1.
Proof.
  intros Hf Hk. destruct st as [h1 [j orl]]. unfold visit_link. munfold.
  unfold deref. destruct (h1 !! l) as [x|] eqn:Hx; [|discriminate].
  destruct (isjoint x && bool_decide (l ∈ links)); intros [= <-]; [|done].
  eapply keeps_trans; [done|]. by eapply keeps_insert.
Qed.

Lemma assign_jindex_keeps {X} (f : ELink → X) h links b n chk h' orl :
  (∀ j x, f (set_jindex j x) = f x) →
  assign_jindex h links b n chk = Ok (h', orl) →
  keeps f h h' ∧ ∀ l, l ∈ orl → l ∈ links.
Proof.
  intros Hf. unfold assign_jindex. munfold.
  destruct (derefs h links) as [xs| |]; try discriminate.
  destruct (forallb _ xs).
  - destruct (dfs_links h b (visit_link links) (0, []))
      as [[visited [h1 [j orl1]]]| |] eqn:Hdfs; try discriminate.
    intros [= <- <-]. destruct b as [b|]; [|discriminate].
    unfold dfs_links in Hdfs.
    apply (vis_children_inv (visit_link links)
             (λ visited hs, keeps f h hs.1
                            ∧ ∀ l, l ∈ hs.2.2 → l ∈ links)) in Hdfs.
    + done.
    + intros vis hs l hs' _ [Hk Hin] Hv. split; [by eapply visit_link_keeps|].
      destruct hs as [h2 [j2 orl2]]. unfold visit_link in Hv. munfold.
      destruct (deref h2 l); try discriminate.
      destruct (isjoint a && bool_decide (l ∈ links));
        injection Hv as <-; simpl in *;
        (case_bool_decide; [|done]); intros l' Hl';
        (apply elem_of_app in Hl' as [Hl'|Hl'];
         [by apply Hin | apply list_elem_of_singleton in Hl'; by subst]).
    + apply not_elem_of_nil.
    + split; [apply keeps_refl|]. intros l Hl. by apply elem_of_nil in Hl.
  - destruct (forallb _ _); [|discriminate].
    destruct chk.
    + destruct (foldl check_jindex _ xs); try discriminate.
      case_bool_decide; [discriminate|]. intros [= <- <-].
      split; [apply keeps_refl | done].
    + intros [= <- <-]. split; [apply keeps_refl | done].
Qed.


(** *** The stages of the constructor *)

Lemma link_tree_stages h links gl h4 d n' bl links' gs gls :
  link_tree h links gl = Ok (h4, d, n', bl, links', gs, gls) →
  ∃ h1 n k h2 xs h3,
    foldl register_link (Ok (h, ∅, 0, 0)) links = Ok (h1, d, n, k)
    ∧ foldl (resolve_parent d) (Ok h1) links = Ok h2
    ∧ derefs h2 links = Ok xs
    ∧ (if forallb (λ x, match _parent x with PNone => true | _ => false end) xs
       then foldl (chain_parent links) (Ok h2) (seq 0 (length links - 1))
       else Ok h2) = Ok h3
    ∧ foldl scan_base (Ok (h3, None)) links = Ok (h4, bl)
    ∧ n' = foldl (λ n g, n - g_n g) n gs
    ∧ (gl = GNone → links' = links ∧ gs = [] ∧ gls = []).
Proof.
  unfold link_tree. munfold.
  destruct (foldl register_link _ links) as [[[[h1 d1] n] k]| |] eqn:H1;
    try discriminate.
  destruct (foldl (resolve_parent d1) _ links) as [h2| |] eqn:H2;
    try discriminate.
  destruct (derefs h2 links) as [xs| |] eqn:Hxs; try discriminate.
  destruct (if forallb _ xs then _ else _) as [h3| |] eqn:H3;
    try discriminate.
  destruct (foldl scan_base _ links) as [[h4' bl']| |] eqn:H4;
    try discriminate.
  destruct (foldl (extract_gripper h4') _ _) as [[links1 gs1]| |] eqn:H5;
    try discriminate.
  intros [= <- <- <- <- <- <- <-].
  exists h1, n, k, h2, xs, h3. do 6 (split; [done|]).
  intros ->. simpl in H5. by injection H5 as <- <-.
Qed.

Lemma link_tree_keeps {X} (f : ELink → X) h links gl h4 d n' bl links' gs gls
    h1 n k :
  (∀ p x, f (set_parent p x) = f x) →
  (∀ c x, f (append_child c x) = f x) →
  link_tree h links gl = Ok (h4, d, n', bl, links', gs, gls) →
  foldl register_link (Ok (h, ∅, 0, 0)) links = Ok (h1, d, n, k) →
  keeps f h1 h4.
Proof.
  intros Hp Hc Htree Hreg.
  destruct (link_tree_stages _ _ _ _ _ _ _ _ _ _ Htree)
    as (h1' & n0 & k0 & h2 & xs & h3 & H1 & H2 & _ & H3 & H4 & _).
  rewrite Hreg in H1. injection H1 as <- <- <-.
  eapply keeps_trans; [by eapply resolve_parent_keeps|].
  eapply keeps_trans; [|by eapply scan_base_keeps].
  destruct (forallb _ xs); [by eapply chain_parent_keeps|].
  injection H3 as <-. apply keeps_refl.
Qed.

Lemma ERobot_init_stages h ls gl chk base tool h' r :
  ERobot_init h ls gl chk base tool = Ok (h', r) →
  ∃ h4 links' gls,
    link_tree h ls gl
    = Ok (h4, _linkdict r, _n r, _base_link r, links', grippers r, gls)
    ∧ assign_jindex h4 links' (_base_link r) (_n r) chk = Ok (h', links r)
    ∧ _path_cache r = ∅ ∧ _path_cache_fknm r = ∅
    ∧ (gls = [] → ∃ xs, derefs h4 links' = Ok xs
         ∧ _ee_links r
           = omap (λ '(l, x), if bool_decide (length (_children x) = 0)
                              then Some (Some l) else None) (zip links' xs)).
Proof.
  unfold ERobot_init, BaseERobot_init. munfold.
  destruct (link_tree h ls gl)
    as [[[[[[[h4 d] n] bl] links'] gs] gls]| |] eqn:Htree; try discriminate.
  destruct (match gls with [] => _ | _ => _ end) as [ee| |] eqn:Hee;
    try discriminate.
  destruct (assign_jindex h4 links' bl n chk) as [[h5 orl]| |] eqn:Hassign;
    try discriminate.
  destruct (derefs h5 links') as [xs5| |]; try discriminate.
  intros [= <- <-]. simpl.
  exists h4, links', gls. do 4 (split; [done|]).
  intros ->. destruct (derefs h4 links') as [xs| |]; try discriminate.
  exists xs. split; [done|]. by injection Hee as <-.
Qed.

End InitExtras.

Section InitExtras2.
Context {N : Numerics}.

Lemma keeps_link_name h h' l : keeps name h h' → link_name h' l = link_name h l.
Proof. intros [_ Hk]. apply Hk. Qed.

Lemma keeps_link_isjoint h h' l :
  keeps isjoint h h' → link_isjoint h' l = link_isjoint h l.
Proof. intros [_ Hk]. unfold link_isjoint. by rewrite Hk. Qed.

Lemma keeps_count_joints h h' ls :
  keeps isjoint h h' → count_joints h' ls = count_joints h ls.
Proof.
  intros Hk. induction ls as [|l ls IH]; [done|]. simpl.
  by rewrite IH, (keeps_link_isjoint _ _ _ Hk).
Qed.

Lemma registered_keeps_isjoint h pre st : registered h pre st → keeps isjoint h st.1.1.1.
Proof.
  destruct st as [[[h1 d] n] k]. intros (Hlen & _ & _ & Hfrom & _). simpl.
  split; [done|]. intros l.
  destruct (h !! l) as [x|] eqn:Hx.
  - destruct (Hfrom l x Hx) as (x1 & -> & [->|(nm & _ & ->)]); done.
  - apply lookup_ge_None in Hx. rewrite (proj2 (lookup_ge_None h1 l)); [done|lia].
Qed.

(** What the constructor leaves, for the links [ls] it was given: the
    registration invariant on [h1], and the names and joint flags of [h1]
    in the final link objects. *)
Lemma ERobot_init_registered h ls gl chk base tool h' r :
  ERobot_init h ls gl chk base tool = Ok (h', r) →
  ∃ h1 n k,
    registered h ls (h1, _linkdict r, n, k)
    ∧ keeps name h1 h' ∧ keeps isjoint h h'
    ∧ _n r = foldl (λ n g, n - g_n g) n (grippers r)
    ∧ (gl = GNone → grippers r = [] ∧ ∀ l, l ∈ links r → l ∈ ls).
Proof.
  intros Hinit.
  destruct (ERobot_init_stages _ _ _ _ _ _ _ _ Hinit)
    as (h4 & links' & gls & Htree & Hassign & _).
  destruct (link_tree_stages _ _ _ _ _ _ _ _ _ _ Htree)
    as (h1 & n & k & h2 & xs & h3 & H1 & _ & _ & _ & _ & Hn & Hgl).
  pose proof (register_links _ _ _ H1) as Hreg.
  exists h1, n, k. split; [done|].
  destruct (assign_jindex_keeps name _ _ _ _ _ _ _ (λ _ _, eq_refl) Hassign)
    as [Hk1 Hsub].
  destruct (assign_jindex_keeps isjoint _ _ _ _ _ _ _ (λ _ _, eq_refl) Hassign)
    as [Hk2 _].
  split.
  { eapply keeps_trans; [|done].
    by eapply (link_tree_keeps name _ _ _ _ _ _ _ _ _ _ _ _ _
                 (λ _ _, eq_refl) (λ _ _, eq_refl) Htree). }
  split.
  { eapply keeps_trans; [apply (registered_keeps_isjoint _ _ _ Hreg)|].
    eapply keeps_trans; [|done].
    by eapply (link_tree_keeps isjoint _ _ _ _ _ _ _ _ _ _ _ _ _
                 (λ _ _, eq_refl) (λ _ _, eq_refl) Htree). }
  split; [done|].
  intros ->. destruct (Hgl eq_refl) as (-> & Hgs & _). done.
Qed.

(** X7: after construction every link that was passed in, gripper links
    included, has a name, the name it was given if it had one, and
    [_getlink] finds the link under that name; and [_getlink] finds
    nothing else. *)
Theorem link_names_resolve h ls gl chk base tool h' r :
  ERobot_init h ls gl chk base tool = Ok (h', r) →
  (∀ l, l ∈ ls →
     ∃ nm, link_name h' l = Some (Some nm)
           ∧ _getlink r (ArgStr nm) ArgNone = Ok l
           ∧ ∀ nm0, link_name h l = Some (Some nm0) → nm = nm0)
  ∧ (∀ nm l, _getlink r (ArgStr nm) ArgNone = Ok l →
       l ∈ ls ∧ link_name h' l = Some (Some nm)).
Proof.
  intros Hinit.
  destruct (ERobot_init_registered _ _ _ _ _ _ _ _ Hinit)
    as (h1 & n & k & Hreg & Hname & _).
  destruct Hreg as (Hlen & Hnd & Hout & Hfrom & Hnamed & Hdict & Hn).
  split.
  - intros l Hl. destruct (Hnamed l Hl) as [nm Hnm]. exists nm.
    split; [by rewrite (keeps_link_name _ _ _ Hname)|]. split.
    + unfold _getlink. by rewrite (proj2 (Hdict nm l) (conj Hl Hnm)).
    + intros nm0 Hnm0. unfold link_name in *.
      destruct (h !! l) as [x|] eqn:Hx; [|discriminate].
      destruct (Hfrom l x Hx) as (x1 & Hx1 & [->|(nm' & Hnone & ->)]);
        rewrite Hx1 in Hnm; simpl in *; congruence.
  - intros nm l. unfold _getlink.
    destruct (_linkdict r !! nm) as [l'|] eqn:Hd; [|discriminate].
    intros [= ->]. apply Hdict in Hd as [Hl Hnm].
    split; [done|]. by rewrite (keeps_link_name _ _ _ Hname).
Qed.


Lemma scan_base_in ls h h' b :
  foldl scan_base (Ok (h, None)) ls = Ok (h', Some b) → b ∈ ls.
Proof.
  intros Hrun.
  apply (foldl_outcome_inv scan_base
           (λ pre st, ∀ b, st.2 = Some b → b ∈ pre) scan_base_strict)
    with (l := ls) (pre := []) (a := (h, None)) (a' := (h', Some b)) (b := b);
    [|done|done|done].
  intros pre [a ba] link [a' ba'] Hin. unfold scan_base. munfold.
  destruct (deref a link) as [x| |]; try discriminate.
  destruct (_parent x) as [|s|p]; [|discriminate|].
  - destruct ba; [discriminate|]. intros [= <- <-] b0 [= <-].
    apply elem_of_app. right. by apply list_elem_of_singleton.
  - destruct (deref a p); try discriminate.
    intros [= <- <-] b0 Hb0. apply elem_of_app. left. by apply Hin.
Qed.

Lemma leaves_in (ls : list ref) (xs : list ELink) l :
  Some l ∈ omap (λ '(l, x), if bool_decide (length (_children x) = 0)
                            then Some (Some l) else None) (zip ls xs) →
  l ∈ ls.
Proof.
  intros Hin. apply list_elem_of_omap in Hin as ([l' x] & Hin & Hsome).
  case_bool_decide; [|discriminate]. injection Hsome as ->.
  apply list_elem_of_lookup in Hin as [i Hi].
  apply lookup_zip_with_Some in Hi as (a & b & [= <- <-] & Ha & _).
  by eapply list_elem_of_lookup_2.
Qed.

Lemma empty_cache_wf h r :
  names_unique h r → _path_cache r = ∅ → robot_wf h r.
Proof.
  intros Hn Hc. split; [done|].
  intros s e p n t _ _. rewrite Hc.
  destruct (link_name h s); [|done]. simpl.
  destruct (link_name h e); [|done]. simpl.
  unfold cache_lookup. by rewrite lookup_empty.
Qed.

(** X8: a robot built without grippers satisfies what the path resolver
    relies on: no two of the links it can hand out share a name, and the
    path cache, being empty, holds no wrong path. *)
Theorem constructed_robot_wf h ls chk base tool h' r :
  ERobot_init h ls GNone chk base tool = Ok (h', r) → robot_wf h' r.
Proof.
  intros Hinit.
  destruct (ERobot_init_registered _ _ _ _ _ _ _ _ Hinit)
    as (h1 & n & k & Hreg & Hname & _ & _ & Hgl).
  destruct (Hgl eq_refl) as [Hgs Hlinks].
  destruct (ERobot_init_stages _ _ _ _ _ _ _ _ Hinit)
    as (h4 & links' & gls & Htree & Hassign & Hcache & _ & Hee).
  destruct (link_tree_stages _ _ _ _ _ _ _ _ _ _ Htree)
    as (h1' & n' & k' & h2 & xs & h3 & _ & _ & _ & _ & Hscan & _ & Hnone).
  destruct (Hnone eq_refl) as (-> & _ & ->).
  destruct (Hee eq_refl) as (xs4 & _ & Hee').
  destruct Hreg as (Hlen & Hnd & Hout & Hfrom & Hnamed & Hdict & Hn).
  assert (∀ l, l ∈ known_links r → l ∈ ls) as Hknown.
  { intros l Hl. apply elem_of_known_links in Hl
      as [Hl|[(g & Hg & _)|[(nm & Hd)|[Hl|Hl]]]].
    - by apply Hlinks.
    - rewrite Hgs in Hg. by apply elem_of_nil in Hg.
    - by apply Hdict in Hd as [? _].
    - rewrite Hee' in Hl. by eapply leaves_in.
    - rewrite Hl in Hscan. by eapply scan_base_in. }
  apply empty_cache_wf; [|done].
  apply Forall_forall. intros a Ha. apply Forall_forall. intros b Hb Heq.
  apply Hknown in Ha, Hb.
  destruct (Hnamed a Ha) as [nm Hnm].
  rewrite !(keeps_link_name _ _ _ Hname) in Heq.
  assert (_linkdict r !! nm = Some a) as Hda by (by apply Hdict).
  assert (_linkdict r !! nm = Some b) as Hdb
    by (apply Hdict; split; [done|congruence]).
  congruence.
Qed.

Lemma check_jindex_removes xs :
  ∀ s0 s,
    foldl check_jindex (Ok s0) xs = Ok s →
    ∀ j, j ∈ s → j ∈ s0 ∧ j ∉ joint_idx xs.
Proof.
  induction xs as [|x xs IH]; intros s0 s.
  - intros [= <-] j Hj. split; [done|]. apply not_elem_of_nil.
  - cbn [foldl].
    destruct (check_jindex (Ok s0) x) as [s1| |] eqn:Hstep;
      [|by rewrite check_jindex_Raise|].
    2: { intros Hbad. exfalso. clear -Hbad.
         induction xs; simpl in Hbad; [discriminate | auto]. }
    intros Hrun j Hj. destruct (IH _ _ Hrun j Hj) as [Hj1 Hnot].
    unfold check_jindex in Hstep. munfold. unfold joint_idx in *. simpl.
    destruct (isjoint x) eqn:Hjoint; simpl in Hstep.
    + destruct (jindex x) as [jx|] eqn:Hidx; simpl in Hstep; [|discriminate].
      case_bool_decide as Hin; simpl in Hstep; [|discriminate].
      injection Hstep as <-.
      apply elem_of_difference in Hj1 as [Hj0 Hne]. split; [done|].
      intros Hin'. apply elem_of_cons in Hin' as [->|Hin']; [|done].
      apply Hne. by apply elem_of_singleton.
    + injection Hstep as <-. split; [|done]. destruct (jindex x); [|done].
      by apply elem_of_difference in Hj1 as [? _].
Qed.

(** X9: the index check leaves no index unassigned: when the robot has as
    many joints as the count [n] says and the loop over the links
    completes, the set of indices still to be met is empty, so the error
    the code marks as impossible is not raised. *)
Theorem jindex_check_exhausts h ls xs n jset :
  derefs h ls = Ok xs → count_joints h ls = n →
  foldl check_jindex (Ok (list_to_set (seq 0 n))) xs = Ok jset →
  jset = ∅.
Proof.
  intros Hd Hn Hrun.
  destruct (check_jindex_run _ _ _ Hrun) as (Hnd & Hsub & Hlen).
  rewrite <- (count_joints_derefs _ _ _ Hd), Hn in Hlen.
  assert (joint_idx xs ≡ₚ seq 0 n) as Hperm.
  { apply indices_exact; [done| |done]. intros j Hj.
    specialize (Hsub j Hj). apply elem_of_list_to_set, elem_of_seq in Hsub.
    lia. }
  apply set_eq. intros j. split; [|intros Hj; by apply not_elem_of_empty in Hj].
  intros Hj. destruct (check_jindex_removes _ _ _ Hrun j Hj) as [Hj0 Hnot].
  exfalso. apply Hnot. rewrite Hperm. by apply elem_of_list_to_set in Hj0.
Qed.

(** X10: the joint count of a robot is the number of joint links passed
    to the constructor less the joint counts of its grippers, and the
    constructor changes no link from joint to fixed or back. *)
Theorem joint_count h ls gl chk base tool h' r :
  ERobot_init h ls gl chk base tool = Ok (h', r) →
  _n r = foldl (λ n g, n - g_n g) (count_joints h ls) (grippers r)
  ∧ (gl = GNone → _n r = count_joints h' ls)
  ∧ ∀ l, link_isjoint h' l = link_isjoint h l.
Proof.
  intros Hinit.
  destruct (ERobot_init_registered _ _ _ _ _ _ _ _ Hinit)
    as (h1 & n & k & Hreg & _ & Hjoint & Hn & Hgl).
  destruct Hreg as (_ & _ & _ & _ & _ & _ & ->).
  split; [done|]. split.
  - intros Hnone. destruct (Hgl Hnone) as [Hgs _].
    rewrite Hn, Hgs. simpl. by rewrite (keeps_count_joints _ _ _ Hjoint).
  - intros l. by apply keeps_link_isjoint.
Qed.


Lemma register_link_cases st link :
  link < length st.1.1.1 →
  (∃ st', register_link (Ok st) link = Ok st'
          ∧ length st'.1.1.1 = length st.1.1.1)
  ∨ ∃ nm, register_link (Ok st) link
          = Raise (ValueError ("link name " +:+ nm +:+ " is not unique")).
Proof.
  destruct st as [[[h1 d] n] k]. simpl. intros Hl.
  apply lookup_lt_is_Some in Hl as [x Hx].
  unfold register_link. munfold. unfold deref. rewrite Hx.
  destruct (name x) as [nm|]; simpl; case_bool_decide; eauto.
  left. eexists. split; [done|]. simpl. by rewrite length_insert.
Qed.

Lemma register_fold_cases ls :
  ∀ st, (∀ l, l ∈ ls → l < length st.1.1.1) →
    (∃ st', foldl register_link (Ok st) ls = Ok st')
    ∨ ∃ nm, foldl register_link (Ok st) ls
            = Raise (ValueError ("link name " +:+ nm +:+ " is not unique")).
Proof.
  induction ls as [|l ls IH]; intros st Hv; [left; by exists st|].
  cbn [foldl].
  destruct (register_link_cases st l) as [(st1 & -> & Hlen)|[nm ->]].
  - apply Hv, list_elem_of_here.
  - apply IH. intros l' Hl'. rewrite Hlen. apply Hv. by apply list_elem_of_further.
  - right. exists nm. by apply foldl_strict; [apply register_link_strict|].
Qed.

(** X11: when two of the links passed in carry the same name, or one
    link is passed twice under its name, construction raises the
    not-unique [ValueError]. *)
Theorem duplicate_name_rejected h ls gl chk base tool i j a b nm :
  (∀ l, l ∈ ls → l < length h) →
  ls !! i = Some a → ls !! j = Some b → i ≠ j →
  link_name h a = Some (Some nm) → link_name h b = Some (Some nm) →
  ∃ nm', ERobot_init h ls gl chk base tool
         = Raise (ValueError ("link name " +:+ nm' +:+ " is not unique")).
Proof.
  intros Hv Hi Hj Hij Ha Hb.
  destruct (register_fold_cases ls (h, ∅, 0, 0) Hv) as [[st Hrun]|[nm' Hrun]].
  - exfalso. pose proof (register_links _ _ _ Hrun) as Hreg.
    destruct st as [[[h1 d] n] k].
    destruct Hreg as (Hlen & Hnd & Hout & Hfrom & Hnamed & Hdict & Hn).
    assert (∀ l, l ∈ ls → link_name h l = Some (Some nm) → d !! nm = Some l)
      as Hd.
    { intros l Hl Hnm. apply Hdict. split; [done|]. unfold link_name in *.
      destruct (h !! l) as [x|] eqn:Hx; [|discriminate].
      destruct (Hfrom l x Hx) as (x1 & -> & [->|(nm0 & Hnone & ->)]);
        simpl in *; congruence. }
    apply Hij. apply (NoDup_lookup ls i j a Hnd Hi).
    assert (Some a = Some b) as [= ->]; [|done].
    rewrite <- (Hd a), <- (Hd b); try done; by eapply list_elem_of_lookup_2.
  - exists nm'. unfold ERobot_init, BaseERobot_init, link_tree. munfold.
    by rewrite Hrun.
Qed.

End InitExtras2.

Section InitExtras3.
Context {N : Numerics}.

Lemma registered_keeps {X} (f : ELink → X) h pre st :
  (∀ nm x, f (set_name nm x) = f x) →
  registered h pre st → keeps f h st.1.1.1.
Proof.
  destruct st as [[[h1 d] n] k]. intros Hf (Hlen & _ & _ & Hfrom & _). simpl.
  split; [done|]. intros l.
  destruct (h !! l) as [x|] eqn:Hx.
  - destruct (Hfrom l x Hx) as (x1 & -> & [->|(nm & _ & ->)]); simpl;
      by rewrite ?Hf.
  - apply lookup_ge_None in Hx. rewrite (proj2 (lookup_ge_None h1 l)); [done|lia].
Qed.

Lemma keeps_parent_of h h' l : keeps _parent h h' → parent_of h' l = parent_of h l.
Proof. intros [_ Hk]. apply Hk. Qed.

Lemma keeps_children_of h h' l :
  keeps _children h h' → children_of h' l = children_of h l.
Proof. intros [_ Hk]. unfold children_of. by rewrite Hk. Qed.

(** What the scan for the base has established once it has been through
    [pre]. *)
Lemma scan_base_tree ls h3 h4 bl :
  foldl scan_base (Ok (h3, None)) ls = Ok (h4, bl) →
  (∀ l, l ∈ ls → parent_of h3 l = Some PNone → bl = Some l)
  ∧ (∀ b, bl = Some b → b ∈ ls ∧ parent_of h3 b = Some PNone)
  ∧ (∀ l p, l ∈ ls → parent_of h3 l = Some (PLink p) → l ∈ children_of h4 p)
  ∧ (∀ l s, l ∈ ls → parent_of h3 l ≠ Some (PName s)).
Proof.
  intros Hrun.
  pose (P := λ (pre : list ref) (st : list ELink * option ref),
          keeps _parent h3 st.1
          ∧ (∀ l, l ∈ pre → parent_of h3 l = Some PNone → st.2 = Some l)
          ∧ (∀ b, st.2 = Some b → b ∈ pre ∧ parent_of h3 b = Some PNone)
          ∧ (∀ l p, l ∈ pre → parent_of h3 l = Some (PLink p) →
               l ∈ children_of st.1 p)
          ∧ (∀ l s, l ∈ pre → parent_of h3 l ≠ Some (PName s))).
  assert (P ([] ++ ls) (h4, bl)) as (_ & H1 & H2 & H3 & H4).
  { apply (foldl_outcome_inv scan_base P scan_base_strict) with (a := (h3, None));
      [| |done].
    - intros pre [a ba] link [a' ba'] (Hk & Hb1 & Hb2 & Hc & Hn).
      simpl in *. unfold scan_base. munfold. unfold deref.
      destruct (a !! link) as [x|] eqn:Hx; [|discriminate].
      assert (parent_of h3 link = Some (_parent x)) as Hpar.
      { rewrite <- (keeps_parent_of _ _ _ Hk). unfold parent_of. by rewrite Hx. }
      destruct (_parent x) as [|s|p] eqn:Hp; [|discriminate|].
      + destruct ba as [b0|]; [discriminate|]. intros [= <- <-].
        split; [done|]. simpl. split; [|split; [|split]].
        * intros l Hl Hl0. apply elem_of_app in Hl as [Hl|Hl].
          -- by specialize (Hb1 l Hl Hl0).
          -- apply list_elem_of_singleton in Hl. by subst.
        * intros b [= <-]. split; [|done].
          apply elem_of_app. right. by apply list_elem_of_singleton.
        * intros l p Hl Hlp. apply elem_of_app in Hl as [Hl|Hl]; [by apply Hc|].
          apply list_elem_of_singleton in Hl as ->. congruence.
        * intros l s Hl. apply elem_of_app in Hl as [Hl|Hl]; [by apply Hn|].
          apply list_elem_of_singleton in Hl as ->. congruence.
      + destruct (a !! p) as [y|] eqn:Hy; [|discriminate].
        intros [= <- <-]. simpl.
        assert (∀ c q, c ∈ children_of a q →
                       c ∈ children_of (<[p := append_child link y]> a) q)
          as Hgrow.
        { intros c q. unfold children_of.
          destruct (decide (q = p)) as [->|Hne].
          - rewrite list_lookup_insert_eq by (by eapply lookup_lt_Some).
            rewrite Hy. simpl. intros Hc0. apply elem_of_app. by left.
          - by rewrite list_lookup_insert_ne. }
        split; [|split; [|split; [|split]]].
        * eapply keeps_trans; [done|]. by eapply keeps_insert.
        * intros l Hl Hl0. apply elem_of_app in Hl as [Hl|Hl]; [by apply Hb1|].
          apply list_elem_of_singleton in Hl as ->. congruence.
        * intros b Hb. destruct (Hb2 b Hb) as [Hin Hb0]. split; [|done].
          apply elem_of_app. by left.
        * intros l q Hl Hlq. apply elem_of_app in Hl as [Hl|Hl].
          -- by apply Hgrow, Hc.
          -- apply list_elem_of_singleton in Hl as ->.
             assert (q = p) as -> by congruence.
             unfold children_of. cbn [fst].
             rewrite list_lookup_insert_eq by (by eapply lookup_lt_Some).
             simpl. apply elem_of_app. right. by apply list_elem_of_singleton.
        * intros l s Hl. apply elem_of_app in Hl as [Hl|Hl]; [by apply Hn|].
          apply list_elem_of_singleton in Hl as ->. congruence.
    - split; [apply keeps_refl|]. simpl.
      split; [intros l Hl; by apply elem_of_nil in Hl|].
      split; [done|].
      split; intros l ? Hl; by apply elem_of_nil in Hl. }
  done.
Qed.

(** The link objects between the scan for the base and the end of the
    constructor: parents and child lists stay. *)
Lemma ERobot_init_scanned h ls gl chk base tool h' r :
  ERobot_init h ls gl chk base tool = Ok (h', r) →
  ∃ h1 d n k h2 xs h3 h4,
    foldl register_link (Ok (h, ∅, 0, 0)) ls = Ok (h1, d, n, k)
    ∧ foldl (resolve_parent d) (Ok h1) ls = Ok h2
    ∧ derefs h2 ls = Ok xs
    ∧ (if forallb (λ x, match _parent x with PNone => true | _ => false end) xs
       then foldl (chain_parent ls) (Ok h2) (seq 0 (length ls - 1))
       else Ok h2) = Ok h3
    ∧ foldl scan_base (Ok (h3, None)) ls = Ok (h4, _base_link r)
    ∧ keeps _parent h3 h' ∧ keeps _children h4 h'.
Proof.
  intros Hinit.
  destruct (ERobot_init_stages _ _ _ _ _ _ _ _ Hinit)
    as (h4 & links' & gls & Htree & Hassign & _).
  destruct (link_tree_stages _ _ _ _ _ _ _ _ _ _ Htree)
    as (h1 & n & k & h2 & xs & h3 & H1 & H2 & Hxs & H3 & H4 & _).
  exists h1, (_linkdict r), n, k, h2, xs, h3, h4. do 5 (split; [done|]).
  destruct (assign_jindex_keeps _parent _ _ _ _ _ _ _ (λ _ _, eq_refl) Hassign)
    as [Hk1 _].
  destruct (assign_jindex_keeps _children _ _ _ _ _ _ _ (λ _ _, eq_refl) Hassign)
    as [Hk2 _].
  split; [|done].
  eapply keeps_trans; [|done]. by eapply scan_base_keeps.
Qed.

(** X12: in a robot that was built, a link that was passed in has no
    parent exactly when it is the base link, so there is at most one such
    link; every other one has a link as parent, not a name, and is on the
    child list of that parent. *)
Theorem constructed_tree h ls gl chk base tool h' r :
  ERobot_init h ls gl chk base tool = Ok (h', r) →
  (∀ l, l ∈ ls → (parent_of h' l = Some PNone ↔ _base_link r = Some l))
  ∧ (∀ b, _base_link r = Some b → b ∈ ls)
  ∧ (∀ l, l ∈ ls → _base_link r ≠ Some l →
       ∃ p, parent_of h' l = Some (PLink p) ∧ l ∈ children_of h' p).
Proof.
  intros Hinit.
  destruct (ERobot_init_scanned _ _ _ _ _ _ _ _ Hinit)
    as (h1 & d & n & k & h2 & xs & h3 & h4 & _ & _ & _ & _ & Hscan & Hp & Hc).
  destruct (scan_base_tree _ _ _ _ Hscan) as (Hb1 & Hb2 & Hch & Hnm).
  split; [|split].
  - intros l Hl. rewrite (keeps_parent_of _ _ _ Hp). split; [by apply Hb1|].
    intros Hb. by apply Hb2.
  - intros b Hb. by apply Hb2.
  - intros l Hl Hnb. rewrite (keeps_parent_of _ _ _ Hp).
    assert (is_Some (parent_of h3 l)) as [pr Hpr].
    { unfold parent_of. apply fmap_is_Some.
      destruct (h3 !! l) eqn:Hx; [done|]. exfalso.
      clear -Hscan Hl Hx. revert Hscan. generalize (@None nat).
      revert h3 Hx. induction ls as [|a ls IH]; [by apply elem_of_nil in Hl|].
      intros h3 Hx o. cbn [foldl].
      apply elem_of_cons in Hl as [->|Hl].
      - unfold scan_base at 2. munfold. unfold deref. rewrite Hx.
        by rewrite foldl_strict by (by apply scan_base_strict || done).
      - destruct (scan_base (Ok (h3, o)) a) as [[h5 o5]| |] eqn:Hs.
        + apply IH; [done|].
          assert (keeps _parent h3 h5) as [Hlen _].
          { apply (scan_base_keeps _parent [a] h3 o h5 o5 (λ _ _, eq_refl)).
            cbn [foldl]. by rewrite Hs. }
          apply lookup_ge_None. apply lookup_ge_None in Hx. lia.
        + by rewrite foldl_strict by (by apply scan_base_strict || done).
        + by rewrite foldl_strict by (by apply scan_base_strict || done). }
    destruct pr as [|s|p].
    + by specialize (Hb1 l Hl Hpr).
    + by destruct (Hnm l s Hl).
    + exists p. split; [done|].
      rewrite (keeps_children_of _ _ _ Hc). by apply Hch.
Qed.

End InitExtras3.

Section InitExtras4.
Context {N : Numerics}.

Lemma resolve_parent_noop d ls h1 h2 :
  (∀ l s, l ∈ ls → parent_of h1 l ≠ Some (PName s)) →
  foldl (resolve_parent d) (Ok h1) ls = Ok h2 → h2 = h1.
Proof.
  induction ls as [|link ls IH]; intros Hno; [by intros [= <-]|].
  cbn [foldl].
  assert (resolve_parent d (Ok h1) link = Ok h1
          ∨ ∀ a, resolve_parent d (Ok h1) link ≠ Ok a) as [->|Hbad].
  { unfold resolve_parent. munfold. unfold deref.
    destruct (h1 !! link) as [x|] eqn:Hx; [|by right].
    destruct (_parent x) as [|s|p] eqn:Hp; [by left| |by left].
    exfalso. apply (Hno link s); [apply list_elem_of_here|].
    unfold parent_of. by rewrite Hx, <- Hp. }
  - apply IH. intros l s Hl. apply Hno. by apply list_elem_of_further.
  - rewrite foldl_strict; [|apply resolve_parent_strict|done].
    intros Hrun. by destruct (Hbad h2).
Qed.

Lemma chain_parent_fold ls h2 :
  NoDup ls →
  ∀ m a,
    foldl (chain_parent ls) (Ok h2) (seq 0 m) = Ok a →
    length a = length h2
    ∧ (∀ i b c, i < m → ls !! i = Some b → ls !! (S i) = Some c →
         parent_of a c = Some (PLink b))
    ∧ (∀ l, (∀ i, 1 ≤ i ≤ m → ls !! i ≠ Some l) → a !! l = h2 !! l).
Proof.
  intros Hnd. induction m as [|m IH]; intros a.
  - intros [= <-]. split; [done|]. split; [intros; lia | done].
  - rewrite seq_S, foldl_app. cbn [foldl]. simpl.
    destruct (foldl (chain_parent ls) (Ok h2) (seq 0 m)) as [a0| |] eqn:Hrun;
      try discriminate.
    destruct (IH a0 eq_refl) as (Hlen & Hpar & Hout).
    unfold chain_parent. munfold. unfold deref. rewrite Nat.add_1_r.
    destruct (ls !! S m) as [c|] eqn:Hc; [|discriminate].
    destruct (ls !! m) as [b|] eqn:Hb; [|discriminate].
    destruct (a0 !! c) as [x|] eqn:Hx; [|discriminate].
    intros [= <-]. split; [by rewrite length_insert|]. split.
    + intros i b' c' Hi Hb' Hc'. unfold parent_of.
      destruct (decide (i = m)) as [->|Hne].
      * assert (c' = c) as -> by congruence. assert (b' = b) as -> by congruence.
        by rewrite list_lookup_insert_eq by (by eapply lookup_lt_Some).
      * rewrite list_lookup_insert_ne.
        -- apply (Hpar i b' c'); [lia|done|done].
        -- intros ->. assert (S m = S i) by (by eapply NoDup_lookup). lia.
    + intros l Hl. rewrite list_lookup_insert_ne.
      * apply Hout. intros i Hi. apply Hl. lia.
      * intros ->. apply (Hl (S m)); [lia|done].
Qed.

(** X13: links passed in without any parent are chained in the order of
    the list: the first is the base link, and every other one has the
    link before it as parent and is on that link's child list. *)
Theorem parentless_links_chained h ls gl chk base tool h' r :
  ERobot_init h ls gl chk base tool = Ok (h', r) →
  (∀ l, l ∈ ls → parent_of h l = Some PNone) →
  _base_link r = head ls
  ∧ ∀ i a b, ls !! i = Some a → ls !! (S i) = Some b →
      parent_of h' b = Some (PLink a) ∧ b ∈ children_of h' a.
Proof.
  intros Hinit Hnone.
  destruct (ERobot_init_scanned _ _ _ _ _ _ _ _ Hinit)
    as (h1 & d & n & k & h2 & xs & h3 & h4 & H1 & H2 & Hxs & H3 & Hscan
        & Hp & Hc).
  pose proof (register_links _ _ _ H1) as Hreg.
  pose proof (registered_keeps _parent _ _ _ (λ _ _, eq_refl) Hreg) as Hk1.
  simpl in Hk1.
  destruct Hreg as (_ & Hnd & _).
  assert (∀ l, l ∈ ls → parent_of h1 l = Some PNone) as Hnone1.
  { intros l Hl. rewrite (keeps_parent_of _ _ _ Hk1). by apply Hnone. }
  assert (h2 = h1) as ->.
  { eapply resolve_parent_noop; [|done]. intros l s Hl.
    rewrite (Hnone1 l Hl). discriminate. }
  assert (forallb (λ x, match _parent x with PNone => true | _ => false end) xs
          = true) as Hall.
  { apply forallb_true_Forall. apply derefs_Ok in Hxs.
    clear -Hxs Hnone1. induction Hxs as [|l x ls xs Hx _ IH]; [constructor|].
    constructor.
    - specialize (Hnone1 l (list_elem_of_here _ _)). unfold parent_of in Hnone1.
      rewrite Hx in Hnone1. simpl in Hnone1. by injection Hnone1 as ->.
    - apply IH. intros l' Hl'. apply Hnone1. by apply list_elem_of_further. }
  rewrite Hall in H3.
  destruct (chain_parent_fold ls h1 Hnd _ _ H3) as (Hlen & Hpar & Hout).
  destruct (scan_base_tree _ _ _ _ Hscan) as (Hb1 & Hb2 & Hch & _).
  split.
  - destruct ls as [|l0 ls'] eqn:Hls.
    + destruct (_base_link r) as [b|]; [|done].
      destruct (Hb2 b eq_refl) as [Hb _]. by apply elem_of_nil in Hb.
    + simpl. apply Hb1; [apply list_elem_of_here|].
      unfold parent_of. rewrite Hout; [apply Hnone1, list_elem_of_here|].
      intros i Hi Hli.
      assert (i = 0) by (by eapply (NoDup_lookup (l0 :: ls'))). lia.
  - intros i a b Ha Hb.
    assert (parent_of h3 b = Some (PLink a)) as Hab.
    { apply (Hpar i a b); [|done|done].
      apply lookup_lt_Some in Hb. lia. }
    split; [by rewrite (keeps_parent_of _ _ _ Hp)|].
    rewrite (keeps_children_of _ _ _ Hc). apply Hch; [|done].
    by eapply list_elem_of_lookup_2.
Qed.

End InitExtras4.

Section InitExtraExamples.
Import ZModel.

Lemma link_names_resolve_witness :
  (∀ l, l ∈ [0; 1; 2; 3; 4] →
     ∃ nm, link_name hb l = Some (Some nm)
           ∧ _getlink rb (ArgStr nm) ArgNone = Ok l
           ∧ ∀ nm0, link_name branched_links l = Some (Some nm0) → nm = nm0)
  ∧ (∀ nm l, _getlink rb (ArgStr nm) ArgNone = Ok l →
       l ∈ [0; 1; 2; 3; 4] ∧ link_name hb l = Some (Some nm)).
Proof.
  apply (link_names_resolve branched_links [0; 1; 2; 3; 4] GNone true None None
           hb rb).
  reflexivity.
Defined.

Lemma constructed_robot_wf_witness : robot_wf hs rs.
Proof.
  apply (constructed_robot_wf serial_links [0; 1; 2] true None None hs rs).
  reflexivity.
Defined.

Lemma jindex_check_exhausts_witness :
  ∃ jset,
    foldl check_jindex (Ok (list_to_set (seq 0 2)))
      (linked (indexed_links (Some 1) (Some 0)) [0; 1]) = Ok jset
    ∧ jset = ∅.
Proof.
  destruct (foldl check_jindex (Ok (list_to_set (seq 0 2)))
              (linked (indexed_links (Some 1) (Some 0)) [0; 1]))
    as [jset| |] eqn:Hrun; [|vm_compute in Hrun; discriminate..].
  exists jset. split; [reflexivity|].
  apply (jindex_check_exhausts (linked (indexed_links (Some 1) (Some 0)) [0; 1])
           [0; 1] (linked (indexed_links (Some 1) (Some 0)) [0; 1]) 2 jset);
    [reflexivity | reflexivity | exact Hrun].
Defined.

Lemma joint_count_witness :
  _n rg = foldl (λ n g, n - g_n g) (count_joints gripped_links [0; 1; 2; 3])
            (grippers rg)
  ∧ (GLink 2 = GNone → _n rg = count_joints hg [0; 1; 2; 3])
  ∧ ∀ l, link_isjoint hg l = link_isjoint gripped_links l.
Proof.
  apply (joint_count gripped_links [0; 1; 2; 3] (GLink 2) true None None hg rg).
  reflexivity.
Defined.

Lemma duplicate_name_rejected_witness :
  ∃ nm', ERobot_init twins_links [0; 1] GNone true None None
         = Raise (ValueError ("link name " +:+ nm' +:+ " is not unique")).
Proof.
  apply (duplicate_name_rejected twins_links [0; 1] GNone true None None
           0 1 0 1 "a"); try reflexivity.
  - intros l Hl. apply elem_of_cons in Hl as [->|Hl]; [simpl; lia|].
    apply list_elem_of_singleton in Hl as ->. simpl. lia.
  - lia.
Defined.

Lemma constructed_tree_witness :
  (∀ l, l ∈ [0; 1; 2; 3; 4] →
     (parent_of hb l = Some PNone ↔ _base_link rb = Some l))
  ∧ (∀ b, _base_link rb = Some b → b ∈ [0; 1; 2; 3; 4])
  ∧ (∀ l, l ∈ [0; 1; 2; 3; 4] → _base_link rb ≠ Some l →
       ∃ p, parent_of hb l = Some (PLink p) ∧ l ∈ children_of hb p).
Proof.
  apply (constructed_tree branched_links [0; 1; 2; 3; 4] GNone true None None
           hb rb).
  reflexivity.
Defined.

Lemma parentless_links_chained_witness :
  _base_link rs = head [0; 1; 2]
  ∧ ∀ i a b, [0; 1; 2] !! i = Some a → [0; 1; 2] !! (S i) = Some b →
      parent_of hs b = Some (PLink a) ∧ b ∈ children_of hs a.
Proof.
  apply (parentless_links_chained serial_links [0; 1; 2] GNone true None None
           hs rs); [reflexivity|].
  intros l Hl.
  repeat (apply elem_of_cons in Hl as [->|Hl]; [reflexivity|]).
  by apply elem_of_nil in Hl.
Defined.

End InitExtraExamples.

(** ** Kinematics along the path *)

Section KinExtras.
Context {N : Numerics} {I : Imports}.

Lemma fkine_step_strict h qk : strict (fkine_step h qk).
Proof. by split. Qed.

Lemma fkine_up_step h fuel start link p qk Tk :
  parent_of h link = Some (PLink p) →
  fkine_up h (S fuel) start link qk Tk
  = match fkine_step h qk (Ok Tk) p with
    | Ok Tk' => if bool_decide (Some p = start) then Ok Tk'
                else fkine_up h fuel start p qk Tk'
    | Raise e => Raise e
    | Diverge => Diverge
    end.
Proof.
  unfold parent_of. intros Hp. simpl. unfold deref, fkine_step. munfold.
  destruct (h !! link) as [x|]; [|discriminate]. simpl in Hp.
  injection Hp as ->.
  destruct (link_A_at h p qk) as [[a|]| |]; try done.
Qed.

(** X14: when [start] is a proper ancestor of [end], the loop of [fkine]
    goes up exactly the links of the path [get_path] returns, from the
    parent of [end] to [start] itself, and puts the transform of each on
    the left. *)
Theorem fkine_follows_path h s e p qk :
  descends h s e p → s ≠ e →
  ∀ fuel Tk,
    length p ≤ S fuel →
    fkine_up h fuel (Some s) e qk Tk
    = foldl (fkine_step h qk) (Ok Tk) (tail (reverse p)).
Proof.
  induction 1 as [Hs|l p path Hne Hpar Hd IH]; intros Hse fuel Tk Hfuel;
    [done|].
  rewrite reverse_app. simpl.
  rewrite length_app in Hfuel. simpl in Hfuel.
  pose proof (descends_last _ _ _ _ Hd) as Hlast.
  assert (reverse path = p :: tail (reverse path)) as Hrev.
  { rewrite <- head_reverse in Hlast.
    destruct (reverse path); [discriminate|]. simpl in *. congruence. }
  destruct fuel as [|fuel].
  { destruct path; [discriminate|]. simpl in Hfuel. lia. }
  rewrite (fkine_up_step _ _ _ _ _ _ _ Hpar), Hrev. cbn [foldl].
  destruct (fkine_step h qk (Ok Tk) p) as [Tk'| |] eqn:Hstep.
  - case_bool_decide as Hps.
    + injection Hps as ->.
      assert (path = [s]) as ->.
      { eapply descends_det; [done|]. constructor.
        by eapply descends_valid. }
      done.
    + rewrite IH; [done| congruence | lia].
  - by rewrite foldl_strict by (by apply fkine_step_strict || done).
  - by rewrite foldl_strict by (by apply fkine_step_strict || done).
Qed.

(** X15: [fkine] does not look for a path. When [start] is not among
    the proper ancestors of [end], as when it is [end] itself or on
    another branch, the loop goes up to the root of the tree and
    multiplies every ancestor's transform on, where [get_path] raises. *)
Theorem fkine_past_start h e c start qk :
  ancestry h e c →
  (∀ s, start = Some s → s ∉ tail c) →
  ∀ fuel Tk,
    length c ≤ fuel →
    fkine_up h fuel start e qk Tk
    = foldl (fkine_step h qk) (Ok Tk) (tail c).
Proof.
  induction 1 as [l Hroot|l p c Hpar Ha IH]; intros Hs fuel Tk Hfuel.
  - destruct fuel as [|fuel]; [simpl in Hfuel; lia|].
    simpl. unfold parent_of, deref in *. munfold.
    destruct (h !! l) as [x|]; [|discriminate]. simpl in Hroot.
    by injection Hroot as ->.
  - destruct fuel as [|fuel]; [simpl in Hfuel; lia|].
    simpl in Hfuel.
    assert (∃ c', c = p :: c') as [c' ->] by (inversion Ha; subst; eauto).
    rewrite (fkine_up_step _ _ _ _ _ _ _ Hpar).
    simpl in Hs, Hfuel, IH. cbn [tail foldl].
    destruct (fkine_step h qk (Ok Tk) p) as [Tk'| |] eqn:Hstep.
    + rewrite bool_decide_false.
      * apply IH; [|lia].
        intros s Hstart Hin. apply (Hs s Hstart).
        by apply list_elem_of_further.
      * intros Hp. apply (Hs p); [done|]. apply list_elem_of_here.
    + by rewrite foldl_strict by (by apply fkine_step_strict || done).
    + by rewrite foldl_strict by (by apply fkine_step_strict || done).
Qed.

End KinExtras.

Section JacobianExtras.
Context {N : Numerics} {I : Imports}.

#[local] Arguments jacob0_step : simpl never.
#[local] Arguments set_col3 : simpl never.
#[local] Arguments col3 : simpl never.

(** The columns a joint writes stay in the Jacobian the loop returns. *)
Lemma jacob0_joint_column h q end_ tool T n pre link post
    x et U1 j1 J1 Uf jf Jf :
  h !! link = Some x → isjoint x = true → v x = Some et →
  foldl (jacob0_step h q end_ tool T) (Ok (eye4, 0, zeros2 6 n)) pre
    = Ok (U1, j1, J1) →
  foldl (jacob0_step h q end_ tool T) (Ok (eye4, 0, zeros2 6 n))
    (pre ++ link :: post) = Ok (Uf, jf, Jf) →
  ∃ a, link_A_at h link q = Ok (Some a)
       ∧ j1 = count_joints h pre
       ∧ ∀ t w,
           jacob0_columns (axis et)
             (if arg_is_link end_ link
              then matmul (matmul U1 a) (SE3_A tool) else matmul U1 a)
             (matmul (inv (if arg_is_link end_ link
                           then matmul (matmul U1 a) (SE3_A tool)
                           else matmul U1 a)) T)
           = Some (t, w) →
           col3 Jf 0 j1 = Ok t ∧ col3 Jf 3 j1 = Ok w.
Proof.
  intros Hx Hj Hv Hpre Hall.
  rewrite foldl_app, Hpre in Hall. simpl in Hall.
  destruct (jacob0_step h q end_ tool T (Ok (U1, j1, J1)) link)
    as [[[U2 j2] J2]| |] eqn:Hstep;
    [|by rewrite jacob0_fold_Raise in Hall
     |by rewrite jacob0_fold_Diverge in Hall].
  destruct (jacob0_fold_frame _ _ _ _ _ _ _ _ _ _ _ _ Hpre) as [Hj1 _].
  destruct (jacob0_step_frame _ _ _ _ _ _ _ _ _ _ _ _ Hstep) as [Hj2 _].
  destruct (jacob0_fold_frame _ _ _ _ _ _ _ _ _ _ _ _ Hall) as [_ Hkeep].
  unfold link_isjoint in Hj2. rewrite Hx in Hj2. simpl in Hj2.
  rewrite Hj in Hj2. subst j2.
  revert Hstep. unfold jacob0_step, deref. munfold. rewrite Hx. simpl.
  rewrite Hj.
  destruct (link_A_at h link q) as [[a|]| |]; simpl; try discriminate.
  rewrite Hv. simpl. intros Hstep.
  exists a. split; [done|]. split; [simpl in Hj1; lia|].
  intros t w Hcols. rewrite Hcols in Hstep.
  destruct (set_col3 J1 0 j1 t) as [J3| |] eqn:H1; simpl in Hstep;
    try discriminate.
  destruct (set_col3 J3 3 j1 w) as [J4| |] eqn:H2; simpl in Hstep;
    try discriminate.
  injection Hstep as <- <-.
  rewrite !Hkeep by lia. split.
  - rewrite (set_col3_other _ _ _ _ _ _ _ H2) by lia.
    by apply (set_col3_col3 _ _ _ _ _ H1).
  - by apply (set_col3_col3 _ _ _ _ _ H2).
Qed.

(** X16: a joint of the path that turns about z, y or x writes, in the
    column of its position among the joints, the rotation axis [a], [o]
    or [n] of the accumulated [U] as its rotational part, and as its
    translational part [o x - n y], [n z - a x] or [a y - o z], where
    [(x, y, z)] is the translation of [inv(U) @ T]. *)
Theorem jacob0_revolute_column h q end_ tool T n pre link post
    x et U1 j1 J1 Uf jf Jf :
  h !! link = Some x → isjoint x = true → v x = Some et →
  foldl (jacob0_step h q end_ tool T) (Ok (eye4, 0, zeros2 6 n)) pre
    = Ok (U1, j1, J1) →
  foldl (jacob0_step h q end_ tool T) (Ok (eye4, 0, zeros2 6 n))
    (pre ++ link :: post) = Ok (Uf, jf, Jf) →
  ∃ a, link_A_at h link q = Ok (Some a)
       ∧ let U := if arg_is_link end_ link
                  then matmul (matmul U1 a) (SE3_A tool) else matmul U1 a in
         let Tu := matmul (inv U) T in
         let nx := mcol3 U 0 in
         let ox := mcol3 U 1 in
         let ax := mcol3 U 2 in
         (axis et = "Rz" →
          col3 Jf 0 j1 = Ok (vsub (vscale ox (entry Tu 0 3))
                                  (vscale nx (entry Tu 1 3)))
          ∧ col3 Jf 3 j1 = Ok ax)
         ∧ (axis et = "Ry" →
            col3 Jf 0 j1 = Ok (vsub (vscale nx (entry Tu 2 3))
                                    (vscale ax (entry Tu 0 3)))
            ∧ col3 Jf 3 j1 = Ok ox)
         ∧ (axis et = "Rx" →
            col3 Jf 0 j1 = Ok (vsub (vscale ax (entry Tu 1 3))
                                    (vscale ox (entry Tu 2 3)))
            ∧ col3 Jf 3 j1 = Ok nx).
Proof.
  intros Hx Hj Hv Hpre Hall.
  destruct (jacob0_joint_column _ _ _ _ _ _ _ _ _ _ _ _ _ _ _ _ _
              Hx Hj Hv Hpre Hall) as (a & Ha & _ & Hcols).
  exists a. split; [done|]. simpl.
  split; [|split]; intros Hax; apply Hcols; unfold jacob0_columns;
    rewrite Hax; reflexivity.
Qed.

Lemma shape2_zeros a b : shape2 (zeros2 a b) a b.
Proof.
  unfold shape2, zeros2. split; [by rewrite length_replicate|].
  apply Forall_replicate. by rewrite length_replicate.
Qed.

Lemma set2_shape (J J' : ndarray2) a b i j x :
  set2 J i j x = Ok J' → shape2 J a b → shape2 J' a b.
Proof.
  unfold set2. munfold. destruct (get2 J i j); try discriminate.
  intros [= <-] [Hlen Hrows]. split; [by rewrite length_alter|].
  apply Forall_alter; [done|]. intros row _ Hrow.
  by rewrite length_insert.
Qed.

Lemma set_col3_shape (J J' : ndarray2) a b i j u :
  set_col3 J i j u = Ok J' → shape2 J a b → shape2 J' a b.
Proof.
  destruct u as [[x y] z]. unfold set_col3. munfold.
  destruct (set2 J i j x) as [J1| |] eqn:H1; try discriminate.
  destruct (set2 J1 (i + 1) j y) as [J2| |] eqn:H2; try discriminate.
  intros H3 Hs. eauto using set2_shape.
Qed.

Lemma jacob0_step_shape h q end_ tool T a b U j J link U' j' J' :
  jacob0_step h q end_ tool T (Ok (U, j, J)) link = Ok (U', j', J') →
  shape2 J a b → shape2 J' a b.
Proof.
  unfold jacob0_step, deref. munfold.
  destruct (h !! link) as [x|]; simpl; [|discriminate].
  destruct (isjoint x).
  - destruct (link_A_at h link q) as [[m|]| |]; simpl; try discriminate.
    destruct (v x) as [et|]; simpl; [|discriminate].
    destruct (jacob0_columns _ _ _) as [[t w]|].
    + destruct (set_col3 J 0 j t) as [J1| |] eqn:H1; simpl; try discriminate.
      destruct (set_col3 J1 3 j w) as [J2| |] eqn:H2; simpl; try discriminate.
      intros [= <- <- <-] Hs. eauto using set_col3_shape.
    + by intros [= <- <- <-].
  - by intros [= <- <- <-].
Qed.

Lemma jacob0_fold_shape h q end_ tool T a b path :
  ∀ U j J U' j' J',
    foldl (jacob0_step h q end_ tool T) (Ok (U, j, J)) path = Ok (U', j', J') →
    shape2 J a b → shape2 J' a b.
Proof.
  induction path as [|link path IH]; intros U j J U' j' J'; simpl.
  - by intros [= <- <- <-].
  - destruct (jacob0_step h q end_ tool T (Ok (U, j, J)) link)
      as [[[U1 j1] J1]| |] eqn:Hstep.
    + intros Hrest Hs. eapply IH; [done|]. by eapply jacob0_step_shape.
    + by rewrite jacob0_fold_Raise.
    + by rewrite jacob0_fold_Diverge.
Qed.

(** X17: the array [jacob0] returns without the extension has one
    column for every joint on the path from [start] to [end], and six
    rows, or three when a half is asked for. *)
Theorem jacob0_shape h q end_ start tool T half analytical r J r' :
  jacob0 h q end_ start tool T half analytical false r = (Ok J, r') →
  ∃ p n t r1,
    get_path h end_ start false r = (Ok (Path p n t), r1)
    ∧ shape2 J (match half with None => 6 | Some _ => 3 end) n.
Proof.
  unfold jacob0, jacob0_loop. munfold.
  destruct (get_path h end_ start false r) as [[[p n t|]| |] r1] eqn:Hpath;
    try discriminate.
  simpl.
  destruct (getvector q (_n r1)) as [qv| |]; try discriminate.
  destruct (match T with Some T0 => _ | None => _ end) as [[T1| |] r2];
    try discriminate.
  destruct (foldl _ _ p) as [[[U j] J0]| |] eqn:Hfold; try discriminate.
  simpl. intros Hfin. exists p, n, t, r1. split; [done|].
  pose proof (jacob0_fold_shape _ _ _ _ _ 6 n _ _ _ _ _ _ _ Hfold
                (shape2_zeros 6 n)) as [Hlen Hrows].
  destruct (jacob0_finish J0 half analytical) as [J1| |] eqn:Hf;
    try discriminate.
  injection Hfin as -> _.
  unfold jacob0_finish in Hf. munfold.
  assert (∃ J2, (match half with
                 | Some hf =>
                     if bool_decide (hf = "trans") then Ok (take 3 J2)
                     else if bool_decide (hf = "rot") then Ok (drop 3 J2)
                     else Raise (ValueError "bad half specified")
                 | None => Ok J2
                 end) = Ok J ∧ J2 = J0) as (J2 & Hhalf & ->).
  { destruct analytical as [an|]; [|by exists J0].
    case_bool_decide; [|by exists J0].
    repeat case_bool_decide; discriminate. }
  destruct half as [hf|]; [|by injection Hhalf as <-].
  repeat case_bool_decide; try discriminate; injection Hhalf as <-;
    (split; [rewrite ?length_take, ?length_drop; lia
            |first [by apply Forall_take | by apply Forall_drop]]).
Qed.

End JacobianExtras.

Section HessianExtras.
Context {N : Numerics} {I : Imports}.

Lemma shape3_zeros a b c : shape3 (zeros3 a b c) a b c.
Proof.
  unfold shape3, zeros3. split; [by rewrite length_replicate|].
  apply Forall_replicate. apply shape2_zeros.
Qed.

Lemma set3_shape (H H' : ndarray3) a b c k i j x :
  set3 H k i j x = Ok H' → shape3 H a b c → shape3 H' a b c.
Proof.
  unfold set3. munfold. destruct (get3 H k i j); try discriminate.
  intros [= <-] [Hlen Hplanes]. split; [by rewrite length_alter|].
  apply Forall_alter; [done|]. intros plane _ [Hl Hrows].
  split; [by rewrite length_alter|].
  apply Forall_alter; [done|]. intros row _ Hrow. by rewrite length_insert.
Qed.

Lemma set_fibre3_shape (H H' : ndarray3) a b c k i j u :
  set_fibre3 H k i j u = Ok H' → shape3 H a b c → shape3 H' a b c.
Proof.
  destruct u as [[x y] z]. unfold set_fibre3. munfold.
  destruct (set3 H k i j x) as [H1| |] eqn:E1; try discriminate.
  destruct (set3 H1 (k + 1) i j y) as [H2| |] eqn:E2; try discriminate.
  intros E3 Hs. eauto using set3_shape.
Qed.

Lemma hessian0_cell_shape J0 j H i H' a b c :
  hessian0_cell J0 j (Ok H) i = Ok H' → shape3 H a b c → shape3 H' a b c.
Proof.
  unfold hessian0_cell. munfold.
  destruct (col3 J0 3 j) as [wj| |]; try discriminate.
  destruct (col3 J0 0 i) as [ti| |]; try discriminate.
  destruct (set_fibre3 H 0 i j _) as [H1| |] eqn:E1; try discriminate.
  destruct (col3 J0 3 i) as [wi| |]; try discriminate.
  destruct (set_fibre3 H1 3 i j _) as [H2| |] eqn:E2; try discriminate.
  case_bool_decide.
  - destruct (fibre3 H2 0 i j) as [t| |]; try discriminate.
    intros E3 Hs. eauto using set_fibre3_shape.
  - intros [= <-] Hs. eauto using set_fibre3_shape.
Qed.

Lemma hessian0_cell_strict J0 j : strict (hessian0_cell J0 j).
Proof. by split. Qed.

Lemma hessian0_loops_shape J0 n H :
  hessian0_loops J0 n = Ok H → shape3 H 6 n n.
Proof.
  unfold hessian0_loops. intros Hrun.
  assert (strict (λ acc j, foldl (hessian0_cell J0 j) acc (seq j (n - j))))
    as Hstrict.
  { split; intros; apply foldl_strict; try apply hessian0_cell_strict; done. }
  apply (foldl_outcome_inv
           (λ acc j, foldl (hessian0_cell J0 j) acc (seq j (n - j)))
           (λ _ H, shape3 H 6 n n) Hstrict)
    with (l := seq 0 n) (pre := []) (a := zeros3 6 n n);
    [|apply shape3_zeros|done].
  intros _ H0 j H1 Hs Hinner.
  apply (foldl_outcome_inv (hessian0_cell J0 j) (λ _ H, shape3 H 6 n n)
           (hessian0_cell_strict J0 j))
    with (l := seq j (n - j)) (pre := []) (a := H0); [|done|done].
  intros _ H2 i H3 Hs2 Hcell. by eapply (hessian0_cell_shape J0 j).
Qed.

(** X18: the tensor [hessian0] returns has six planes of [n] rows and
    [n] columns, [n] being the number of joints on the path from [start]
    to [end]. *)
Theorem hessian0_shape h q J0 end_ start r H r' :
  hessian0 h q J0 end_ start r = (Ok H, r') →
  ∃ e s t r1 p n t' r2,
    _get_limit_links end_ start r = (Ok (e, s, t), r1)
    ∧ get_path h (arg_of e) (arg_of s) false r1 = (Ok (Path p n t'), r2)
    ∧ shape3 H 6 n n.
Proof.
  unfold hessian0. munfold.
  destruct (_get_limit_links end_ start r) as [[[[e s] t]| |] r1] eqn:Hlim;
    try discriminate.
  destruct (get_path h (arg_of e) (arg_of s) false r1)
    as [[[p n t'|]| |] r2] eqn:Hpath; try discriminate.
  simpl.
  destruct (match J0 with Some J => _ | None => _ end) as [[J| |] r3];
    try discriminate.
  destruct (hessian0_loops J n) as [H0| |] eqn:Hloops; try discriminate.
  intros [= <- <-]. exists e, s, t, r1, p, n, t', r2.
  split; [done|]. split; [done|]. by apply (hessian0_loops_shape J).
Qed.

End HessianExtras.

Section RneExtras.
Context {N : Numerics} {I : Imports} {Sp : Spatial}.

Lemma rne_setup_strict h : strict (rne_setup h).
Proof. by split. Qed.

Lemma rne_setup_step h Is s jl :
  (∃ e, rne_setup h (Ok (Is, s)) jl = Raise e)
  ∨ (jl.1 < length Is
     ∧ ∃ Is' s', rne_setup h (Ok (Is, s)) jl = Ok (Is', s')
                 ∧ length Is' = length Is).
Proof.
  unfold rne_setup, setitem, item, deref. munfold.
  destruct (h !! jl.2) as [x|]; [|eauto].
  destruct (Is !! jl.1) as [i0|] eqn:Hi; [|eauto]. simpl.
  destruct (v x) as [et|]; [|eauto].
  destruct (s !! jl.1); [|eauto]. simpl.
  right. split; [by eapply lookup_lt_Some|].
  eexists _, _. split; [done|]. by rewrite length_insert.
Qed.

Lemma rne_setup_raises h pairs :
  ∀ Is s jl,
    jl ∈ pairs → length Is ≤ jl.1 →
    ∃ e, foldl (rne_setup h) (Ok (Is, s)) pairs = Raise e.
Proof.
  induction pairs as [|p pairs IH]; intros Is s jl Hin Hlen.
  { by apply elem_of_nil in Hin. }
  cbn [foldl].
  destruct (rne_setup_step h Is s p) as [[e ->]|(Hp & Is' & s' & -> & Hl)].
  - exists e. by apply foldl_strict; [apply rne_setup_strict|].
  - apply elem_of_cons in Hin as [->|Hin]; [lia|].
    apply (IH _ _ jl Hin). lia.
Qed.

(** X19: [rne] raises on every robot that has more links than joints,
    as a robot with a fixed link has: the arrays it fills link by link
    have one place for every joint. *)
Theorem rne_needs_joints_only h robot robot_gravity q qd qdd gravity :
  _n robot < length (links robot) →
  ∃ e, rne h robot robot_gravity q qd qdd gravity = Raise e.
Proof.
  intros Hn. unfold rne. munfold.
  assert (is_Some (links robot !! _n robot)) as [l Hl]
    by (by apply lookup_lt_is_Some).
  destruct (rne_setup_raises h (imap (λ j l, (j, l)) (links robot))
              (replicate (_n robot) (SpatialInertia rzero []))
              (replicate (_n robot) None) (_n robot, l)) as [e ->].
  - apply list_elem_of_lookup. exists (_n robot).
    by rewrite list_lookup_imap, Hl.
  - by rewrite length_replicate.
  - by exists e.
Qed.

End RneExtras.

Section VelocityExtras.
Context {N : Numerics} {I : Imports}.

(** What [velocity_blocks] builds, entry by entry. *)
Lemma velocity_blocks_entries (Rm : nat → nat → R) :
  ∃ Jv, velocity_blocks Rm = Ok Jv
        ∧ ∀ i j, i < 6 → j < 6 →
            get2 Jv i j
            = Ok (if decide (i < 3 ∧ j < 3) then Rm i j
                  else if decide (3 ≤ i ∧ 3 ≤ j) then Rm (i - 3) (j - 3)
                  else rzero).
Proof.
  eexists. split; [reflexivity|].
  intros i j Hi Hj.
  do 6 (destruct i as [|i];
        [do 6 (destruct j as [|j]; [reflexivity|]); lia|]).
  lia.
Qed.

(** X20: [jacob0v] puts the rotation of the pose in the two diagonal
    3x3 blocks of a 6x6 array and zero elsewhere, and [jacobev], called
    with the same arguments, returns the transpose of that array. The
    pose is [T] when one is passed. *)
Theorem velocity_jacobians_transposed h q end_ start tool T r J0v r' :
  jacob0v h q end_ start tool T r = (Ok J0v, r') →
  ∃ Jev e s t r1 Tp,
    jacobev h q end_ start tool T r = (Ok Jev, r')
    ∧ _get_limit_links end_ start r = (Ok (e, s, t), r1)
    ∧ velocity_pose h q e s tool T r1 = (Ok Tp, r')
    ∧ (∀ T0, T = Some T0 → Tp = T0)
    ∧ ∀ i j, i < 6 → j < 6 →
        get2 Jev i j = get2 J0v j i
        ∧ get2 J0v i j
          = Ok (if decide (i < 3 ∧ j < 3) then entry (SE3_A Tp) i j
                else if decide (3 ≤ i ∧ 3 ≤ j)
                     then entry (SE3_A Tp) (i - 3) (j - 3)
                     else rzero).
Proof.
  unfold jacob0v, jacobev. munfold.
  destruct (_get_limit_links end_ start r) as [[[[e s] t]| |] r1] eqn:Hlim;
    try discriminate.
  destruct (velocity_pose h q e s tool T r1) as [[Tp| |] r2] eqn:Hpose;
    try discriminate.
  simpl.
  destruct (velocity_blocks_entries (λ i j, entry (SE3_A Tp) i j))
    as (J0 & -> & H0).
  destruct (velocity_blocks_entries (λ i j, entry (SE3_A Tp) j i))
    as (Je & -> & He).
  intros [= <- <-]. exists Je, e, s, t, r1, Tp.
  do 3 (split; [done|]). split.
  { intros T0 ->. simpl in Hpose. by injection Hpose as ->. }
  intros i j Hi Hj. split; [|by apply H0].
  rewrite He, H0 by done.
  repeat case_decide; try done; lia.
Qed.

End VelocityExtras.

Section KinExtraExamples.
Import ZModel.

Lemma fkine_follows_path_witness :
  fkine_up hb 5 (Some 0) 2 ([3; 4; 5]%Z : list Z) (Some zeye)
  = foldl (fkine_step hb ([3; 4; 5]%Z : list Z)) (Ok (Some zeye))
      (tail (reverse [0; 1; 2])).
Proof.
  apply (fkine_follows_path hb 0 2 [0; 1; 2]).
  - apply (descends_child _ 0 2 1 [0; 1]); [lia | reflexivity |].
    apply (descends_child _ 0 1 0 [0]); [lia | reflexivity |].
    apply descends_here. eexists. reflexivity.
  - lia.
  - simpl. lia.
Defined.

Lemma fkine_past_start_witness :
  fkine_up hb 5 (Some 1) 4 ([3; 4; 5]%Z : list Z) (Some zeye)
  = foldl (fkine_step hb ([3; 4; 5]%Z : list Z)) (Ok (Some zeye))
      (tail [4; 3; 0]).
Proof.
  apply (fkine_past_start hb 4 [4; 3; 0] (Some 1)).
  - apply ancestry_up with (p := 3); [reflexivity|].
    apply ancestry_up with (p := 0); [reflexivity|].
    apply ancestry_root. reflexivity.
  - intros s [= <-] Hin. simpl in Hin.
    repeat (apply elem_of_cons in Hin as [Hin|Hin]; [discriminate|]).
    by apply elem_of_nil in Hin.
  - simpl. lia.
Defined.

Lemma jacob0_revolute_column_witness :
  ∃ Uf jf Jf,
    foldl (jacob0_step hs ([2; 1]%Z : list Z) ArgNone SE3_id (trans 3 0 0))
      (Ok (eye4, 0, zeros2 6 2)) [0; 1; 2] = Ok (Uf, jf, Jf)
    ∧ col3 Jf 3 1 = Ok (0%Z, 0%Z, 1%Z).
Proof.
  destruct (foldl (jacob0_step hs ([2; 1]%Z : list Z) ArgNone SE3_id
                     (trans 3 0 0))
              (Ok (eye4, 0, zeros2 6 2)) [0; 1; 2])
    as [[[Uf jf] Jf]| |] eqn:Hall; [|vm_compute in Hall; discriminate..].
  exists Uf, jf, Jf. split; [reflexivity|].
  edestruct (jacob0_revolute_column hs ([2; 1]%Z : list Z) ArgNone SE3_id
               (trans 3 0 0) 2 [0] 1 [2]) as (a & Ha & Hz & _);
    [reflexivity | reflexivity | reflexivity | reflexivity | exact Hall |].
  vm_compute in Ha. injection Ha as <-.
  destruct (Hz eq_refl) as [_ Hw]. exact Hw.
Defined.

Lemma jacob0_shape_witness :
  ∃ J p n t r1,
    (jacob0 hb (zvec [3; 4; 5]%Z) (ArgStr "ee_1") ArgNone None None
       (Some "rot") None false rb).1 = Ok J
    ∧ get_path hb (ArgStr "ee_1") ArgNone false rb = (Ok (Path p n t), r1)
    ∧ shape2 J 3 n.
Proof.
  destruct (jacob0 hb (zvec [3; 4; 5]%Z) (ArgStr "ee_1") ArgNone None None
              (Some "rot") None false rb) as [[J| |] r'] eqn:Hj;
    [|exfalso; assert (Hl := f_equal fst Hj); vm_compute in Hl; discriminate..].
  destruct (jacob0_shape hb (zvec [3; 4; 5]%Z) (ArgStr "ee_1") ArgNone None None
              (Some "rot") None rb J r' Hj) as (p & n & t & r1 & Hp & Hs).
  exists J, p, n, t, r1. split; [reflexivity|]. split; [exact Hp | exact Hs].
Defined.

Lemma hessian0_shape_witness :
  ∃ H e s t r1 p n t' r2,
    (hessian0 hb QNone (Some two_turns) (ArgStr "ee_1") ArgNone rb).1 = Ok H
    ∧ _get_limit_links (ArgStr "ee_1") ArgNone rb = (Ok (e, s, t), r1)
    ∧ get_path hb (arg_of e) (arg_of s) false r1 = (Ok (Path p n t'), r2)
    ∧ shape3 H 6 n n.
Proof.
  destruct (hessian0 hb QNone (Some two_turns) (ArgStr "ee_1") ArgNone rb)
    as [[H| |] r'] eqn:Hh;
    [|exfalso; assert (Hl := f_equal fst Hh); vm_compute in Hl; discriminate..].
  destruct (hessian0_shape hb QNone (Some two_turns) (ArgStr "ee_1") ArgNone
              rb H r' Hh) as (e & s & t & r1 & p & n & t' & r2 & Hl & Hp & Hs).
  exists H, e, s, t, r1, p, n, t', r2. split; [reflexivity|].
  split; [exact Hl|]. split; [exact Hp | exact Hs].
Defined.

Lemma rne_needs_joints_only_witness :
  ∃ e, rne hs rs ([0; 0; 0]%Z : list Z) ([0; 0]%Z : list Z) ([0; 0]%Z : list Z)
         ([0; 0]%Z : list Z) None = Raise e.
Proof.
  apply (rne_needs_joints_only hs rs).
  apply (bool_decide_unpack _). vm_compute. exact I.
Defined.

Lemma velocity_jacobians_transposed_witness :
  ∃ J0v Jev,
    (jacob0v hb QNone (ArgStr "ee_1") ArgNone None
       (Some quarter_pose) rb).1 = Ok J0v
    ∧ (jacobev hb QNone (ArgStr "ee_1") ArgNone None
         (Some quarter_pose) rb).1 = Ok Jev
    ∧ get2 Jev 0 1 = get2 J0v 1 0.
Proof.
  destruct (jacob0v hb QNone (ArgStr "ee_1") ArgNone None
              (Some quarter_pose) rb) as [[J0v| |] r'] eqn:Hj;
    [|exfalso; assert (Hl := f_equal fst Hj); vm_compute in Hl; discriminate..].
  destruct (velocity_jacobians_transposed hb QNone (ArgStr "ee_1") ArgNone None
              (Some quarter_pose) rb J0v r' Hj)
    as (Jev & e & s & t & r1 & Tp & He & _ & _ & _ & Hentries).
  exists J0v, Jev. split; [reflexivity|]. split; [by rewrite He|].
  destruct (Hentries 0 1) as [Ht _]; [lia | lia | exact Ht].
Defined.

End KinExtraExamples.

(** * Parents that form a cycle *)

Section CycleExtras.
Context {N : Numerics} {I : Imports}.

Lemma walk_up_cycle h C s :
  parent_closed h C → s ∉ C →
  ∀ fuel l sl el path n,
    l ∈ C → walk_up h fuel sl el s l path n = Diverge.
Proof.
  intros Hclosed Hs. induction fuel as [|fuel IH]; intros l sl el path n Hl.
  - simpl. rewrite bool_decide_false; [done|]. by intros ->.
  - simpl. rewrite bool_decide_false by (by intros ->).
    destruct (Hclosed l Hl) as (x & p & Hx & Hp & HpC & [y Hy]).
    unfold deref. munfold. rewrite Hx, Hp, Hy. by apply IH.
Qed.

Lemma fkine_up_cycle h C s qk :
  parent_closed h C → (∀ l, s = Some l → l ∉ C) →
  ∀ fuel l Tk T,
    l ∈ C → fkine_up h fuel s l qk Tk ≠ Ok T.
Proof.
  intros Hclosed Hs. induction fuel as [|fuel IH]; intros l Tk T Hl;
    [done|].
  destruct (Hclosed l Hl) as (x & p & Hx & Hp & HpC & _).
  simpl. unfold deref. munfold. rewrite Hx, Hp.
  destruct (link_A_at h p qk) as [a| |]; [|done..].
  destruct (match a with Some a0 => _ | None => _ end) as [Tk'| |]; [|done..].
  rewrite bool_decide_false; [by apply IH|].
  intros Hps. by apply (Hs p).
Qed.

(** X21: the constructor accepts parents that form a cycle, and on such
    links the parent walks do not end. When the parents of [end] lead
    round a cycle that does not pass through [start], the loop of
    [get_path] neither returns nor raises, however many turns it is
    given, so [get_path] does not return unless the pair is cached; and
    the loop of [fkine] does not return a pose either. *)
Theorem parent_cycle_never_ends h C end_ start r e s tool r1 sl el :
  parent_closed h C → e ∈ C → s ∉ C →
  _get_limit_links end_ start r = (Ok (Some e, Some s, tool), r1) →
  h !! s = Some sl → h !! e = Some el →
  cache_lookup (_path_cache r1) (name sl) (name el) = None →
  (∀ fuel path n, walk_up h fuel sl el s e path n = Diverge)
  ∧ (get_path h end_ start false r).1 = Diverge
  ∧ ∀ fuel qk Tk T, fkine_up h fuel (Some s) e qk Tk ≠ Ok T.
Proof.
  intros Hclosed He Hs Hlim Hsl Hel Hmiss. split; [|split].
  - intros fuel path n. by eapply walk_up_cycle.
  - unfold get_path. munfold. rewrite Hlim. unfold deref.
    rewrite Hsl, Hel, Hmiss. simpl.
    by rewrite (walk_up_cycle h C s Hclosed Hs).
  - intros fuel qk Tk T. eapply fkine_up_cycle; [done| |done].
    by intros l [= <-].
Qed.

End CycleExtras.

Section CycleExamples.
Import ZModel.

Lemma parent_cycle_never_ends_witness :
  (get_path hl (ArgStr "a") (ArgStr "root") false rl).1 = Diverge.
Proof.
  edestruct (parent_cycle_never_ends hl [1; 2] (ArgStr "a") (ArgStr "root") rl
               1 0 None rl) as (_ & Hpath & _).
  - intros l Hl. apply elem_of_cons in Hl as [->|Hl].
    + eexists _, 2. split; [reflexivity|]. split; [reflexivity|].
      split; [by apply list_elem_of_further, list_elem_of_here|].
      eexists. reflexivity.
    + apply list_elem_of_singleton in Hl as ->.
      eexists _, 1. split; [reflexivity|]. split; [reflexivity|].
      split; [apply list_elem_of_here|]. eexists. reflexivity.
  - apply list_elem_of_here.
  - intros Hin. repeat (apply elem_of_cons in Hin as [Hin|Hin]; [discriminate|]).
    by apply elem_of_nil in Hin.
  - reflexivity.
  - reflexivity.
  - reflexivity.
  - reflexivity.
  - exact Hpath.
Defined.

End CycleExamples.

(** * End-effectors *)

Section LeafExtras.
Context {N : Numerics}.

Lemma ERobot_init_leaves h ls chk base tool h' r :
  ERobot_init h ls GNone chk base tool = Ok (h', r) →
  ∃ h4 xs4 xs5,
    derefs h4 ls = Ok xs4 ∧ derefs h' ls = Ok xs5
    ∧ keeps _children h4 h'
    ∧ _ee_links r
      = omap (λ '(l, x), if bool_decide (length (_children x) = 0)
                         then Some (Some l) else None) (zip ls xs4)
    ∧ _nbranches r = length (filter (λ x, length (_children x) = 0) xs5).
Proof.
  unfold ERobot_init, BaseERobot_init. munfold.
  destruct (link_tree h ls GNone)
    as [[[[[[[h4 d] n] bl] links'] gs] gls]| |] eqn:Htree; try discriminate.
  destruct (link_tree_stages _ _ _ _ _ _ _ _ _ _ Htree)
    as (_ & _ & _ & _ & _ & _ & _ & _ & _ & _ & _ & _ & Hgl).
  destruct (Hgl eq_refl) as (-> & -> & ->).
  destruct (derefs h4 ls) as [xs4| |] eqn:H4; try discriminate. simpl.
  destruct (assign_jindex h4 ls bl n chk) as [[h5 orl]| |] eqn:Hassign;
    try discriminate.
  destruct (derefs h5 ls) as [xs5| |] eqn:H5; try discriminate.
  intros [= <- <-]. simpl. exists h4, xs4, xs5. do 2 (split; [done|]).
  split; [|done].
  by destruct (assign_jindex_keeps _children _ _ _ _ _ _ _ (λ _ _, eq_refl)
                 Hassign).
Qed.

Lemma leaves_count h ls xs :
  Forall2 (λ l x, h !! l = Some x) ls xs →
  length (filter (λ x, length (_children x) = 0) xs)
  = length (filter (λ l, children_of h l = []) ls).
Proof.
  induction 1 as [|l x ls xs Hx _ IH]; [done|].
  assert (children_of h l = _children x) as Hc
    by (unfold children_of; by rewrite Hx).
  rewrite !filter_cons.
  destruct (decide (children_of h l = [])) as [Hnil|Hcons].
  - rewrite Hc in Hnil. rewrite decide_True by (by rewrite Hnil).
    simpl. by rewrite IH.
  - rewrite Hc in Hcons.
    rewrite decide_False by (by destruct (_children x)). done.
Qed.

(** X22: in a robot built without grippers the end-effectors are the
    links passed in that have no children, in the order of the list, and
    the number of branches is the number of end-effectors. *)
Theorem end_effectors_are_leaves h ls chk base tool h' r :
  ERobot_init h ls GNone chk base tool = Ok (h', r) →
  _ee_links r = Some <$> filter (λ l, children_of h' l = []) ls
  ∧ _nbranches r = length (_ee_links r).
Proof.
  intros Hinit.
  destruct (ERobot_init_leaves _ _ _ _ _ _ _ Hinit)
    as (h4 & xs4 & xs5 & H4 & H5 & Hk & Hee & Hnb).
  apply derefs_Ok in H4, H5.
  assert (_ee_links r = Some <$> filter (λ l, children_of h' l = []) ls) as Hee'.
  { rewrite Hee. clear -H4 Hk. induction H4 as [|l x ls xs Hx _ IH]; [done|].
    simpl. rewrite filter_cons.
    assert (children_of h' l = _children x) as Hc
      by (rewrite (keeps_children_of _ _ _ Hk); unfold children_of;
          by rewrite Hx).
    destruct (decide (children_of h' l = [])) as [Hnil|Hcons].
    - rewrite Hc in Hnil. rewrite bool_decide_true by (by rewrite Hnil).
      simpl. f_equal. exact IH.
    - rewrite Hc in Hcons.
      rewrite bool_decide_false by (by destruct (_children x)). exact IH. }
  split; [done|].
  rewrite Hee', length_fmap, Hnb.
  by rewrite (leaves_count _ _ _ H5).
Qed.

End LeafExtras.

Section LeafExamples.
Import ZModel.

Lemma end_effectors_are_leaves_witness :
  _ee_links rb = Some <$> filter (λ l, children_of hb l = []) [0; 1; 2; 3; 4]
  ∧ _nbranches rb = length (_ee_links rb).
Proof.
  apply (end_effectors_are_leaves branched_links [0; 1; 2; 3; 4] true None None
           hb rb).
  reflexivity.
Defined.

End LeafExamples.

(** * The constructor ends *)

Section TerminationExtras.
Context {N : Numerics}.

Lemma foldl_no_diverge {A X} (f : outcome A → X → outcome A) l :
  strict f → (∀ a x, f (Ok a) x ≠ Diverge) →
  ∀ a, foldl f (Ok a) l ≠ Diverge.
Proof.
  intros Hs Hstep. induction l as [|x l IH]; intros a; [done|].
  cbn [foldl]. destruct (f (Ok a) x) as [a'|e|] eqn:Hf.
  - apply IH.
  - by rewrite foldl_strict by done.
  - by destruct (Hstep a x).
Qed.

Lemma heap_closed_keeps h h' :
  heap_closed h → keeps _children h h' → heap_closed h'.
Proof.
  intros Hc [Hlen Hk] l x c Hx Hin. rewrite Hlen.
  specialize (Hk l). rewrite Hx in Hk. simpl in Hk.
  destruct (h !! l) as [y|] eqn:Hy; [|discriminate].
  injection Hk as Hk. apply (Hc l y c Hy). by rewrite <- Hk.
Qed.

Lemma scan_base_closed ls h3 h4 bl :
  heap_closed h3 →
  foldl scan_base (Ok (h3, None)) ls = Ok (h4, bl) →
  heap_closed h4 ∧ length h4 = length h3 ∧ ∀ b, bl = Some b → b < length h4.
Proof.
  intros Hc Hrun.
  apply (foldl_outcome_inv scan_base
           (λ _ st, heap_closed st.1 ∧ length st.1 = length h3
                    ∧ ∀ b, st.2 = Some b → b < length st.1)
           scan_base_strict) with (l := ls) (pre := []) (a := (h3, None))
                                 (a' := (h4, bl)); [|done|done].
  intros _ [a ba] link [a' ba'] (Hca & Hlen & Hb). simpl in *.
  unfold scan_base. munfold. unfold deref.
  destruct (a !! link) as [x|] eqn:Hx; [|discriminate].
  destruct (_parent x) as [|s|p]; [|discriminate|].
  - destruct ba; [discriminate|]. intros [= <- <-]. simpl.
    split; [done|]. split; [done|]. intros b [= <-].
    by eapply lookup_lt_Some.
  - destruct (a !! p) as [y|] eqn:Hy; [|discriminate].
    intros [= <- <-]. simpl. rewrite length_insert.
    split; [|split; [done|]].
    + intros l z c Hz Hin. rewrite length_insert.
      destruct (decide (l = p)) as [->|Hne].
      * rewrite list_lookup_insert_eq in Hz by (by eapply lookup_lt_Some).
        injection Hz as <-. simpl in Hin.
        apply elem_of_app in Hin as [Hin|Hin]; [by eapply Hca|].
        apply list_elem_of_singleton in Hin as ->. by eapply lookup_lt_Some.
      * rewrite list_lookup_insert_ne in Hz by done. by eapply Hca.
    + done.
Qed.

Lemma derefs_no_diverge h ls : derefs h ls ≠ Diverge.
Proof.
  induction ls as [|l ls IH]; [done|]. simpl. unfold deref. munfold.
  destruct (h !! l); [|done]. by destruct (derefs h ls).
Qed.

Lemma list_remove_no_diverge x l : list_remove x l ≠ Diverge.
Proof.
  induction l as [|y l IH]; [done|]. simpl. case_bool_decide; [done|].
  munfold. by destruct (list_remove x l).
Qed.

Lemma visit_link_total ls : func_total (visit_link ls).
Proof.
  intros l [h [j orl]] Hl. simpl in Hl.
  apply lookup_lt_is_Some in Hl as [x Hx].
  unfold visit_link, deref. munfold. rewrite Hx.
  destruct (isjoint x && bool_decide (l ∈ ls)); eexists; (split; [done|]);
    simpl; by rewrite ?length_insert.
Qed.

Lemma dfs_links_ends {S} (func : ref → heap * S → outcome (heap * S)) h b s :
  keeps_children func → func_total func → heap_closed h →
  (∀ l, b = Some l → l < length h) →
  dfs_links h b func s ≠ Diverge.
Proof.
  intros Hkeep Htotal Hclosed Hb. destruct b as [b|]; [|done].
  unfold dfs_links.
  destruct (vis_children_returns func h Hkeep Htotal Hclosed (length h) b
              ([], (h, s))) as (st' & -> & _); simpl; try done.
  - constructor.
  - intros x Hx. by apply elem_of_nil in Hx.
  - apply not_elem_of_nil.
  - by apply Hb.
  - lia.
Qed.

Lemma no_func_keeps : keeps_children (no_func).
Proof. intros l hs hs' [= <-] x. reflexivity. Qed.

Lemma no_func_returns : func_total (no_func).
Proof. intros l hs _. by exists hs. Qed.

Lemma link_tree_ends h ls gl :
  heap_closed h →
  (∀ l, match gl with
        | GNone => False
        | GLink g => l = g
        | GList gs => l ∈ gs
        end → l < length h) →
  link_tree h ls gl ≠ Diverge
  ∧ ∀ h4 d n bl links' gs gls,
      link_tree h ls gl = Ok (h4, d, n, bl, links', gs, gls) →
      heap_closed h4 ∧ ∀ b, bl = Some b → b < length h4.
Proof.
  intros Hclosed Hg.
  assert (∀ h4 d n bl links' gs gls,
            link_tree h ls gl = Ok (h4, d, n, bl, links', gs, gls) →
            heap_closed h4 ∧ ∀ b, bl = Some b → b < length h4) as Hok.
  { intros h4 d n bl links' gs gls Htree.
    destruct (link_tree_stages _ _ _ _ _ _ _ _ _ _ Htree)
      as (h1 & n0 & k & h2 & xs & h3 & H1 & H2 & _ & H3 & H4 & _).
    pose proof (register_links _ _ _ H1) as Hreg.
    pose proof (registered_keeps _children _ _ _ (λ _ _, eq_refl) Hreg) as Hk1.
    pose proof (resolve_parent_keeps _children _ _ _ _ (λ _ _, eq_refl) H2)
      as Hk2.
    assert (keeps _children h2 h3) as Hk3.
    { destruct (forallb _ xs);
        [by eapply chain_parent_keeps | injection H3 as <-; apply keeps_refl]. }
    assert (heap_closed h3) as Hc3.
    { eapply heap_closed_keeps; [|exact Hk3].
      eapply heap_closed_keeps; [|exact Hk2].
      by eapply heap_closed_keeps. }
    destruct (scan_base_closed _ _ _ _ Hc3 H4) as (Hc4 & _ & Hb). done. }
  split; [|done].
  unfold link_tree. munfold.
  destruct (foldl register_link _ ls) as [[[[h1 d] n] k]|e|] eqn:H1; [|done|].
  2: { exfalso. revert H1. apply foldl_no_diverge; [apply register_link_strict|].
       intros [[[a d] n] k] x. unfold register_link, deref. munfold.
       destruct (a !! x) as [y|]; [|done].
       destruct (name y); simpl; by case_bool_decide. }
  destruct (foldl (resolve_parent d) _ ls) as [h2|e|] eqn:H2; [|done|].
  2: { exfalso. revert H2.
       apply foldl_no_diverge; [apply resolve_parent_strict|].
       intros a x. unfold resolve_parent, deref. munfold.
       destruct (a !! x) as [y|]; [|done].
       destruct (_parent y); try done. by destruct (d !! s). }
  destruct (derefs h2 ls) as [xs|e|] eqn:Hxs; [|done|];
    [|by destruct (derefs_no_diverge h2 ls)].
  destruct (if forallb _ xs then _ else _) as [h3|e|] eqn:H3; [|done|].
  2: { exfalso. destruct (forallb _ xs); [|discriminate]. revert H3.
       apply foldl_no_diverge; [apply chain_parent_strict|].
       intros a i. unfold chain_parent, deref. munfold.
       destruct (ls !! (i + 1)) as [b|]; [|done].
       destruct (ls !! i); [|done]. by destruct (a !! b). }
  destruct (foldl scan_base _ ls) as [[h4 bl]|e|] eqn:H4; [|done|].
  2: { exfalso. revert H4. apply foldl_no_diverge; [apply scan_base_strict|].
       intros [a ba] x. unfold scan_base, deref. munfold.
       destruct (a !! x) as [y|]; [|done].
       destruct (_parent y) as [| |p]; try done; [by destruct ba|].
       by destruct (a !! p). }
  assert (heap_closed h4 ∧ length h4 = length h) as [Hc4 Hlen4].
  { pose proof (register_links _ _ _ H1) as Hreg.
    pose proof (registered_keeps _children _ _ _ (λ _ _, eq_refl) Hreg)
      as Hk1.
    pose proof (resolve_parent_keeps _children _ _ _ _ (λ _ _, eq_refl) H2)
      as Hk2.
    assert (keeps _children h2 h3) as Hk3.
    { destruct (forallb _ xs);
        [by eapply chain_parent_keeps | injection H3 as <-; apply keeps_refl]. }
    assert (heap_closed h3) as Hc3.
    { eapply heap_closed_keeps; [|exact Hk3].
      eapply heap_closed_keeps; [|exact Hk2].
      by eapply heap_closed_keeps. }
    destruct (scan_base_closed _ _ _ _ Hc3 H4) as (Hc4 & Hl4 & _).
    split; [done|]. destruct Hk1 as [L1 _], Hk2 as [L2 _], Hk3 as [L3 _].
    simpl in L1. congruence. }
  set (gll := match gl with GNone => [] | GLink l => [l] | GList ls0 => ls0 end).
  assert (∀ l, l ∈ gll → l < length h4) as Hgll.
  { intros l Hl. rewrite Hlen4. apply Hg. subst gll. destruct gl.
    - by apply elem_of_nil in Hl.
    - by apply list_elem_of_singleton in Hl.
    - done. }
  clearbody gll.
  assert (∀ acc, acc ≠ Diverge →
            foldl (extract_gripper h4) acc gll ≠ Diverge) as Hfold.
  { clear -Hc4 Hgll. induction gll as [|g gll IH]; intros acc Hacc; [done|].
    cbn [foldl].
    apply IH; [intros l Hl; apply Hgll; by apply list_elem_of_further|].
    destruct acc as [[links0 gs0]|e|]; [|done|done].
    unfold extract_gripper. munfold.
    destruct (dfs_links h4 (Some g) no_func tt) as [[gl0 st0]|e|] eqn:Hdfs;
      [|done|].
    - destruct (foldl _ (Ok links0) gl0) as [l1|e|] eqn:Hrm; [done|done|].
      exfalso. revert Hrm. apply foldl_no_diverge; [by split|].
      intros a x. munfold. apply list_remove_no_diverge.
    - exfalso. revert Hdfs.
      apply dfs_links_ends;
        [apply no_func_keeps | apply no_func_returns | done |].
      intros l [= <-]. apply Hgll, list_elem_of_here. }
  specialize (Hfold (Ok (ls, [])) ltac:(done)).
  by destruct (foldl (extract_gripper h4) _ gll) as [[links1 gs1]|e|].
Qed.

(** X23: construction ends. On link objects whose child lists name link
    objects only, with gripper roots that are link objects, the
    constructor returns or raises: neither traversal of the tree goes
    deeper than there are link objects. *)
Theorem construction_ends h ls gl chk base tool :
  heap_closed h →
  (∀ l, match gl with
        | GNone => False
        | GLink g => l = g
        | GList gs => l ∈ gs
        end → l < length h) →
  ERobot_init h ls gl chk base tool ≠ Diverge.
Proof.
  intros Hclosed Hg.
  destruct (link_tree_ends h ls gl Hclosed Hg) as [Hnd Hok].
  unfold ERobot_init, BaseERobot_init. munfold.
  destruct (link_tree h ls gl)
    as [[[[[[[h4 d] n] bl] links'] gs] gls]|e|] eqn:Htree; [|done|done].
  destruct (Hok _ _ _ _ _ _ _ eq_refl) as [Hc4 Hb].
  destruct (match gls with [] => _ | _ => _ end) as [ee|e|] eqn:Hee; [|done|].
  2: { exfalso. destruct gls as [|g0 gls0].
       - by destruct (derefs h4 links') eqn:Hd;
           [| |destruct (derefs_no_diverge h4 links')].
       - destruct (derefs h4 (g0 :: gls0)) as [xs|e|] eqn:Hd;
           [|done|by destruct (derefs_no_diverge h4 (g0 :: gls0))].
         clear -Hee. induction xs as [|x xs IH]; simpl in Hee; [discriminate|].
         destruct (foldr _ _ xs) as [ee'|e'|]; simpl in Hee;
           [destruct (_parent x); discriminate | discriminate | by apply IH]. }
  destruct (assign_jindex h4 links' bl n chk) as [[h5 orl]|e|] eqn:Hassign;
    [|done|].
  - by destruct (derefs h5 links') eqn:Hd;
      [| |destruct (derefs_no_diverge h5 links')].
  - exfalso. revert Hassign. unfold assign_jindex. munfold.
    destruct (derefs h4 links') as [xs|e|] eqn:Hd;
      [|done|by destruct (derefs_no_diverge h4 links')].
    destruct (forallb _ xs).
    + destruct (dfs_links h4 bl (visit_link links') (0, []))
        as [[vis [h6 [j orl]]]|e|] eqn:Hdfs; [done|done|].
      exfalso. revert Hdfs.
      apply dfs_links_ends;
        [apply visit_link_keeps_children | apply visit_link_total | done
        | done].
    + destruct (forallb _ _); [|done]. destruct chk; [|done].
      destruct (foldl check_jindex _ xs) as [jset|e|] eqn:Hck; [|done|].
      * by case_bool_decide.
      * exfalso. revert Hck. apply foldl_no_diverge; [by split|].
        intros a x. unfold check_jindex. munfold.
        by destruct (isjoint x && negb _).
Qed.

End TerminationExtras.

Section TerminationExamples.
Import ZModel.

Lemma construction_ends_witness :
  ERobot_init gripped_links [0; 1; 2; 3] (GLink 2) true None None ≠ Diverge.
Proof.
  apply construction_ends.
  - apply heap_closed_Forall. apply (bool_decide_unpack _). vm_compute. exact I.
  - intros l ->. simpl. lia.
Defined.

End TerminationExamples.

(** * Links given as a chain *)

Section ChainExtras.
Context {N : Numerics}.

(** The child lists the scan for the base leaves: every link of the
    list is appended to the child list of its parent, in list order. *)
Lemma scan_base_children ls h3 h4 bl :
  foldl scan_base (Ok (h3, None)) ls = Ok (h4, bl) →
  ∀ p, children_of h4 p
       = children_of h3 p
         ++ filter (λ l, parent_of h3 l = Some (PLink p)) ls.
Proof.
  intros Hrun.
  pose (P := λ (pre : list ref) (st : list ELink * option ref),
          keeps _parent h3 st.1
          ∧ ∀ p, children_of st.1 p
                 = children_of h3 p
                   ++ filter (λ l, parent_of h3 l = Some (PLink p)) pre).
  assert (P ([] ++ ls) (h4, bl)) as [_ Hch]; [|done].
  apply (foldl_outcome_inv scan_base P scan_base_strict) with (a := (h3, None));
    [| |done].
  - intros pre [a ba] link [a' ba'] [Hk Hc]. unfold P. simpl in *.
    unfold scan_base. munfold. unfold deref.
    destruct (a !! link) as [x|] eqn:Hx; [|discriminate].
    assert (parent_of h3 link = Some (_parent x)) as Hpar.
    { rewrite <- (keeps_parent_of _ _ _ Hk). unfold parent_of. by rewrite Hx. }
    destruct (_parent x) as [|s|p0] eqn:Hp; [|discriminate|].
    + destruct ba as [b0|]; [discriminate|]. intros [= <- <-].
      split; [done|]. simpl. intros p. rewrite filter_app, Hc.
      rewrite filter_cons, decide_False by congruence.
      by rewrite filter_nil, app_nil_r.
    + destruct (a !! p0) as [y|] eqn:Hy; [|discriminate].
      intros [= <- <-]. simpl. split.
      * eapply keeps_trans; [done|]. by eapply keeps_insert.
      * intros p. rewrite filter_app, filter_cons, filter_nil.
        unfold children_of at 1.
        destruct (decide (p = p0)) as [->|Hne].
        -- rewrite list_lookup_insert_eq by (by eapply lookup_lt_Some).
           rewrite decide_True by done. simpl.
           specialize (Hc p0). unfold children_of at 1 in Hc.
           rewrite Hy in Hc. simpl in Hc. by rewrite Hc, app_assoc.
        -- rewrite list_lookup_insert_ne by done.
           rewrite decide_False by congruence. rewrite app_nil_r. apply Hc.
  - split; [apply keeps_refl|]. intros p. simpl.
    by rewrite filter_nil, app_nil_r.
Qed.

Lemma singleton_filter (f : list ref) b :
  NoDup f → (∀ x, x ∈ f → x = b) → b ∈ f → f = [b].
Proof.
  intros Hnd Hall Hb. destruct f as [|x f]; [by apply elem_of_nil in Hb|].
  assert (x = b) as -> by apply Hall, list_elem_of_here.
  destruct f as [|y f]; [done|].
  assert (y = b) as -> by apply Hall, list_elem_of_further, list_elem_of_here.
  apply NoDup_cons in Hnd as [Hnd _]. exfalso. apply Hnd, list_elem_of_here.
Qed.

(** In a list whose links each have the one before as parent, the links
    with parent [ls[i]] are [ls[i + 1]] alone. *)
Lemma chain_children (par : ref → option parent_ref) ls i a :
  NoDup ls →
  (∀ l0, head ls = Some l0 → par l0 = Some PNone) →
  (∀ j b c, ls !! j = Some b → ls !! (S j) = Some c →
     par c = Some (PLink b)) →
  ls !! i = Some a →
  filter (λ l, par l = Some (PLink a)) ls = option_list (ls !! S i).
Proof.
  intros Hnd Hhead Hchain Ha.
  assert (∀ x, x ∈ filter (λ l, par l = Some (PLink a)) ls →
               ls !! S i = Some x) as Hall.
  { intros x Hx. apply list_elem_of_filter in Hx as [Hpx Hx].
    apply list_elem_of_lookup in Hx as [k Hk].
    destruct k as [|k].
    - rewrite (Hhead x) in Hpx; [discriminate|]. by rewrite head_lookup.
    - assert (is_Some (ls !! k)) as [b Hb]
        by (apply lookup_lt_is_Some; apply lookup_lt_Some in Hk; lia).
      rewrite (Hchain k b x Hb Hk) in Hpx. injection Hpx as ->.
      by rewrite (NoDup_lookup ls k i a Hnd Hb Ha) in Hk. }
  destruct (ls !! S i) as [b|] eqn:Hb; simpl.
  - apply singleton_filter.
    + by apply NoDup_filter.
    + intros x Hx. specialize (Hall x Hx). congruence.
    + apply list_elem_of_filter. split; [by eapply Hchain|].
      by eapply list_elem_of_lookup_2.
  - destruct (filter _ ls) as [|x f]; [done|].
    by specialize (Hall x (list_elem_of_here _ _)).
Qed.

Lemma is_chain_lookup h ls :
  (∀ i a, ls !! i = Some a → children_of h a = option_list (ls !! S i)) →
  ∀ l c, ls = l :: c → is_chain h l c.
Proof.
  revert ls. intros ls Hch l c. revert ls l Hch.
  induction c as [|b c IH]; intros ls l Hch ->.
  - simpl. by rewrite (Hch 0 l eq_refl).
  - simpl. split; [by rewrite (Hch 0 l eq_refl)|].
    apply (IH (b :: c)); [|done].
    intros i a Ha. by apply (Hch (S i) a).
Qed.

(** On a chain the traversal visits the links in the order of the
    chain. *)
Lemma vis_children_chain {S} (func : ref → heap * S → outcome (heap * S)) h :
  keeps_children func → func_total func →
  ∀ c fuel l vis hs,
    is_chain h l c → NoDup (vis ++ l :: c) →
    (∀ x, x ∈ l :: c → x < length h) →
    length (l :: c) ≤ fuel →
    length hs.1 = length h →
    (∀ x, children_of hs.1 x = children_of h x) →
    ∃ hs', vis_children fuel func l (vis, hs) = Ok (vis ++ l :: c, hs').
Proof.
  intros Hkeep Htotal.
  induction c as [|b c IH]; intros fuel l vis hs Hchain Hnd Hv Hfuel Hlen Hch;
    (destruct fuel as [|fuel]; [simpl in Hfuel; lia|]);
    cbn [vis_children fst snd]; munfold;
    (destruct (Htotal l hs) as (hs1 & Hf & Hlen1);
       [rewrite Hlen; apply Hv, list_elem_of_here|]);
    rewrite Hf; unfold deref;
    (assert (is_Some (hs1.1 !! l)) as [x Hx];
       [apply lookup_lt_is_Some; rewrite Hlen1, Hlen;
        apply Hv, list_elem_of_here|]);
    rewrite Hx;
    (assert (_children x = children_of h l) as ->;
       [rewrite <- Hch, <- (Hkeep _ _ _ Hf); unfold children_of;
        by rewrite Hx|]).
  - simpl in Hchain. rewrite Hchain. simpl. eauto.
  - destruct Hchain as [Hl Hchain]. rewrite Hl. cbn [foldl].
    rewrite bool_decide_false.
    + destruct (IH fuel b (vis ++ [l]) hs1) as [hs' Hrec]; try done.
      * by rewrite <- app_assoc.
      * intros y Hy. apply Hv. by apply list_elem_of_further.
      * simpl in *. lia.
      * lia.
      * intros y. by rewrite (Hkeep _ _ _ Hf).
      * exists hs'. cbn [fst] in Hrec. rewrite Hrec. by rewrite <- app_assoc.
    + cbn [fst]. intros Hin. apply NoDup_app in Hnd as (_ & Hdis & Hnd2).
      apply elem_of_app in Hin as [Hin|Hin].
      * apply (Hdis b Hin). apply list_elem_of_further, list_elem_of_here.
      * apply list_elem_of_singleton in Hin as ->.
        apply NoDup_cons in Hnd2 as [Hnd2 _]. apply Hnd2, list_elem_of_here.
Qed.

End ChainExtras.

Section ChainNumbering.
Context {N : Numerics}.

Lemma keeps_lookup {X} (f : ELink → X) h h' l x' :
  keeps f h h' → h' !! l = Some x' → ∃ x, h !! l = Some x ∧ f x' = f x.
Proof.
  intros [_ Hk] Hx'. specialize (Hk l). rewrite Hx' in Hk. simpl in Hk.
  destruct (h !! l) as [x|]; [|discriminate]. injection Hk as Hk. eauto.
Qed.

Lemma filter_all_in (ls : list ref) : filter (λ l, l ∈ ls) ls = ls.
Proof.
  assert (∀ l0 : list ref, (∀ x, x ∈ l0 → x ∈ ls) →
            filter (λ l, l ∈ ls) l0 = l0) as Hgen.
  { induction l0 as [|a l0 IH]; intros Hsub; [done|].
    rewrite filter_cons, decide_True by apply Hsub, list_elem_of_here.
    f_equal. apply IH. intros x Hx. by apply Hsub, list_elem_of_further. }
  by apply Hgen.
Qed.

(** X24: links passed in without parents, without children and without
    joint indices make a chain that the constructor numbers in the order
    of the list: the robot keeps the links in that order, and its joints
    carry 0, 1, ..., n - 1 from the first to the last. *)
Theorem chain_numbered_in_order h ls chk base tool h' r :
  ERobot_init h ls GNone chk base tool = Ok (h', r) →
  (∀ l x, l ∈ ls → h !! l = Some x →
     _parent x = PNone ∧ _children x = [] ∧ jindex x = None) →
  links r = ls ∧ joint_indices h' ls = seq 0 (_n r).
Proof.
  intros Hinit Hfresh.
  destruct (ERobot_init_stages _ _ _ _ _ _ _ _ Hinit)
    as (h4 & links' & gls & Htree & Hassign & _).
  destruct (link_tree_stages _ _ _ _ _ _ _ _ _ _ Htree)
    as (h1 & n & k & h2 & xs & h3 & H1 & H2 & Hxs & H3 & Hscan & Hn & Hgl).
  destruct (Hgl eq_refl) as (-> & Hgs & ->). rewrite Hgs in Hn. simpl in Hn.
  pose proof (register_links _ _ _ H1) as Hreg.
  assert (∀ X (f : ELink → X),
            (∀ nm x, f (set_name nm x) = f x) → keeps f h h1) as Hk01.
  { intros X f Hf. apply (registered_keeps f _ _ _ Hf Hreg). }
  destruct Hreg as (_ & Hnd & _ & _ & _ & _ & Hcount).
  pose proof (Hk01 _ _parent (λ _ _, eq_refl)) as Hkp1.
  apply derefs_Ok in Hxs.
  (* no parent is a name: the second loop changes nothing *)
  assert (h2 = h1) as ->.
  { eapply resolve_parent_noop; [|exact H2]. intros l s Hl Hp.
    unfold parent_of in Hp.
    destruct (h1 !! l) as [x1|] eqn:Hx1; [|discriminate].
    destruct (keeps_lookup _parent h h1 l x1 Hkp1 Hx1)
      as (x & Hx & Hpx).
    destruct (Hfresh l x Hl Hx) as (Hp0 & _). simpl in Hp. congruence. }
  (* every parent is None: the links are chained *)
  rewrite forallb_true_Forall in H3.
  2:{ apply Forall_forall. intros x1 Hx1.
      apply list_elem_of_lookup in Hx1 as [i Hi].
      destruct (Forall2_lookup_r _ _ _ _ _ Hxs Hi) as (l & Hl & Hx1).
      destruct (keeps_lookup _parent h h1 l x1 Hkp1 Hx1)
        as (x & Hx & Hpx).
      destruct (Hfresh l x (list_elem_of_lookup_2 _ _ _ Hl) Hx) as (Hp0 & _).
      by rewrite Hpx, Hp0. }
  destruct (chain_parent_fold ls h1 Hnd _ _ H3) as (Hlen3 & Hpar3 & Hout3).
  assert (∀ X (f : ELink → X),
            (∀ nm x, f (set_name nm x) = f x) →
            (∀ p x, f (set_parent p x) = f x) → keeps f h h3) as Hk03.
  { intros X f Hf1 Hf2. eapply keeps_trans; [by apply Hk01|].
    by eapply chain_parent_keeps. }
  assert (∀ X (f : ELink → X),
            (∀ nm x, f (set_name nm x) = f x) →
            (∀ p x, f (set_parent p x) = f x) →
            (∀ c x, f (append_child c x) = f x) → keeps f h h4) as Hk04.
  { intros X f Hf1 Hf2 Hf3. eapply keeps_trans; [by apply Hk03|].
    by eapply scan_base_keeps. }
  assert (∀ l0, head ls = Some l0 → parent_of h3 l0 = Some PNone) as Hhead.
  { intros l0 Hl0. rewrite head_lookup in Hl0. unfold parent_of.
    rewrite Hout3.
    2:{ intros i Hi Hli. pose proof (NoDup_lookup _ _ _ _ Hnd Hl0 Hli). lia. }
    destruct (Forall2_lookup_l _ _ _ _ _ Hxs Hl0) as (x1 & _ & Hx1).
    destruct (keeps_lookup _parent h h1 l0 x1 Hkp1 Hx1)
      as (x & Hx & Hpx).
    destruct (Hfresh l0 x (list_elem_of_lookup_2 _ _ _ Hl0) Hx) as (Hp0 & _).
    rewrite Hx1. simpl. by rewrite Hpx, Hp0. }
  assert (∀ j b c, ls !! j = Some b → ls !! (S j) = Some c →
            parent_of h3 c = Some (PLink b)) as Hchain.
  { intros j b c Hb Hc. apply (Hpar3 j b c); [|done|done].
    apply lookup_lt_Some in Hc. lia. }
  (* the child lists after the scan *)
  assert (∀ i a, ls !! i = Some a →
            children_of h4 a = option_list (ls !! S i)) as Hkids.
  { intros i a Hi. rewrite (scan_base_children _ _ _ _ Hscan).
    rewrite (chain_children (parent_of h3) ls i a Hnd Hhead Hchain Hi).
    rewrite (keeps_children_of h h3)
      by (apply Hk03; intros; reflexivity).
    unfold children_of. destruct (h !! a) as [x|] eqn:Hx; [|done].
    destruct (Hfresh a x (list_elem_of_lookup_2 _ _ _ Hi) Hx) as (_ & Hc0 & _).
    simpl. by rewrite Hc0. }
  (* the list is not empty *)
  assert (∃ l0 c, ls = l0 :: c) as (l0 & c & Hls).
  { destruct ls as [|l0 c]; [|eauto]. exfalso.
    simpl in Hscan. injection Hscan as _ Hb0. rewrite <- Hb0 in Hassign.
    unfold assign_jindex in Hassign. simpl in Hassign. munfold.
    simpl in Hassign. discriminate. }
  assert (_base_link r = Some l0) as Hbase.
  { destruct (scan_base_tree _ _ _ _ Hscan) as (Hb & _).
    apply Hb; [rewrite Hls; apply list_elem_of_here|].
    apply Hhead. by rewrite Hls. }
  (* the traversal *)
  unfold assign_jindex in Hassign. munfold.
  destruct (derefs h4 ls) as [xs4| |] eqn:Hd4; try discriminate.
  pose proof (derefs_Ok _ _ _ Hd4) as Hxs4.
  rewrite forallb_true_Forall in Hassign.
  2:{ apply Forall_forall. intros x4 Hx4.
      apply list_elem_of_lookup in Hx4 as [i Hi].
      destruct (Forall2_lookup_r _ _ _ _ _ Hxs4 Hi) as (l & Hl & Hx4).
      destruct (keeps_lookup jindex h h4 l x4
                  (Hk04 _ jindex (λ _ _, eq_refl) (λ _ _, eq_refl)
                     (λ _ _, eq_refl))
                  Hx4) as (x & Hx & Hjx).
      destruct (Hfresh l x (list_elem_of_lookup_2 _ _ _ Hl) Hx) as (_ & _ & Hj0).
      apply bool_decide_eq_true. by rewrite Hjx. }
  assert (∀ x, x ∈ ls → x < length h4) as Hbound.
  { intros x Hx. apply list_elem_of_lookup in Hx as [i Hi].
    destruct (Forall2_lookup_l _ _ _ _ _ Hxs4 Hi) as (x4 & _ & Hx4).
    by apply lookup_lt_Some in Hx4. }
  destruct (vis_children_chain (visit_link ls) h4
              (visit_link_keeps_children ls) (visit_link_total ls)
              c (length h4) l0 [] (h4, (0, []))) as [hs' Hrun].
  { by apply (is_chain_lookup h4 ls). }
  { simpl. by rewrite <- Hls. }
  { rewrite <- Hls. exact Hbound. }
  { rewrite <- Hls. by apply NoDup_bounded_length. }
  { done. }
  { done. }
  rewrite Hbase in Hassign. unfold dfs_links in Hassign.
  rewrite Hrun in Hassign. destruct hs' as [h'' [j orl]].
  simpl in Hassign, Hrun. injection Hassign as -> Hlinks.
  assert (visit_inv h4 ls (l0 :: c) (h', (j, orl))) as Hinv.
  { pose proof (vis_children_inv (visit_link ls) (visit_inv h4 ls)
             (λ _ _ _ _, visit_link_inv h4 ls _ _ _ _)
             (length h4) l0 ([], (h4, (0, [])))
             (l0 :: c, (h', (j, orl)))) as Hgo.
    apply Hgo; [| |exact Hrun].
    - apply not_elem_of_nil.
    - simpl. split; [constructor|]. split; [done|].
      split; [apply same_but_jindex_refl|]. done. }
  destruct Hinv as (_ & Hor & _ & Hj & Hidx).
  rewrite <- Hls, filter_all_in in Hor. rewrite Hor in Hlinks, Hj, Hidx.
  split; [done|].
  rewrite Hidx, Hj, <- count_joints_joints_of, Hn, Hcount. f_equal.
  apply keeps_count_joints. apply Hk04; intros; reflexivity.
Qed.

End ChainNumbering.

Section ChainExamples.
Import ZModel.

Lemma chain_numbered_in_order_witness :
  links rs = [0; 1; 2] ∧ joint_indices hs [0; 1; 2] = seq 0 (_n rs).
Proof.
  apply (chain_numbered_in_order serial_links [0; 1; 2] true None None hs rs);
    [reflexivity|].
  intros l x Hl Hx.
  repeat (apply elem_of_cons in Hl as [->|Hl];
          [injection Hx as <-; repeat split; reflexivity|]).
  by apply elem_of_nil in Hl.
Defined.

End ChainExamples.

